(** * protobom: the [NodeList] graph container ([pkg/sbom/nodelist.go])

    A shallow embedding of the NodeList algebra (indexing, edge sanitation,
    Add / Union / Intersect, node removal, splicing, purl filtering and
    equality) together with the properties the specification states about
    it.

    Conventions of the embedding.
    - A Go map is a [gmap]; a Go slice is a [list].
    - Go ranges over a map in an order the runtime picks.  Every function
      that ranges over a map takes a [MapOrder]: the permutation the runtime
      applies to the keys of the map it ranges over.  Theorems quantify over
      every [MapOrder].
    - [nl.Nodes] and [nl.Edges] hold pointers.  A pointer into one of these
      slices is represented by its position in the slice; an in-place update
      through the pointer is an update of the slice at that position.  The
      lists given to one call share no node or edge, and no slice holds the
      same pointer twice.
    - A method that changes its receiver returns the receiver as the call
      leaves it.  A [nil] slice and an empty slice are both the empty list.
    - The functions that embed the methods take NodeLists that are not nil,
      but for the two places where the source tests for [nil] ([Equal],
      [GetNodesByPurlType]), where a [nil] NodeList is [None].  A call of a
      method ([Call], [run_call]) takes a receiver and NodeList arguments
      that may be [nil], and ends in a panic where the source dereferences a
      [nil] NodeList.  The nodes and edges a list holds are not [nil]. *)

From stdpp Require Import gmap strings list fin_maps sorting.

(** ** Collaborators that live outside [nodelist.go] *)

(** Modelled from the spec: the [Node] type and its methods are declared
    outside [nodelist.go].  The spec lists what the
    graph container consumes from a node: a stable id, a name, an ordered
    identifier list of (type, value) pairs, a package-url accessor, a deep
    clone, the two merge policies (overlay = [Update], gap-fill = [Augment])
    and a flattened field representation used by [Equal]. *)
Class NodeAPI := {
  Node : Type;
  Id : Node → string;
  Name : Node → string;
  Identifiers : Node → list (string * string);
  Purl : Node → string;
  Node_Copy : Node → Node;
  Update : Node → Node → Node;
  Augment : Node → Node → Node;
  Node_flatString : Node → string;
}.

(** The character ['+'] (code 43). *)
Definition plus_char : Ascii.ascii :=
  Ascii.Ascii true true false true false true false false.

(** Number of ['+'] characters of a string. *)
Fixpoint count_plus (s : string) : nat :=
  match s with
  | EmptyString => 0
  | String c s' => (if Ascii.eqb c plus_char then 1 else 0) + count_plus s'
  end.

(** Modelled from the spec: [Edge_Type] is the enumerated relationship type,
    declared in generated code outside [nodelist.go].
    [Edge_Type_String] is its [String()] method: the name of the enumerator,
    an identifier, so it is free of ['+'] and distinct for distinct
    enumerators. *)
Class EdgeTypeAPI := {
  Edge_Type : Type;
  Edge_Type_eq_dec :: EqDecision Edge_Type;
  Edge_Type_countable :: Countable Edge_Type;
  Edge_Type_String : Edge_Type → string;
  Edge_Type_String_inj : ∀ t1 t2, Edge_Type_String t1 = Edge_Type_String t2 → t1 = t2;
  Edge_Type_String_plus_free : ∀ t, count_plus (Edge_Type_String t) = 0;
}.

(** The [range] statements of [nodelist.go] that visit a map: the node
    index in [Intersect], the cache of seen edges in [cleanEdges], and the
    destinations recorded for the edge key [f] in [cleanEdges]. *)
Inductive RangeSite :=
  | range_ni1
  | range_seenCache
  | range_newTos (f : string).

(** The order in which the runtime ranges over a map.  [range_keys site ks]
    is the order in which the [range] statement [site] visits the keys [ks]
    of its map; it is any permutation of them. *)
Record MapOrder := {
  range_keys : RangeSite → list string → list string;
  range_keys_perm : ∀ site ks, range_keys site ks ≡ₚ ks;
}.

(** The order that visits the keys as [map_to_list] lists them. *)
Definition idOrder : MapOrder :=
  {| range_keys := λ _ ks, ks; range_keys_perm := λ _ ks, reflexivity ks |}.

(** The order that visits the keys in the reverse of that. *)
Definition revOrder : MapOrder :=
  {| range_keys := λ _ ks, reverse ks;
     range_keys_perm := λ _ ks, reverse_Permutation ks |}.

(** ** Panics *)

(** How an evaluation ends: with a value, or in a panic (here always a nil
    pointer dereference). *)
Inductive Result (A : Type) : Type :=
  | Ok (a : A)
  | Panic.

Arguments Ok {A} a.
Arguments Panic {A}.

#[global] Instance Result_ret : MRet Result := λ A a, Ok a.

#[global] Instance Result_bind : MBind Result :=
  λ A B f r, match r with
             | Ok a => f a
             | Panic => Panic
             end.

(** Reading a field through a pointer that may be nil. *)
Definition deref {A} (p : option A) : Result A :=
  match p with
  | Some a => Ok a
  | None => Panic
  end.

Section NodeList.
Context `{NA : NodeAPI} `{ET : EdgeTypeAPI}.

(** ** Data model *)

(** Modelled from the spec: the struct [Edge] is declared in generated code
    outside [nodelist.go]: a relationship type, an origin
    id and an ordered list of destination ids, the three fields
    [nodelist.go] reads and writes. *)
Record Edge := {
  Type_ : Edge_Type;
  From : string;
  To : list string;
}.

(** Modelled from the spec: the struct [NodeList] is declared in generated
    code as well: the nodes, the edges and the ordered root ids. *)
Record NodeList := {
  Nodes : list Node;
  Edges : list Edge;
  RootElements : list string;
}.

(** Modelled from the spec: [Edge.Copy] is a deep clone; on values it is the
    identity. *)
Definition Edge_Copy (e : Edge) : Edge :=
  {| Type_ := Type_ e; From := From e; To := To e |}.

(** Modelled from the spec: [Edge.PointsTo] is the destination-membership
    test. *)
Definition PointsTo (e : Edge) (id : string) : bool :=
  bool_decide (id ∈ To e).

(** An edge with its destination list replaced. *)
Definition set_To (e : Edge) (to : list string) : Edge :=
  {| Type_ := Type_ e; From := From e; To := to |}.

(** ** Indexing *)

(** [nodeIndex]: node pointers (positions in [nl.Nodes]) keyed by id. *)
Definition indexNodes_step (ret : gmap string nat) (i : nat) (n : Node)
  : gmap string nat := <[Id n := i]> ret.

Fixpoint indexNodes_from (i : nat) (ns : list Node) (ret : gmap string nat)
  : gmap string nat :=
  match ns with
  | [] => ret
  | n :: ns' => indexNodes_from (S i) ns' (indexNodes_step ret i n)
  end.

Definition indexNodes (nl : NodeList) : gmap string nat :=
  indexNodes_from 0 (Nodes nl) ∅.

(** [edgeIndex]: edge pointers (positions in [nl.Edges]) keyed by origin and
    type. *)
Definition indexEdges_step (index : gmap string (gmap Edge_Type (list nat)))
    (i : nat) (e : Edge) : gmap string (gmap Edge_Type (list nat)) :=
  let index1 :=
    match index !! From e with
    | None => <[From e := ∅]> index
    | Some _ => index
    end in
  let inner := default ∅ (index1 !! From e) in
  match inner !! Type_ e with
  | None => <[From e := <[Type_ e := [i]]> inner]> index1
  | Some ps => <[From e := <[Type_ e := ps ++ [i]]> inner]> index1
  end.

Fixpoint indexEdges_from (i : nat) (es : list Edge)
    (index : gmap string (gmap Edge_Type (list nat)))
  : gmap string (gmap Edge_Type (list nat)) :=
  match es with
  | [] => index
  | e :: es' => indexEdges_from (S i) es' (indexEdges_step index i e)
  end.

Definition indexEdges (nl : NodeList) : gmap string (gmap Edge_Type (list nat)) :=
  indexEdges_from 0 (Edges nl) ∅.

(** [rootElementsIndex]: the set of root ids. *)
Definition indexRootElements (nl : NodeList) : gset string :=
  foldl (λ index id, {[id]} ∪ index) ∅ (RootElements nl).

(** ** Edge sanitation *)

Definition edgeKey (e : Edge) : string :=
  From e +:+ "+++" +:+ Edge_Type_String (Type_ e).

(** The inner loop of [cleanEdges]: record the destinations of one edge that
    are backed by a node. *)
Definition cleanEdges_tos (nodeIndex : gmap string nat) (edgeKey : string)
    (newTos : gmap string (gmap string string)) (s : string)
  : gmap string (gmap string string) :=
  match nodeIndex !! s with
  | None => newTos
  | Some _ => <[edgeKey := <[s := s]> (default ∅ (newTos !! edgeKey))]> newTos
  end.

(** One iteration of the first loop of [cleanEdges]. *)
Definition cleanEdges_step (nodeIndex : gmap string nat)
    (st : gmap string Edge * gmap string (gmap string string)) (edge : Edge)
  : gmap string Edge * gmap string (gmap string string) :=
  let '(seenCache, newTos) := st in
  match nodeIndex !! From edge with
  | None => st
  | Some _ =>
    let k := edgeKey edge in
    let newTos1 :=
      match newTos !! k with
      | None => <[k := ∅]> newTos
      | Some _ => newTos
      end in
    let seenCache1 :=
      match seenCache !! k with
      | None => <[k := {| Type_ := Type_ edge; From := From edge; To := [] |}]> seenCache
      | Some _ => seenCache
      end in
    (seenCache1, foldl (cleanEdges_tos nodeIndex k) newTos1 (To edge))
  end.

(** The keys of a map, as [range] visits them. *)
Definition range {V} (ord : MapOrder) (site : RangeSite) (m : gmap string V)
  : list string := range_keys ord site (map_to_list m).*1.

(** The second loop of [cleanEdges]: one rebuilt edge per key seen. *)
Definition cleanEdges_rebuild (ord : MapOrder) (seenCache : gmap string Edge)
    (newTos : gmap string (gmap string string)) (f : string) : list Edge :=
  match seenCache !! f with
  | None => []
  | Some e =>
    [set_To e (To e ++ range ord (range_newTos f) (default ∅ (newTos !! f)))]
  end.

Definition cleanEdges (ord : MapOrder) (nl : NodeList) : NodeList :=
  let nodeIndex := indexNodes nl in
  let '(seenCache, newTos) :=
    foldl (cleanEdges_step nodeIndex) (∅, ∅) (Edges nl) in
  let newEdges :=
    range ord range_seenCache seenCache
      ≫= cleanEdges_rebuild ord seenCache newTos in
  {| Nodes := Nodes nl; Edges := newEdges; RootElements := RootElements nl |}.

(** ** Appending *)

Definition AddEdge (nl : NodeList) (e : Edge) : NodeList :=
  {| Nodes := Nodes nl; Edges := Edges nl ++ [e]; RootElements := RootElements nl |}.

Definition AddNode (nl : NodeList) (n : Node) : NodeList :=
  {| Nodes := Nodes nl ++ [n]; Edges := Edges nl; RootElements := RootElements nl |}.

(** ** Add *)

(** First loop of [Add].  [existingNodes[id]] is a pointer into the
    receiver's nodes; the source binds it to [n] and calls [Augment] on the
    same pointer with [n] as argument. *)
Definition Add_node (existingNodes : gmap string nat) (nodes : list Node)
    (n2 : Node) : list Node :=
  match existingNodes !! Id n2 with
  | Some p => alter (λ n, Augment n n) p nodes
  | None => nodes ++ [n2]
  end.

(** Second loop of [Add].  The index never holds an empty list of pointers;
    element [0] of an empty list (a panic in the source) is rendered as no
    change. *)
Definition Add_edge (existingEdges : gmap string (gmap Edge_Type (list nat)))
    (edges : list Edge) (e2 : Edge) : list Edge :=
  match existingEdges !! From e2 with
  | None => edges ++ [e2]
  | Some byType =>
    match byType !! Type_ e2 with
    | None => edges ++ [e2]
    | Some ps =>
      match head ps with
      | Some p => alter (λ e, set_To e (To e ++ To e2)) p edges
      | None => edges
      end
    end
  end.

(** Third loop of [Add] (and last loop of [Union]): append the root ids that
    are not in the index computed before the loop. *)
Definition add_root (rootElements : gset string) (roots : list string)
    (id : string) : list string :=
  if decide (id ∈ rootElements) then roots else roots ++ [id].

(** The receiver of [Add] when its three loops are done, before the
    trailing sanitation. *)
Definition Add_merged (nl nl2 : NodeList) : NodeList :=
  let existingNodes := indexNodes nl in
  let nodes := foldl (Add_node existingNodes) (Nodes nl) (Nodes nl2) in
  let existingEdges := indexEdges nl in
  let edges := foldl (Add_edge existingEdges) (Edges nl) (Edges nl2) in
  let rootElements := indexRootElements nl in
  let roots := foldl (add_root rootElements) (RootElements nl) (RootElements nl2) in
  {| Nodes := nodes; Edges := edges; RootElements := roots |}.

Definition Add (ord : MapOrder) (nl nl2 : NodeList) : NodeList :=
  cleanEdges ord (Add_merged nl nl2).

(** ** RemoveNodes *)

(** The receiver of [RemoveNodes] before the trailing sanitation. *)
Definition RemoveNodes_filtered (nl : NodeList) (ids : list string) : NodeList :=
  let idDict : gset string := foldl (λ d i, {[i]} ∪ d) ∅ ids in
  let newNodeList :=
    foldl (λ acc n, if decide (Id n ∈ idDict) then acc else acc ++ [n]) []
          (Nodes nl) in
  {| Nodes := newNodeList; Edges := Edges nl; RootElements := RootElements nl |}.

Definition RemoveNodes (ord : MapOrder) (nl : NodeList) (ids : list string)
  : NodeList :=
  cleanEdges ord (RemoveNodes_filtered nl ids).

(** ** Edge lookup and copy *)

(** [GetEdgeByType]: the first edge from [fromElement] of type [t], with its
    position (the pointer the source returns), or [None] for [nil]. *)
Definition GetEdgeByType (edges : list Edge) (fromElement : string)
    (t : Edge_Type) : option (nat * Edge) :=
  list_find (λ e, From e = fromElement ∧ Type_ e = t) edges.

Definition copyEdgeList (original : list Edge) : list Edge :=
  foldl (λ nodeCopy e, nodeCopy ++ [Edge_Copy e]) [] original.

(** ** Intersect *)

(** One iteration of the loop over [ni1]. *)
Definition Intersect_node (nl nl2 : NodeList) (ni1 ni2 : gmap string nat)
    (rootElements rootElements2 : gset string)
    (st : list Node * list string) (id : string) : list Node * list string :=
  match ni2 !! id with
  | None => st
  | Some p2 =>
    match ni1 !! id ≫= (Nodes nl !!.), Nodes nl2 !! p2 with
    | Some node, Some node2 =>
      let newnode := Update (Node_Copy node) node2 in
      (st.1 ++ [newnode],
       if decide (id ∈ rootElements ∨ id ∈ rootElements2)
       then st.2 ++ [id] else st.2)
    | _, _ => st
    end
  end.

(** One iteration of the loop over [nl2.Edges]: destinations already in the
    existing edge when the iteration starts are not appended again. *)
Definition Intersect_edge (edges : list Edge) (e : Edge) : list Edge :=
  match GetEdgeByType edges (From e) (Type_ e) with
  | None => edges ++ [Edge_Copy e]
  | Some (p, existingEdge) =>
    let invDict : gset string := list_to_set (To existingEdge) in
    let to := foldl (λ to t, if decide (t ∈ invDict) then to else to ++ [t])
                    (To existingEdge) (To e) in
    <[p := set_To existingEdge to]> edges
  end.

(** The result of [Intersect] before the trailing sanitation. *)
Definition Intersect_merged (ord : MapOrder) (nl nl2 : NodeList) : NodeList :=
  let rootElements := indexRootElements nl in
  let rootElements2 := indexRootElements nl2 in
  let ni1 := indexNodes nl in
  let ni2 := indexNodes nl2 in
  let st :=
    foldl (Intersect_node nl nl2 ni1 ni2 rootElements rootElements2) ([], [])
          (range ord range_ni1 ni1) in
  let edges := foldl Intersect_edge (copyEdgeList (Edges nl)) (Edges nl2) in
  {| Nodes := st.1; Edges := edges; RootElements := st.2 |}.

Definition Intersect (ord : MapOrder) (nl nl2 : NodeList) : NodeList :=
  cleanEdges ord (Intersect_merged ord nl nl2).

(** ** Union *)

Definition Union_node (nodeindex : gmap string nat) (nodes : list Node)
    (n : Node) : list Node :=
  match nodeindex !! Id n with
  | Some p => alter (λ x, Update x n) p nodes
  | None => nodes ++ [n]
  end.

(** One iteration of the loop over [nl2.Edges]: [PointsTo] is asked of the
    existing edge before every append. *)
Definition Union_edge (edges : list Edge) (e : Edge) : list Edge :=
  match GetEdgeByType edges (From e) (Type_ e) with
  | None => edges ++ [Edge_Copy e]
  | Some (p, existingEdge) =>
    <[p := foldl (λ ex to, if PointsTo ex to then ex else set_To ex (To ex ++ [to]))
                 existingEdge (To e)]> edges
  end.

(** The result of [Union] before sanitation and before the root ids of
    [nl2] are merged. *)
Definition Union_merged (nl nl2 : NodeList) : NodeList :=
  let nodes0 := foldl (λ acc n, acc ++ [Node_Copy n]) [] (Nodes nl) in
  let ret0 := {| Nodes := nodes0; Edges := copyEdgeList (Edges nl);
                 RootElements := RootElements nl |} in
  let nodeindex := indexNodes ret0 in
  let nodes := foldl (Union_node nodeindex) nodes0 (Nodes nl2) in
  let edges := foldl Union_edge (Edges ret0) (Edges nl2) in
  {| Nodes := nodes; Edges := edges; RootElements := RootElements nl |}.

Definition Union (ord : MapOrder) (nl nl2 : NodeList) : NodeList :=
  let ret := cleanEdges ord (Union_merged nl nl2) in
  let rootNodes := indexRootElements ret in
  {| Nodes := Nodes ret; Edges := Edges ret;
     RootElements := foldl (add_root rootNodes) (RootElements ret) (RootElements nl2) |}.

(** ** Query helpers *)

Definition GetNodesByName (nl : NodeList) (name : string) : list Node :=
  foldl (λ ret n, if decide (Name n = name) then ret ++ [n] else ret) [] (Nodes nl).

Definition GetNodeByID (nl : NodeList) (id : string) : option Node :=
  snd <$> list_find (λ n, Id n = id) (Nodes nl).

Definition GetNodesByIdentifier (nl : NodeList) (t v : string) : list Node :=
  foldl (λ ret n,
           foldl (λ ret i, if decide (i.1 = t ∧ i.2 = v) then ret ++ [n] else ret)
                 ret (Identifiers n))
        [] (Nodes nl).

(** [GetRootNodes]: the scan stops as soon as as many nodes were found as
    the index has root ids. *)
Fixpoint GetRootNodes_scan (index : gset string) (ret : list Node)
    (nodes : list Node) : list Node :=
  match nodes with
  | [] => ret
  | n :: nodes' =>
    if decide (Id n ∈ index) then
      let ret' := ret ++ [n] in
      if decide (length ret' = size index) then ret'
      else GetRootNodes_scan index ret' nodes'
    else GetRootNodes_scan index ret nodes'
  end.

Definition GetRootNodes (nl : NodeList) : list Node :=
  GetRootNodes_scan (indexRootElements nl) [] (Nodes nl).

(** ** Equal *)

(** [sort.Strings]: ascending byte-wise lexicographic order. *)
Definition sort_Strings (l : list string) : list string :=
  merge_sort String.le l.

(** Modelled from the spec: [Edge.flatString] is declared outside
    [nodelist.go].  It yields the flattened comparison string of an edge
    (type, origin and sorted destinations); [flatString e] is that string
    together with the edge as the call leaves it. *)
Context (flatString : Edge → string * Edge).

(** The two flattening loops of [Equal]: the sorted flattened strings, and
    the edges as the calls leave them. *)
Definition flatten_edges (edges : list Edge) : list string * list Edge :=
  (sort_Strings (foldl (λ acc e, acc ++ [(flatString e).1]) [] edges),
   (λ e, (flatString e).2) <$> edges).

Definition flatten_nodes (nodes : list Node) : gmap string string :=
  foldl (λ m n, <[Id n := Node_flatString n]> m) ∅ nodes.

(** [Equal] returns its verdict together with both arguments as the call
    leaves them; [None] is the [nil] argument.  A nil slice and an empty
    slice are both the empty list here; [reflect.DeepEqual] tells them
    apart, which bears on the verdict for such root-id slices only, not on
    what the call does to its arguments. *)
Definition Equal (nl : NodeList) (onl2 : option NodeList)
  : bool * NodeList * option NodeList :=
  match onl2 with
  | None => (false, nl, None)
  | Some nl2 =>
    if bool_decide (length (Edges nl) ≠ length (Edges nl2)
                    ∨ length (Nodes nl) ≠ length (Nodes nl2)
                    ∨ length (RootElements nl) ≠ length (RootElements nl2))
    then (false, nl, Some nl2)
    else
      let r1 := sort_Strings (RootElements nl) in
      let r2 := sort_Strings (RootElements nl2) in
      let nl_r := {| Nodes := Nodes nl; Edges := Edges nl; RootElements := r1 |} in
      let nl2_r := {| Nodes := Nodes nl2; Edges := Edges nl2; RootElements := r2 |} in
      if bool_decide (r1 ≠ r2) then (false, nl_r, Some nl2_r)
      else
        let '(nlEdges, edges1) := flatten_edges (Edges nl) in
        let '(nl2Edges, edges2) := flatten_edges (Edges nl2) in
        let nl_e := {| Nodes := Nodes nl; Edges := edges1; RootElements := r1 |} in
        let nl2_e := {| Nodes := Nodes nl2; Edges := edges2; RootElements := r2 |} in
        if bool_decide (nlEdges ≠ nl2Edges) then (false, nl_e, Some nl2_e)
        else
          let nlNodes := flatten_nodes (Nodes nl) in
          let nl2Nodes := flatten_nodes (Nodes nl2) in
          if bool_decide (nlNodes ≠ nl2Nodes) then (false, nl_e, Some nl2_e)
          else (true, nl_e, Some nl2_e)
  end.

(** ** RelateNodeListAtID *)

(** The result is the error ([None] for [nil]) and the receiver as the call
    leaves it. *)
Definition RelateNodeListAtID (nl nl2 : NodeList) (nodeID : string)
    (edgeType : Edge_Type) : option string * NodeList :=
  let nlIndex := indexNodes nl in
  let nlEdges := indexEdges nl in
  match nlIndex !! nodeID with
  | None => (Some ("node with ID " +:+ nodeID +:+ " not found"), nl)
  | Some _ =>
    let edge : option nat :=
      match nlEdges !! nodeID with
      | Some byType =>
        match byType !! edgeType with
        | Some ps => head ps
        | None => None
        end
      | None => None
      end in
    let edges :=
      match edge with
      | None => Edges nl ++ [{| Type_ := edgeType; From := nodeID; To := RootElements nl2 |}]
      | Some p => alter (λ e, set_To e (To e ++ RootElements nl2)) p (Edges nl)
      end in
    let nodes :=
      foldl (λ acc n, match nlIndex !! Id n with
                      | Some _ => acc
                      | None => acc ++ [n]
                      end) (Nodes nl) (Nodes nl2) in
    (None, {| Nodes := nodes; Edges := edges; RootElements := RootElements nl |})
  end.

(** ** GetNodesByPurlType *)

Definition reconnectOrphanNodes (nl : NodeList) : NodeList :=
  let edgeIndex := indexEdges nl in
  let rootIndex := foldl (λ idx id, {[id]} ∪ idx) (indexRootElements nl)
                         (RootElements nl) in
  let roots :=
    foldl (λ roots n,
             match edgeIndex !! Id n with
             | None => if decide (Id n ∈ rootIndex) then roots else roots ++ [Id n]
             | Some _ => roots
             end) (RootElements nl) (Nodes nl) in
  {| Nodes := Nodes nl; Edges := Edges nl; RootElements := roots |}.

Definition empty_NodeList : NodeList :=
  {| Nodes := []; Edges := []; RootElements := [] |}.

(** [strings.HasPrefix(s, prefix)]. *)
Definition HasPrefix (s prefix : string) : bool := String.prefix prefix s.

(** The result of [GetNodesByPurlType] on a receiver that is not [nil],
    before orphans are reconnected and edges sanitised. *)
Definition GetNodesByPurlType_selected (nl : NodeList) (purlType : string)
  : NodeList :=
  let nodes :=
    foldl (λ acc n,
             if HasPrefix (Purl n) ("pkg:" +:+ purlType +:+ "/")
                || HasPrefix (Purl n) ("pkg:/" +:+ purlType +:+ "/")
             then acc ++ [n] else acc) [] (Nodes nl) in
  let index := indexNodes {| Nodes := nodes; Edges := []; RootElements := [] |} in
  let edges :=
    foldl (λ acc e, match index !! From e with
                    | Some _ => acc ++ [Edge_Copy e]
                    | None => acc
                    end) [] (Edges nl) in
  {| Nodes := nodes; Edges := edges; RootElements := [] |}.

(** The receiver is [None] when it is [nil]. *)
Definition GetNodesByPurlType (ord : MapOrder) (onl : option NodeList)
    (purlType : string) : NodeList :=
  match onl with
  | None => empty_NodeList
  | Some nl =>
    cleanEdges ord (reconnectOrphanNodes (GetNodesByPurlType_selected nl purlType))
  end.

(** ** The method set *)

(** A call of one of the exported methods of [*NodeList], with its
    arguments.  A [*NodeList] argument is a pointer that may be nil
    ([None]). *)
Inductive Call :=
  | CallAddEdge (e : Edge)
  | CallAddNode (n : Node)
  | CallAdd (onl2 : option NodeList)
  | CallRemoveNodes (ids : list string)
  | CallGetEdgeByType (fromElement : string) (t : Edge_Type)
  | CallIntersect (onl2 : option NodeList)
  | CallUnion (onl2 : option NodeList)
  | CallGetNodesByName (name : string)
  | CallGetNodeByID (id : string)
  | CallGetNodesByIdentifier (t v : string)
  | CallGetRootNodes
  | CallEqual (onl2 : option NodeList)
  | CallRelateNodeListAtID (onl2 : option NodeList) (nodeID : string)
      (edgeType : Edge_Type)
  | CallGetNodesByPurlType (purlType : string).

(** The call [c] on the receiver [onl], a pointer that may be nil.  The
    call panics where the source reads a field of a nil NodeList: every
    method reads its receiver first, but [GetNodesByPurlType], which tests
    it, and [Equal], which tests its argument before it reads the receiver;
    [Add], [Intersect] and [Union] read their argument, and
    [RelateNodeListAtID] reads it once the anchor is found.  Otherwise the
    call returns: the outcome is the [error] it returns and the receiver as
    the call leaves it.  [RelateNodeListAtID] is the only method whose
    signature has an [error] result; for the others the [error] is [None].
    The value a query returns and the list [Intersect], [Union] and
    [GetNodesByPurlType] build are not part of the outcome; these methods
    write to what they build only.  In every method
    the first read of a NodeList that may be nil comes before the first
    write, so a panic leaves the receiver as it was. *)
Definition run_call (ord : MapOrder) (c : Call) (onl : option NodeList)
  : Result (option string * option NodeList) :=
  match c with
  | CallAddEdge e =>
    nl ← deref onl; mret (None, Some (AddEdge nl e))
  | CallAddNode n =>
    nl ← deref onl; mret (None, Some (AddNode nl n))
  | CallAdd onl2 =>
    nl ← deref onl; nl2 ← deref onl2; mret (None, Some (Add ord nl nl2))
  | CallRemoveNodes ids =>
    nl ← deref onl; mret (None, Some (RemoveNodes ord nl ids))
  | CallGetEdgeByType _ _ =>
    nl ← deref onl; mret (None, Some nl)
  | CallIntersect onl2 =>
    nl ← deref onl; nl2 ← deref onl2; mret (None, Some nl)
  | CallUnion onl2 =>
    nl ← deref onl; nl2 ← deref onl2; mret (None, Some nl)
  | CallGetNodesByName _ =>
    nl ← deref onl; mret (None, Some nl)
  | CallGetNodeByID _ =>
    nl ← deref onl; mret (None, Some nl)
  | CallGetNodesByIdentifier _ _ =>
    nl ← deref onl; mret (None, Some nl)
  | CallGetRootNodes =>
    nl ← deref onl; mret (None, Some nl)
  | CallEqual onl2 =>
    match onl2 with
    | None => mret (None, onl)
    | Some nl2 =>
      nl ← deref onl; mret (None, Some (Equal nl (Some nl2)).1.2)
    end
  | CallRelateNodeListAtID onl2 nodeID edgeType =>
    nl ← deref onl;
    match indexNodes nl !! nodeID with
    | None => mret (Some ("node with ID " +:+ nodeID +:+ " not found"), Some nl)
    | Some _ =>
      nl2 ← deref onl2;
      let r := RelateNodeListAtID nl nl2 nodeID edgeType in
      mret (r.1, Some r.2)
    end
  | CallGetNodesByPurlType _ =>
    mret (None, onl)
  end.

(** ** Properties of a NodeList *)

(** [id] is the id of a node of [nl]. *)
Definition has_node (nl : NodeList) (id : string) : Prop :=
  id ∈ Id <$> Nodes nl.

(** No edge dangles: origin and destinations are ids of nodes. *)
Definition edges_backed (nl : NodeList) : Prop :=
  ∀ e, e ∈ Edges nl → has_node nl (From e) ∧ ∀ d, d ∈ To e → has_node nl d.

(** No two edges (at different positions) share an (origin, type) pair. *)
Definition edges_distinct (nl : NodeList) : Prop :=
  ∀ i j e1 e2, Edges nl !! i = Some e1 → Edges nl !! j = Some e2 →
               From e1 = From e2 → Type_ e1 = Type_ e2 → i = j.

(** No edge lists a destination twice. *)
Definition dests_deduplicated (nl : NodeList) : Prop :=
  ∀ e, e ∈ Edges nl → NoDup (To e).

(** [n'] is [n] after some number of gap-fills from itself. *)
Definition self_augmented (n n' : Node) : Prop :=
  ∃ k, n' = Nat.iter k (λ x, Augment x x) n.

(** The edge invariants together. *)
Definition sanitised (nl : NodeList) : Prop :=
  edges_backed nl ∧ edges_distinct nl ∧ dests_deduplicated nl.

(** [edges] has an edge from [f] of type [t]. *)
Definition has_edge (edges : list Edge) (f : string) (t : Edge_Type) : Prop :=
  ∃ e, e ∈ edges ∧ From e = f ∧ Type_ e = t.

(** Some edge of [edges] from [f] of type [t] has destination [d]. *)
Definition has_dest (edges : list Edge) (f : string) (t : Edge_Type)
    (d : string) : Prop :=
  ∃ e, e ∈ edges ∧ From e = f ∧ Type_ e = t ∧ d ∈ To e.

(** An edge as an (origin, type, destination-set) triple, and the edge set
    of a NodeList. *)
Definition edge_triple (e : Edge) : string * Edge_Type * gset string :=
  (From e, Type_ e, list_to_set (To e)).

Definition edge_set (nl : NodeList) : gset (string * Edge_Type * gset string) :=
  list_to_set (edge_triple <$> Edges nl).

(** Two edges that differ in the order of their destinations only, and two
    edge lists that differ in the order of edges and destinations only. *)
Definition edge_equiv (e e' : Edge) : Prop :=
  From e = From e' ∧ Type_ e = Type_ e' ∧ To e ≡ₚ To e'.

Definition edge_lists_equiv (l l' : list Edge) : Prop :=
  ∃ k, l ≡ₚ k ∧ Forall2 edge_equiv k l'.

(** [Intersect] introduces no edge whose (origin, type) pair only [nl2]
    has. *)
Definition Intersect_never_introduces (ord : MapOrder) (nl nl2 : NodeList)
  : Prop :=
  ∀ f t, has_edge (Edges nl2) f t → ¬ has_edge (Edges nl) f t →
         ¬ has_edge (Edges (Intersect ord nl nl2)) f t.

(** The edge [e] is retained by sanitation as an edge without
    destinations. *)
Definition retained_without_destinations (ord : MapOrder) (nl : NodeList)
    (e : Edge) : Prop :=
  ∃ e', e' ∈ Edges (cleanEdges ord nl) ∧ From e' = From e ∧ Type_ e' = Type_ e ∧
        To e' = [].

(** The three length comparisons [Equal] starts with all succeed. *)
Definition counts_agree (nl nl2 : NodeList) : Prop :=
  length (Edges nl) = length (Edges nl2) ∧
  length (Nodes nl) = length (Nodes nl2) ∧
  length (RootElements nl) = length (RootElements nl2).

(** The node [Intersect] builds for the id [id] of the receiver's index,
    if it builds one, and the root id it records for it, if any. *)
Definition Intersect_pick (nl nl2 : NodeList) (id : string) : option Node :=
  match indexNodes nl2 !! id with
  | None => None
  | Some p2 =>
    match indexNodes nl !! id ≫= (Nodes nl !!.), Nodes nl2 !! p2 with
    | Some node, Some node2 => Some (Update (Node_Copy node) node2)
    | _, _ => None
    end
  end.

Definition Intersect_root (nl nl2 : NodeList) (id : string) : list string :=
  match Intersect_pick nl nl2 id with
  | Some _ =>
    if decide (id ∈ indexRootElements nl ∨ id ∈ indexRootElements nl2)
    then [id] else []
  | None => []
  end.

(** A call fails: it panics or returns an error. *)
Definition call_fails (ord : MapOrder) (c : Call) (onl : option NodeList)
  : Prop :=
  run_call ord c onl = Panic ∨
  ∃ err onl', run_call ord c onl = Ok (Some err, onl').

(** No call fails but [RelateNodeListAtID] on a receiver that lacks the
    anchor. *)
Definition only_missing_anchor_fails (ord : MapOrder) : Prop :=
  ∀ c onl, call_fails ord c onl →
    ∃ onl2 nodeID edgeType nl,
      c = CallRelateNodeListAtID onl2 nodeID edgeType ∧ onl = Some nl ∧
      ¬ has_node nl nodeID.

(** [Equal] leaves the root ids of both arguments sorted. *)
Definition Equal_sorts_roots (nl nl2 : NodeList) : Prop :=
  ∃ verdict nl' nl2',
    Equal nl (Some nl2) = (verdict, nl', Some nl2') ∧
    RootElements nl' = sort_Strings (RootElements nl) ∧
    RootElements nl2' = sort_Strings (RootElements nl2).

(** Every pointer of an edge index points to an edge of its origin and
    type, and no entry of the index is empty. *)
Definition index_sound (edges : list Edge)
    (index : gmap string (gmap Edge_Type (list nat))) : Prop :=
  ∀ f byType t ps, index !! f = Some byType → byType !! t = Some ps →
    ps ≠ [] ∧ ∀ p, p ∈ ps → ∃ e, edges !! p = Some e ∧ From e = f ∧ Type_ e = t.

(** Every pointer of a node index points to a node of its id. *)
Definition node_index_sound (nodes : list Node) (index : gmap string nat) : Prop :=
  ∀ id p, index !! id = Some p → ∃ n, nodes !! p = Some n ∧ Id n = id.

(** ** The loop invariant of [cleanEdges] *)

(** Destinations recorded for a key. *)
Definition tos_at (newTos : gmap string (gmap string string)) (k : string)
  : gmap string string := default ∅ (newTos !! k).

(** An edge is kept by sanitation when its origin is backed by a node. *)
Definition kept (idx : gmap string nat) (e : Edge) : Prop :=
  is_Some (idx !! From e).

(** After the edges [P] went through the first loop: the cache has a key for
    every kept edge of [P], each cached edge carries its key and no
    destination, and the destinations recorded for a key are the backed
    destinations of the kept edges of [P] with that key. *)
Record clean_inv (idx : gmap string nat) (P : list Edge)
    (seen : gmap string Edge) (newTos : gmap string (gmap string string))
  : Prop := {
  inv_seen : ∀ k, is_Some (seen !! k) ↔ ∃ e, e ∈ P ∧ kept idx e ∧ edgeKey e = k;
  inv_cache : ∀ k c, seen !! k = Some c → To c = [] ∧ edgeKey c = k;
  inv_dest : ∀ k d, is_Some (tos_at newTos k !! d) ↔
    is_Some (idx !! d) ∧ ∃ e, e ∈ P ∧ kept idx e ∧ edgeKey e = k ∧ d ∈ To e;
}.

End NodeList.

(** ** A concrete instance of the collaborators *)

(** Modelled from the spec: the relationship types the examples need; the
    scenario of the spec names [dependsOn]. *)
Inductive EdgeKind := dependsOn | contains.

Global Instance EdgeKind_eq_dec : EqDecision EdgeKind.
Proof. solve_decision. Defined.

Definition EdgeKind_code (t : EdgeKind) : nat :=
  match t with dependsOn => 0 | contains => 1 end.

Definition EdgeKind_of_code (n : nat) : EdgeKind :=
  match n with 0 => dependsOn | _ => contains end.

Global Instance EdgeKind_countable : Countable EdgeKind :=
  inj_countable' EdgeKind_code EdgeKind_of_code ltac:(by intros []).

Definition EdgeKind_String (t : EdgeKind) : string :=
  match t with dependsOn => "dependsOn" | contains => "contains" end.

Definition EdgeKind_API : EdgeTypeAPI :=
  {| Edge_Type := EdgeKind;
     Edge_Type_String := EdgeKind_String;
     Edge_Type_String_inj := ltac:(by intros [] []);
     Edge_Type_String_plus_free := ltac:(by intros []) |}.

(** Modelled from the spec: a node with an id, a name and an ordered list
    of (type, value) identifiers.  A field is unset when it is empty.  The
    overlay merge replaces the receiver's fields by the incoming ones that
    are set; the gap-fill merge fills the receiver's unset fields only; the
    package url is the value of the first identifier of type [purl]. *)
Record SNode := {
  sn_id : string;
  sn_name : string;
  sn_identifiers : list (string * string);
}.

Definition overlay_string (receiver incoming : string) : string :=
  if decide (incoming = "") then receiver else incoming.

Definition overlay_list {A} (receiver incoming : list A) : list A :=
  match incoming with [] => receiver | _ => incoming end.

Definition SNode_Update (n n2 : SNode) : SNode :=
  {| sn_id := overlay_string (sn_id n) (sn_id n2);
     sn_name := overlay_string (sn_name n) (sn_name n2);
     sn_identifiers := overlay_list (sn_identifiers n) (sn_identifiers n2) |}.

Definition SNode_Augment (n n2 : SNode) : SNode :=
  {| sn_id := overlay_string (sn_id n2) (sn_id n);
     sn_name := overlay_string (sn_name n2) (sn_name n);
     sn_identifiers := overlay_list (sn_identifiers n2) (sn_identifiers n) |}.

Definition SNode_Purl (n : SNode) : string :=
  match list_find (λ i, i.1 = "purl") (sn_identifiers n) with
  | Some (_, i) => i.2
  | None => ""
  end.

Definition SNode_flatString (n : SNode) : string :=
  sn_id n +:+ "|" +:+ sn_name n +:+ "|" +:+
  foldr (λ i acc, i.1 +:+ "=" +:+ i.2 +:+ ";" +:+ acc) "" (sn_identifiers n).

Definition SNode_API : NodeAPI :=
  {| Node := SNode; Id := sn_id; Name := sn_name; Identifiers := sn_identifiers;
     Purl := SNode_Purl; Node_Copy := λ n, n;
     Update := SNode_Update; Augment := SNode_Augment;
     Node_flatString := SNode_flatString |}.

Section Scenario.
Context `{NA : NodeAPI}.
#[local] Existing Instance EdgeKind_API.

(** An edge of type [dependsOn]. *)
Definition depends (f : string) (to : list string) : Edge :=
  {| Type_ := dependsOn; From := f; To := to |}.

(** The scenario of the spec over any four nodes: A = nodes a (root), b,
    edge a→b; B = nodes b, c, edge b→c, root b.  The ids of the nodes are
    hypotheses of the statements about the scenario. *)
Definition scenario_A (na nb : Node) : NodeList :=
  {| Nodes := [na; nb]; Edges := [depends "a" ["b"]]; RootElements := ["a"] |}.

Definition scenario_B (nb2 nc : Node) : NodeList :=
  {| Nodes := [nb2; nc]; Edges := [depends "b" ["c"]]; RootElements := ["b"] |}.

End Scenario.

Section Examples.
#[local] Existing Instance SNode_API.
#[local] Existing Instance EdgeKind_API.

(** A node that has an id only, and a node with an id and a name. *)
Definition bare (id : string) : SNode :=
  {| sn_id := id; sn_name := ""; sn_identifiers := [] |}.

Definition named (id name : string) : SNode :=
  {| sn_id := id; sn_name := name; sn_identifiers := [] |}.

(** An edge flattening without effect on the edge. *)
Definition pure_flatString (e : Edge) : string * Edge :=
  (EdgeKind_String (Type_ e) +:+ ":" +:+ From e +:+ ":" +:+
   foldr (λ d acc, d +:+ "," +:+ acc) "" (sort_Strings (To e)), e).

(** The scenario's lists over nodes that have an id only. *)
Definition bare_A : NodeList := scenario_A (bare "a") (bare "b").

Definition bare_B : NodeList := scenario_B (bare "b") (bare "c").

(** A receiver that knows node b by id only, and an argument that knows its
    name. *)
Definition unnamed_b : NodeList :=
  {| Nodes := [bare "b"]; Edges := []; RootElements := [] |}.

Definition named_b : NodeList :=
  {| Nodes := [named "b" "libc"]; Edges := []; RootElements := [] |}.

(** Two lists over the nodes a and b; only the second has an edge. *)
Definition ab_no_edges : NodeList :=
  {| Nodes := [bare "a"; bare "b"]; Edges := []; RootElements := [] |}.

Definition ab_one_edge : NodeList :=
  {| Nodes := [bare "a"; bare "b"]; Edges := [depends "a" ["b"]];
     RootElements := [] |}.

(** Two edges from a of the same type: the first points to a missing node
    only, the second to b. *)
Definition ab_split_edges : NodeList :=
  {| Nodes := [bare "a"; bare "b"];
     Edges := [depends "a" ["x"]; depends "a" ["b"]];
     RootElements := [] |}.

(** Two lists with unsorted roots and different root counts. *)
Definition roots_ba : NodeList :=
  {| Nodes := []; Edges := []; RootElements := ["b"; "a"] |}.

Definition roots_a : NodeList :=
  {| Nodes := []; Edges := []; RootElements := ["a"] |}.

(** A node whose package url has the extra slash. *)
Definition slash_purl_node : SNode :=
  {| sn_id := "x"; sn_name := "x"; sn_identifiers := [("purl", "pkg:/deb/x@1")] |}.

Definition slash_purl_list : NodeList :=
  {| Nodes := [slash_purl_node]; Edges := []; RootElements := [] |}.

End Examples.

(** * Positions, comparisons and further examples *)

Section Positions.
Context `{NA : NodeAPI} `{ET : EdgeTypeAPI}.

(** The positions, counted from [i], of the edges from [f] of type [t]. *)
Fixpoint positions_from (i : nat) (es : list Edge) (f : string) (t : Edge_Type)
  : list nat :=
  match es with
  | [] => []
  | e :: es' =>
    if decide (From e = f ∧ Type_ e = t)
    then i :: positions_from (S i) es' f t
    else positions_from (S i) es' f t
  end.

(** The entry of an edge index for an origin and a type: the two lookups
    [index[f][t]] of the source, where a missing origin gives a nil map. *)
Definition index_entry (index : gmap string (gmap Edge_Type (list nat)))
    (f : string) (t : Edge_Type) : option (list nat) :=
  index !! f ≫= (.!! t).

(** The current edges keep, position by position, the (origin, type) pairs
    of the edges the index was built from. *)
Definition aligned (E0 E : list Edge) : Prop :=
  ∀ p x0, E0 !! p = Some x0 →
          ∃ x, E !! p = Some x ∧ From x = From x0 ∧ Type_ x = Type_ x0.

(** The last node of [nodes] with the id [id], if any. *)
Definition last_with_id (nodes : list Node) (id : string) : option Node :=
  last (filter (λ n, Id n = id) nodes).

End Positions.

Section Comparison.
Context `{NA : NodeAPI} `{ET : EdgeTypeAPI}.
Context (flatString : Edge → string * Edge).

(** What the comparisons of [Equal] look at: the three counts, the root ids
    and the flattened edges up to order, and for every id the flattening of
    the last node that carries it. *)
Definition Equal_agree (nl nl2 : NodeList) : Prop :=
  counts_agree nl nl2 ∧
  RootElements nl ≡ₚ RootElements nl2 ∧
  ((λ e, (flatString e).1) <$> Edges nl) ≡ₚ ((λ e, (flatString e).1) <$> Edges nl2) ∧
  ∀ id, Node_flatString <$> last_with_id (Nodes nl) id
        = Node_flatString <$> last_with_id (Nodes nl2) id.

End Comparison.

Section MoreExamples.
#[local] Existing Instance SNode_API.
#[local] Existing Instance EdgeKind_API.

(** The nodes a and b with the edge a→b, listed in two orders. *)
Definition ab_rooted : NodeList :=
  {| Nodes := [bare "a"; bare "b"]; Edges := [depends "a" ["b"]];
     RootElements := ["b"; "a"] |}.

Definition ba_rooted : NodeList :=
  {| Nodes := [bare "b"; bare "a"]; Edges := [depends "a" ["b"]];
     RootElements := ["a"; "b"] |}.

End MoreExamples.

(** * The reader options ([pkg/reader/options.go]) *)

(** A key of the options dictionary is an [interface{}]: a string, or a
    value of any other type, of which the code looks at the name of its
    dynamic type only (the [%T] rendering; [<nil>] for nil). *)
Inductive Key :=
  | KString (s : string)
  | KOther (typeName : string).

Section ReaderOptions.
(** The non-nil values of the dictionary, the unserialize options and the
    sniffers.  A nil [interface{}], a nil pointer and a nil map are [None]. *)
Context {V U S : Type}.

Record Options := {
  Format : string;
  UnserializeOptions : option U;
  formatOptions : option (gmap string (option V));
}.

Definition argToOptsKeyVal (key : Key) : string :=
  match key with
  | KString keyVal => keyVal
  | KOther typeName => typeName
  end.

(** Reading a nil map finds nothing. *)
Definition GetFormatOptions (o : Options) (key : Key) : option V :=
  let keyVal := argToOptsKeyVal key in
  match formatOptions o ≫= (.!! keyVal) with
  | Some opts => opts
  | None => None
  end.

(** The receiver as the call leaves it. *)
Definition SetFormatOptions (o : Options) (key : Key) (opts : option V)
  : Options :=
  let m := match formatOptions o with
           | None => ∅
           | Some m => m
           end in
  let keyVal := argToOptsKeyVal key in
  if decide (keyVal = "")
  then {| Format := Format o; UnserializeOptions := UnserializeOptions o;
          formatOptions := Some m |}
  else {| Format := Format o; UnserializeOptions := UnserializeOptions o;
          formatOptions := Some (<[keyVal := opts]> m) |}.

(** Modelled from the spec: the [Reader] struct is declared outside
    [options.go].  The reader options touch two of its fields: the sniffer
    and the options, which are taken to be allocated. *)
Record Reader := {
  sniffer : option S;
  Reader_Options : Options;
}.

Definition ReaderOption : Type := Reader → Reader.

Definition WithFormatOptions (driverKey : string) (opts : option V)
  : ReaderOption :=
  λ r, {| sniffer := sniffer r;
          Reader_Options :=
            SetFormatOptions (Reader_Options r) (KString driverKey) opts |}.

Definition WithUnserializeOptions (uo : option U) : ReaderOption :=
  λ r, match uo with
       | Some _ =>
         {| sniffer := sniffer r;
            Reader_Options :=
              {| Format := Format (Reader_Options r);
                 UnserializeOptions := uo;
                 formatOptions := formatOptions (Reader_Options r) |} |}
       | None => r
       end.

Definition WithSniffer (s : option S) : ReaderOption :=
  λ r, match s with
       | Some _ => {| sniffer := s; Reader_Options := Reader_Options r |}
       | None => r
       end.

(** The reader options a caller can build, and a reader after a list of
    them has been applied to it in order. *)
Inductive OptionCall :=
  | CallWithFormatOptions (driverKey : string) (opts : option V)
  | CallWithUnserializeOptions (uo : option U)
  | CallWithSniffer (s : option S).

Definition option_of (c : OptionCall) : ReaderOption :=
  match c with
  | CallWithFormatOptions driverKey opts => WithFormatOptions driverKey opts
  | CallWithUnserializeOptions uo => WithUnserializeOptions uo
  | CallWithSniffer s => WithSniffer s
  end.

Definition apply_options (r : Reader) (calls : list OptionCall) : Reader :=
  foldl (λ r c, option_of c r) r calls.

(** The sniffers, the unserialize options and the format options with a
    usable key that a list of calls carries, in order. *)
Definition sniffers_of (calls : list OptionCall) : list S :=
  omap (λ c, match c with CallWithSniffer s => s | _ => None end) calls.

Definition unserialize_options_of (calls : list OptionCall) : list U :=
  omap (λ c, match c with CallWithUnserializeOptions uo => uo | _ => None end)
       calls.

Definition format_options_of (calls : list OptionCall) (driverKey : string)
  : list (option V) :=
  omap (λ c, match c with
             | CallWithFormatOptions k opts =>
               if decide (k = driverKey ∧ k ≠ "") then Some opts else None
             | _ => None
             end) calls.

End ReaderOptions.

Arguments Options : clear implicits.
Arguments Reader : clear implicits.
Arguments ReaderOption : clear implicits.
Arguments OptionCall : clear implicits.

(** * Properties *)

(** ** The edge key *)

Lemma count_plus_app s1 s2 :
  count_plus (s1 +:+ s2) = count_plus s1 + count_plus s2.
Proof. induction s1 as [|c s1 IH]; simpl; [done|]. rewrite IH. lia. Qed.

Lemma key_head_plus c f s1 s2 :
  count_plus s1 = 0 → count_plus s2 = 0 →
  "+++" +:+ s1 ≠ String c f +:+ "+++" +:+ s2.
Proof.
  intros H1 H2 Heq.
  assert (c = plus_char) as -> by (by injection Heq).
  apply (f_equal count_plus) in Heq.
  rewrite !count_plus_app in Heq. simpl in Heq. lia.
Qed.

Lemma key_split_inj f1 f2 s1 s2 :
  count_plus s1 = 0 → count_plus s2 = 0 →
  f1 +:+ "+++" +:+ s1 = f2 +:+ "+++" +:+ s2 → f1 = f2 ∧ s1 = s2.
Proof.
  intros H1 H2. revert f2.
  induction f1 as [|c f1 IH]; intros [|c2 f2] Heq.
  - simpl in Heq. by simplify_eq.
  - by apply key_head_plus in Heq.
  - symmetry in Heq. by apply key_head_plus in Heq.
  - simpl in Heq. injection Heq as -> Heq. destruct (IH _ Heq) as [-> ->]. done.
Qed.

Section Sanitation.
Context `{NA : NodeAPI} `{ET : EdgeTypeAPI}.
Implicit Types (e : Edge) (nl : NodeList) (idx : gmap string nat).

Lemma edgeKey_inj e1 e2 :
  edgeKey e1 = edgeKey e2 → From e1 = From e2 ∧ Type_ e1 = Type_ e2.
Proof.
  unfold edgeKey. intros Heq.
  apply key_split_inj in Heq as [? ?]; auto using Edge_Type_String_plus_free.
  split; [done|]. by apply Edge_Type_String_inj.
Qed.

Lemma indexNodes_from_is_Some i (ns : list Node) (ret : gmap string nat) id :
  is_Some (indexNodes_from i ns ret !! id) ↔ id ∈ Id <$> ns ∨ is_Some (ret !! id).
Proof.
  revert i ret. induction ns as [|n ns IH]; intros i ret; simpl.
  - rewrite elem_of_nil. tauto.
  - rewrite IH. unfold indexNodes_step. rewrite elem_of_cons.
    destruct (decide (Id n = id)) as [->|Hne].
    + rewrite lookup_insert_eq. split; [|intros _; right; eauto]. auto.
    + rewrite lookup_insert_ne by done. split; [tauto|]. intros [[?|?]|?]; [congruence|tauto..].
Qed.

Lemma indexNodes_is_Some nl id :
  is_Some (indexNodes nl !! id) ↔ id ∈ Id <$> Nodes nl.
Proof.
  unfold indexNodes. rewrite indexNodes_from_is_Some, lookup_empty.
  split; [intros [?|[? ?]]; done | auto].
Qed.

Lemma cleanEdges_tos_other idx k newTos ds k' :
  k' ≠ k → foldl (cleanEdges_tos idx k) newTos ds !! k' = newTos !! k'.
Proof.
  intros Hne. revert newTos. induction ds as [|d ds IH]; intros newTos; simpl; [done|].
  rewrite IH. unfold cleanEdges_tos. destruct (idx !! d); [|done].
  by rewrite lookup_insert_ne.
Qed.

Lemma cleanEdges_tos_is_Some idx k newTos ds :
  is_Some (newTos !! k) → is_Some (foldl (cleanEdges_tos idx k) newTos ds !! k).
Proof.
  revert newTos. induction ds as [|d ds IH]; intros newTos H; simpl; [done|].
  apply IH. unfold cleanEdges_tos. destruct (idx !! d); [|done].
  rewrite lookup_insert_eq. eauto.
Qed.

Lemma cleanEdges_tos_dest idx k newTos ds d :
  is_Some (tos_at (foldl (cleanEdges_tos idx k) newTos ds) k !! d) ↔
  is_Some (tos_at newTos k !! d) ∨ (d ∈ ds ∧ is_Some (idx !! d)).
Proof.
  revert newTos. induction ds as [|s ds IH]; intros newTos; simpl.
  - rewrite elem_of_nil. tauto.
  - rewrite IH, elem_of_cons. unfold cleanEdges_tos.
    destruct (idx !! s) as [p|] eqn:Hs.
    + unfold tos_at at 1. rewrite lookup_insert_eq. simpl.
      fold (tos_at newTos k).
      destruct (decide (s = d)) as [->|Hne].
      * rewrite lookup_insert_eq. rewrite Hs. split; [|intros _; left; eauto].
        intros _. right. split; [by left|eauto].
      * rewrite lookup_insert_ne by done. split; [tauto|].
        intros [?|[[?|?] ?]]; [tauto|congruence|tauto].
    + split; [tauto|]. intros [?|[[->|?] ?]]; [tauto| |tauto].
      rewrite Hs in *. by destruct H as [? ?].
Qed.


Lemma elem_of_snoc {A} (l : list A) (x y : A) : x ∈ l ++ [y] ↔ x ∈ l ∨ x = y.
Proof. by rewrite elem_of_app, list_elem_of_singleton. Qed.

Lemma clean_inv_nil idx : clean_inv idx [] ∅ ∅.
Proof.
  split.
  - intros k. rewrite lookup_empty. split; [by intros [? ?]|].
    intros (e & He & _). by apply elem_of_nil in He.
  - intros k c. by rewrite lookup_empty.
  - intros k d. unfold tos_at. rewrite lookup_empty. simpl. rewrite lookup_empty.
    split; [by intros [? ?]|]. intros (_ & e & He & _). by apply elem_of_nil in He.
Qed.

Lemma tos_at_fresh newTos k k' :
  tos_at (match newTos !! k with None => <[k:=∅]> newTos | Some _ => newTos end) k'
  = tos_at newTos k'.
Proof.
  destruct (newTos !! k) eqn:Hk; [done|]. unfold tos_at.
  destruct (decide (k = k')) as [->|Hne].
  - by rewrite lookup_insert_eq, Hk.
  - by rewrite lookup_insert_ne.
Qed.

Lemma clean_inv_step idx P seen newTos e :
  clean_inv idx P seen newTos →
  clean_inv idx (P ++ [e]) (cleanEdges_step idx (seen, newTos) e).1
            (cleanEdges_step idx (seen, newTos) e).2.
Proof.
  intros [Hseen Hcache Hdest]. unfold cleanEdges_step.
  destruct (idx !! From e) as [p|] eqn:Horigin; simpl.
  - assert (kept idx e) as Hk by (unfold kept; rewrite Horigin; eauto).
    split.
    + intros k. destruct (decide (k = edgeKey e)) as [->|Hne].
      * split; [intros _; exists e; split; [apply elem_of_snoc; auto|done]|intros _].
        destruct (seen !! edgeKey e) eqn:Hs; [rewrite Hs; eauto|].
        rewrite lookup_insert_eq. eauto.
      * transitivity (is_Some (seen !! k)).
        { destruct (seen !! edgeKey e); [done|]. by rewrite lookup_insert_ne. }
        rewrite Hseen. split; intros (x & Hx & Hkx & Hkey).
        -- exists x. split; [apply elem_of_snoc; auto|done].
        -- exists x. apply elem_of_snoc in Hx as [Hx|Hx]; [done|].
           subst x. congruence.
    + intros k c. destruct (seen !! edgeKey e) eqn:Hs; [apply Hcache|].
      destruct (decide (k = edgeKey e)) as [->|Hne].
      * rewrite lookup_insert_eq. intros [= <-]. done.
      * rewrite lookup_insert_ne by done. apply Hcache.
    + intros k d. destruct (decide (k = edgeKey e)) as [->|Hne].
      * rewrite cleanEdges_tos_dest, tos_at_fresh, Hdest. split.
        -- intros [(Hd & x & Hx & ?)|[Hd Hi]].
           ++ split; [done|]. exists x. split; [apply elem_of_snoc; auto|done].
           ++ split; [done|]. exists e. split; [apply elem_of_snoc; auto|done].
        -- intros (Hd & x & Hx & Hkx & Hkey & Hto).
           apply elem_of_snoc in Hx as [Hx|Hx]; [left; eauto 10|].
           subst x. by right.
      * unfold tos_at at 1. rewrite cleanEdges_tos_other by done.
        fold (tos_at (match newTos !! edgeKey e with
                      | None => <[edgeKey e:=∅]> newTos | Some _ => newTos end) k).
        rewrite tos_at_fresh, Hdest. split; intros (Hd & x & Hx & Hkx & Hkey & Hto).
        -- split; [done|]. exists x. split; [apply elem_of_snoc; auto|done].
        -- split; [done|]. exists x. apply elem_of_snoc in Hx as [Hx|Hx]; [done|].
           subst x. congruence.
  - assert (¬ kept idx e) as Hk by (unfold kept; rewrite Horigin; by intros [? ?]).
    split.
    + intros k. rewrite Hseen. split; intros (x & Hx & Hkx & Hkey).
      * exists x. split; [apply elem_of_snoc; auto|done].
      * exists x. apply elem_of_snoc in Hx as [Hx|Hx]; [done|].
        subst x. done.
    + done.
    + intros k d. rewrite Hdest. split; intros (Hd & x & Hx & Hkx & Hkey & Hto).
      * split; [done|]. exists x. split; [apply elem_of_snoc; auto|done].
      * split; [done|]. exists x. apply elem_of_snoc in Hx as [Hx|Hx]; [done|].
        subst x. done.
Qed.

Lemma clean_inv_foldl idx P :
  clean_inv idx P (foldl (cleanEdges_step idx) (∅, ∅) P).1
            (foldl (cleanEdges_step idx) (∅, ∅) P).2.
Proof.
  induction P as [|e P IH] using rev_ind; [apply clean_inv_nil|].
  rewrite foldl_app. simpl.
  destruct (foldl (cleanEdges_step idx) (∅, ∅) P) as [seen newTos].
  by apply clean_inv_step.
Qed.


Lemma elem_of_range {V} (ord : MapOrder) site (m : gmap string V) f :
  f ∈ range ord site m ↔ is_Some (m !! f).
Proof.
  unfold range. rewrite (range_keys_perm ord site).
  rewrite list_elem_of_fmap. split.
  - intros ([k v] & -> & Hkv). apply elem_of_map_to_list in Hkv. simpl. eauto.
  - intros [v Hv]. exists (f, v). split; [done|]. by apply elem_of_map_to_list.
Qed.

Lemma NoDup_range {V} (ord : MapOrder) site (m : gmap string V) :
  NoDup (range ord site m).
Proof.
  unfold range. rewrite (range_keys_perm ord site). apply NoDup_fst_map_to_list.
Qed.

Lemma edgeKey_eq e1 e2 :
  From e1 = From e2 → Type_ e1 = Type_ e2 → edgeKey e1 = edgeKey e2.
Proof. unfold edgeKey. by intros -> ->. Qed.

Lemma cleanEdges_Nodes ord nl : Nodes (cleanEdges ord nl) = Nodes nl.
Proof. unfold cleanEdges. by destruct (foldl _ _ _). Qed.

Lemma cleanEdges_RootElements ord nl :
  RootElements (cleanEdges ord nl) = RootElements nl.
Proof. unfold cleanEdges. by destruct (foldl _ _ _). Qed.

Lemma cleanEdges_indexNodes ord nl :
  indexNodes (cleanEdges ord nl) = indexNodes nl.
Proof. unfold indexNodes. by rewrite cleanEdges_Nodes. Qed.

Lemma cleanEdges_Edges ord nl :
  Edges (cleanEdges ord nl) =
  let st := foldl (cleanEdges_step (indexNodes nl)) (∅, ∅) (Edges nl) in
  range ord range_seenCache st.1 ≫= cleanEdges_rebuild ord st.1 st.2.
Proof. unfold cleanEdges. by destruct (foldl _ _ _). Qed.

(** The rebuilt edges, one per key of the cache. *)
Lemma cleanEdges_elem ord nl e' :
  let st := foldl (cleanEdges_step (indexNodes nl)) (∅, ∅) (Edges nl) in
  e' ∈ Edges (cleanEdges ord nl) ↔
  ∃ c, st.1 !! edgeKey e' = Some c ∧ From e' = From c ∧ Type_ e' = Type_ c ∧
       To e' = range ord (range_newTos (edgeKey e')) (tos_at st.2 (edgeKey e')).
Proof.
  intros st. rewrite cleanEdges_Edges. fold st.
  pose proof (clean_inv_foldl (indexNodes nl) (Edges nl)) as [_ Hcache _].
  fold st in Hcache. rewrite list_elem_of_bind. unfold cleanEdges_rebuild. split.
  - intros (f & He & Hf). destruct (st.1 !! f) as [c|] eqn:Hc;
      [|by apply elem_of_nil in He].
    apply list_elem_of_singleton in He as ->.
    destruct (Hcache _ _ Hc) as [Hto Hkey].
    assert (edgeKey (set_To c (To c ++ range ord (range_newTos f)
                                               (default ∅ (st.2 !! f)))) = f)
      as Hk by (rewrite <- Hkey; by apply edgeKey_eq).
    rewrite Hk. exists c. rewrite Hc, Hto. done.
  - intros (c & Hc & HF & HT & HTo). exists (edgeKey e'). rewrite Hc. split.
    + apply list_elem_of_singleton. destruct (Hcache _ _ Hc) as [-> _].
      destruct e'; simpl in *. unfold set_To. by rewrite <- HF, <- HT, HTo.
    + apply elem_of_range. eauto.
Qed.

(** What sanitation guarantees of every edge it returns. *)
Lemma cleanEdges_sound ord nl e' :
  e' ∈ Edges (cleanEdges ord nl) →
  is_Some (indexNodes nl !! From e') ∧
  (∃ e, e ∈ Edges nl ∧ From e = From e' ∧ Type_ e = Type_ e') ∧
  NoDup (To e') ∧
  ∀ d, d ∈ To e' ↔
       is_Some (indexNodes nl !! d) ∧
       ∃ e, e ∈ Edges nl ∧ From e = From e' ∧ Type_ e = Type_ e' ∧ d ∈ To e.
Proof.
  intros (c & Hc & HF & HT & HTo)%cleanEdges_elem.
  pose proof (clean_inv_foldl (indexNodes nl) (Edges nl)) as [Hseen Hcache Hdest].
  destruct (proj1 (Hseen (edgeKey e')) (mk_is_Some _ _ Hc)) as (e & He & Hk & Hkey).
  apply edgeKey_inj in Hkey as [HeF HeT].
  assert (kept (indexNodes nl) e') as Hk' by (unfold kept in *; by rewrite <- HeF).
  split_and!; [done|by exists e| |].
  - rewrite HTo. apply NoDup_range.
  - intros d. rewrite HTo, elem_of_range, Hdest.
    split; intros (Hd & x & Hx & H); split; try done; exists x; split; try done.
    + destruct H as (_ & [? ?]%edgeKey_inj & ?). done.
    + destruct H as (HxF & HxT & ?). split_and!; [|by apply edgeKey_eq|done].
      unfold kept in *. by rewrite HxF.
Qed.

(** Sanitation keeps the (origin, type) pair of every edge whose origin is
    backed by a node. *)
Lemma cleanEdges_complete ord nl e :
  e ∈ Edges nl → is_Some (indexNodes nl !! From e) →
  ∃ e', e' ∈ Edges (cleanEdges ord nl) ∧ From e' = From e ∧ Type_ e' = Type_ e.
Proof.
  intros He Hk.
  pose proof (clean_inv_foldl (indexNodes nl) (Edges nl)) as [Hseen Hcache _].
  destruct (proj2 (Hseen (edgeKey e))) as [c Hc]; [by exists e|].
  destruct (Hcache _ _ Hc) as [Hto [HF HT]%edgeKey_inj].
  set (st := foldl (cleanEdges_step (indexNodes nl)) (∅, ∅) (Edges nl)) in *.
  exists (set_To c (range ord (range_newTos (edgeKey e))
                          (tos_at st.2 (edgeKey e)))).
  split; [|done]. apply cleanEdges_elem. fold st.
  assert (edgeKey (set_To c (range ord (range_newTos (edgeKey e))
                                   (tos_at st.2 (edgeKey e))))
          = edgeKey e) as -> by (by apply edgeKey_eq).
  by exists c.
Qed.

Lemma bind_rebuild_keys ord seen newTos (ks : list string) :
  (∀ k, k ∈ ks → ∃ c, seen !! k = Some c ∧ edgeKey c = k) →
  edgeKey <$> (ks ≫= cleanEdges_rebuild ord seen newTos) = ks.
Proof.
  induction ks as [|k ks IH]; intros H; [done|].
  rewrite bind_cons, fmap_app, IH by (intros; apply H; by right).
  destruct (H k) as (c & Hc & Hk); [by left|].
  unfold cleanEdges_rebuild. rewrite Hc. simpl. f_equal.
  rewrite <- Hk. by apply edgeKey_eq.
Qed.

Lemma cleanEdges_NoDup_keys ord nl :
  NoDup (edgeKey <$> Edges (cleanEdges ord nl)).
Proof.
  rewrite cleanEdges_Edges. simpl.
  pose proof (clean_inv_foldl (indexNodes nl) (Edges nl)) as [_ Hcache _].
  rewrite bind_rebuild_keys; [apply NoDup_range|].
  intros k [c Hc]%elem_of_range. exists c. split; [done|].
  by destruct (Hcache _ _ Hc).
Qed.

(** No two edges of a sanitised list share an (origin, type) pair. *)
Lemma cleanEdges_NoDup_pairs ord nl :
  NoDup ((λ e, (From e, Type_ e)) <$> Edges (cleanEdges ord nl)).
Proof.
  pose proof (cleanEdges_NoDup_keys ord nl) as H.
  assert (edgeKey <$> Edges (cleanEdges ord nl) =
          (λ p : string * Edge_Type, p.1 +:+ "+++" +:+ Edge_Type_String p.2) <$>
            ((λ e, (From e, Type_ e)) <$> Edges (cleanEdges ord nl))) as Heq.
  { rewrite <- list_fmap_compose. done. }
  rewrite Heq in H. by apply NoDup_fmap_1 in H.
Qed.

(** ** The invariants sanitation establishes *)

Lemma cleanEdges_edges_backed ord nl : edges_backed (cleanEdges ord nl).
Proof.
  intros e (Hfrom & _ & _ & Hto)%cleanEdges_sound. unfold has_node.
  rewrite cleanEdges_Nodes. split.
  - by apply indexNodes_is_Some.
  - intros d [Hd _]%Hto. by apply indexNodes_is_Some.
Qed.

Lemma cleanEdges_edges_distinct ord nl : edges_distinct (cleanEdges ord nl).
Proof.
  intros i j e1 e2 H1 H2 HF HT.
  eapply (proj1 (NoDup_alt _) (cleanEdges_NoDup_pairs ord nl) i j (From e1, Type_ e1)).
  - by rewrite list_lookup_fmap, H1.
  - by rewrite list_lookup_fmap, H2, HF, HT.
Qed.

Lemma cleanEdges_dests_deduplicated ord nl : dests_deduplicated (cleanEdges ord nl).
Proof. by intros e (_ & _ & Hnd & _)%cleanEdges_sound. Qed.

(** The three invariants look at the nodes and the edges only. *)
Lemma invariants_same_graph nl nl' :
  Nodes nl' = Nodes nl → Edges nl' = Edges nl →
  edges_backed nl ∧ edges_distinct nl ∧ dests_deduplicated nl →
  edges_backed nl' ∧ edges_distinct nl' ∧ dests_deduplicated nl'.
Proof.
  unfold edges_backed, edges_distinct, dests_deduplicated, has_node.
  by intros -> ->.
Qed.

Lemma cleanEdges_invariants ord nl :
  edges_backed (cleanEdges ord nl) ∧ edges_distinct (cleanEdges ord nl) ∧
  dests_deduplicated (cleanEdges ord nl).
Proof.
  auto using cleanEdges_edges_backed, cleanEdges_edges_distinct,
    cleanEdges_dests_deduplicated.
Qed.

Lemma Add_invariants ord nl nl2 :
  edges_backed (Add ord nl nl2) ∧ edges_distinct (Add ord nl nl2) ∧
  dests_deduplicated (Add ord nl nl2).
Proof. apply cleanEdges_invariants. Qed.

Lemma RemoveNodes_invariants ord nl ids :
  edges_backed (RemoveNodes ord nl ids) ∧ edges_distinct (RemoveNodes ord nl ids) ∧
  dests_deduplicated (RemoveNodes ord nl ids).
Proof. apply cleanEdges_invariants. Qed.

Lemma Intersect_invariants ord nl nl2 :
  edges_backed (Intersect ord nl nl2) ∧ edges_distinct (Intersect ord nl nl2) ∧
  dests_deduplicated (Intersect ord nl nl2).
Proof. apply cleanEdges_invariants. Qed.

Lemma Union_invariants ord nl nl2 :
  edges_backed (Union ord nl nl2) ∧ edges_distinct (Union ord nl nl2) ∧
  dests_deduplicated (Union ord nl nl2).
Proof.
  unfold Union. eapply invariants_same_graph; [..|apply cleanEdges_invariants]; done.
Qed.

Lemma empty_NodeList_invariants :
  edges_backed empty_NodeList ∧ edges_distinct empty_NodeList ∧
  dests_deduplicated empty_NodeList.
Proof.
  split_and!.
  - intros e He. by apply elem_of_nil in He.
  - intros i j e1 e2 H. by destruct i.
  - intros e He. by apply elem_of_nil in He.
Qed.

Lemma GetNodesByPurlType_invariants ord onl purlType :
  edges_backed (GetNodesByPurlType ord onl purlType) ∧
  edges_distinct (GetNodesByPurlType ord onl purlType) ∧
  dests_deduplicated (GetNodesByPurlType ord onl purlType).
Proof.
  destruct onl as [nl|]; [apply cleanEdges_invariants|apply empty_NodeList_invariants].
Qed.

(** ** Sanitising a sanitised list *)

Lemma NoDup_keys_eq (l : list Edge) e1 e2 :
  NoDup (edgeKey <$> l) → e1 ∈ l → e2 ∈ l →
  From e1 = From e2 → Type_ e1 = Type_ e2 → e1 = e2.
Proof.
  intros Hnd [i Hi]%list_elem_of_lookup [j Hj]%list_elem_of_lookup HF HT.
  assert (i = j) as ->; [|congruence].
  eapply (proj1 (NoDup_alt _) Hnd i j (edgeKey e1)).
  - by rewrite list_lookup_fmap, Hi.
  - rewrite list_lookup_fmap, Hj. simpl. f_equal. by apply edgeKey_eq.
Qed.

(** An edge of a sanitised list and the edge of the same (origin, type) pair
    after one more pass have the same destination set. *)
Lemma cleanEdges_again_dests ord1 ord2 nl e1 e2 :
  e1 ∈ Edges (cleanEdges ord1 nl) →
  e2 ∈ Edges (cleanEdges ord2 (cleanEdges ord1 nl)) →
  From e2 = From e1 → Type_ e2 = Type_ e1 →
  edge_triple e2 = edge_triple e1.
Proof.
  intros H1 H2 HF HT. unfold edge_triple. rewrite HF, HT. f_equal.
  apply set_eq. intros d. rewrite !elem_of_list_to_set.
  destruct (cleanEdges_sound _ _ _ H2) as (_ & _ & _ & Hto2).
  destruct (cleanEdges_sound _ _ _ H1) as (_ & _ & _ & Hto1).
  rewrite Hto2, cleanEdges_indexNodes. split.
  - intros (_ & x & Hx & HxF & HxT & Hd).
    assert (x = e1) as -> ; [|done].
    apply (NoDup_keys_eq (Edges (cleanEdges ord1 nl)));
      [apply cleanEdges_NoDup_keys|done|done|congruence..].
  - intros Hd. split; [by apply Hto1 in Hd as [? _]|]. by exists e1.
Qed.

(** ** Sets built by loops *)

Lemma elem_of_foldl_union (l : list string) (s : gset string) x :
  x ∈ foldl (λ d i, {[i]} ∪ d) s l ↔ x ∈ s ∨ x ∈ l.
Proof.
  revert s. induction l as [|i l IH]; intros s; simpl.
  - rewrite elem_of_nil. tauto.
  - rewrite IH, elem_of_cons, elem_of_union, elem_of_singleton. tauto.
Qed.

Lemma elem_of_indexRootElements nl x :
  x ∈ indexRootElements nl ↔ x ∈ RootElements nl.
Proof.
  unfold indexRootElements. rewrite elem_of_foldl_union, elem_of_empty. tauto.
Qed.

Lemma foldl_keep_if {A} (P : A → Prop) `{!∀ x, Decision (P x)} (l acc : list A) :
  foldl (λ acc x, if decide (P x) then acc else acc ++ [x]) acc l
  = acc ++ filter (λ x, ¬ P x) l.
Proof.
  revert acc. induction l as [|x l IH]; intros acc; simpl.
  - by rewrite app_nil_r.
  - rewrite IH. destruct (decide (P x)).
    + by rewrite filter_cons_False by tauto.
    + rewrite filter_cons_True by done. by rewrite <- app_assoc.
Qed.

(** ** RemoveNodes *)

Lemma RemoveNodes_has_node ord nl ids x :
  has_node (RemoveNodes ord nl ids) x ↔ has_node nl x ∧ x ∉ ids.
Proof.
  unfold has_node, RemoveNodes. rewrite cleanEdges_Nodes. simpl.
  rewrite foldl_keep_if. simpl. rewrite !list_elem_of_fmap. split.
  - intros (n & -> & [Hn Hin]%list_elem_of_filter). split; [eauto|].
    intros Hx. apply Hn. apply elem_of_foldl_union. auto.
  - intros [(n & -> & Hin) Hx]. exists n. split; [done|].
    apply list_elem_of_filter. split; [|done].
    intros [H|H]%elem_of_foldl_union; [by apply elem_of_empty in H|done].
Qed.

(** ** What becomes of one edge *)

(** An edge with a backed origin has a successor in the sanitised list: the
    edge of its (origin, type) pair, whose destinations are the backed
    destinations of all edges of that pair. *)
Lemma cleanEdges_retains ord nl e :
  e ∈ Edges nl → has_node nl (From e) →
  ∃ e', e' ∈ Edges (cleanEdges ord nl) ∧ From e' = From e ∧ Type_ e' = Type_ e ∧
        ∀ d, d ∈ To e' ↔ has_node nl d ∧ has_dest (Edges nl) (From e) (Type_ e) d.
Proof.
  intros He Hfrom%indexNodes_is_Some.
  destruct (cleanEdges_complete ord nl e He Hfrom) as (e' & He' & HF & HT).
  exists e'. split_and!; [done..|]. intros d.
  destruct (cleanEdges_sound _ _ _ He') as (_ & _ & _ & Hto).
  unfold has_node, has_dest. by rewrite Hto, indexNodes_is_Some, HF, HT.
Qed.

Lemma nil_iff_no_elem {A} (l : list A) : (∀ x, x ∉ l) → l = [].
Proof. destruct l as [|x l]; [done|]. intros H. destruct (H x). by left. Qed.

End Sanitation.

(** ** Sorting *)

Lemma sort_Strings_Permutation (l : list string) : sort_Strings l ≡ₚ l.
Proof. apply merge_sort_Permutation. Qed.

Lemma sort_Strings_sorted (l : list string) :
  StronglySorted String.le (sort_Strings l).
Proof. apply StronglySorted_merge_sort; apply _. Qed.

(** ** The order of map iteration does not matter *)

Section Order.
Context `{NA : NodeAPI} `{ET : EdgeTypeAPI}.
Implicit Types (e : Edge) (nl : NodeList) (ord : MapOrder).

Lemma cleanEdges_tos_index_ext (idx idx' : gmap string nat) k newTos s :
  (∀ x, is_Some (idx !! x) ↔ is_Some (idx' !! x)) →
  cleanEdges_tos idx k newTos s = cleanEdges_tos idx' k newTos s.
Proof.
  intros H. unfold cleanEdges_tos.
  destruct (idx !! s) eqn:H1, (idx' !! s) eqn:H2; try done.
  - destruct (proj1 (H s)) as [? ?]; [rewrite H1; eauto|congruence].
  - destruct (proj2 (H s)) as [? ?]; [rewrite H2; eauto|congruence].
Qed.

Lemma foldl_ext_all {A B} (f g : A → B → A) (l : list B) (a : A) :
  (∀ a b, f a b = g a b) → foldl f a l = foldl g a l.
Proof.
  intros H. revert a. induction l as [|b l IH]; intros a; simpl; [done|].
  by rewrite H, IH.
Qed.

Lemma cleanEdges_step_index_ext (idx idx' : gmap string nat) st e :
  (∀ x, is_Some (idx !! x) ↔ is_Some (idx' !! x)) →
  cleanEdges_step idx st e = cleanEdges_step idx' st e.
Proof.
  intros H. unfold cleanEdges_step. destruct st as [seen newTos].
  destruct (idx !! From e) eqn:H1, (idx' !! From e) eqn:H2; try done.
  - f_equal. apply foldl_ext_all. intros. by apply cleanEdges_tos_index_ext.
  - destruct (proj1 (H (From e))) as [? ?]; [rewrite H1; eauto|congruence].
  - destruct (proj2 (H (From e))) as [? ?]; [rewrite H2; eauto|congruence].
Qed.

Lemma range_Permutation {V} ord ord' site site' (m : gmap string V) :
  range ord site m ≡ₚ range ord' site' m.
Proof. unfold range. by rewrite !range_keys_perm. Qed.

Lemma rebuild_order ord ord' (seen : gmap string Edge) newTos (ks : list string) :
  Forall2 edge_equiv (ks ≫= cleanEdges_rebuild ord seen newTos)
                     (ks ≫= cleanEdges_rebuild ord' seen newTos).
Proof.
  induction ks as [|k ks IH]; [constructor|].
  rewrite !bind_cons. apply Forall2_app; [|done].
  unfold cleanEdges_rebuild. destruct (seen !! k) as [c|]; constructor; [|constructor].
  split_and!; [done..|]. simpl. apply Permutation_app; [done|].
  apply range_Permutation.
Qed.

(** Sanitation of two lists with the same edges and the same nodes up to
    order, under two iteration orders, yields the same edges up to the
    order of edges and of destinations. *)
Lemma cleanEdges_order ord ord' nl nl' :
  Nodes nl ≡ₚ Nodes nl' → Edges nl = Edges nl' →
  edge_lists_equiv (Edges (cleanEdges ord nl)) (Edges (cleanEdges ord' nl')).
Proof.
  intros HN HE.
  assert (∀ x, is_Some (indexNodes nl !! x) ↔ is_Some (indexNodes nl' !! x)) as Hidx.
  { intros x. by rewrite !indexNodes_is_Some, HN. }
  rewrite !cleanEdges_Edges. simpl. rewrite <- HE.
  rewrite <- (foldl_ext_all _ _ _ _ (λ st e, cleanEdges_step_index_ext _ _ st e Hidx)).
  set (st := foldl (cleanEdges_step (indexNodes nl)) (∅, ∅) (Edges nl)).
  exists (range ord' range_seenCache st.1 ≫= cleanEdges_rebuild ord st.1 st.2).
  split.
  - apply bind_Permutation, range_Permutation.
  - apply rebuild_order.
Qed.

Lemma Intersect_node_foldl nl nl2 (l : list string) (st : list Node * list string) :
  foldl (Intersect_node nl nl2 (indexNodes nl) (indexNodes nl2)
                        (indexRootElements nl) (indexRootElements nl2)) st l
  = (st.1 ++ (l ≫= λ id, option_list (Intersect_pick nl nl2 id)),
     st.2 ++ (l ≫= Intersect_root nl nl2)).
Proof.
  revert st. induction l as [|id l IH]; intros [ns rs]; simpl.
  - by rewrite !app_nil_r.
  - rewrite IH. unfold Intersect_node, Intersect_root, Intersect_pick. simpl.
    destruct (indexNodes nl2 !! id) as [p2|]; simpl; [|done].
    destruct (indexNodes nl !! id ≫= (Nodes nl !!.)) as [n|]; simpl; [|done].
    destruct (Nodes nl2 !! p2) as [n2|]; simpl; [|done].
    rewrite <- !app_assoc. simpl. by case_decide; simpl; rewrite <- ?app_assoc.
Qed.

Lemma Intersect_merged_Nodes ord nl nl2 :
  Nodes (Intersect_merged ord nl nl2)
  = range ord range_ni1 (indexNodes nl)
      ≫= λ id, option_list (Intersect_pick nl nl2 id).
Proof. unfold Intersect_merged. simpl. by rewrite Intersect_node_foldl. Qed.

Lemma Intersect_merged_RootElements ord nl nl2 :
  RootElements (Intersect_merged ord nl nl2)
  = range ord range_ni1 (indexNodes nl) ≫= Intersect_root nl nl2.
Proof. unfold Intersect_merged. simpl. by rewrite Intersect_node_foldl. Qed.

(** [Intersect] under two iteration orders: the same nodes and root ids up
    to order, the same edges up to the order of edges and destinations. *)
Lemma Intersect_order ord ord' nl nl2 :
  Nodes (Intersect ord nl nl2) ≡ₚ Nodes (Intersect ord' nl nl2) ∧
  RootElements (Intersect ord nl nl2) ≡ₚ RootElements (Intersect ord' nl nl2) ∧
  edge_lists_equiv (Edges (Intersect ord nl nl2)) (Edges (Intersect ord' nl nl2)).
Proof.
  assert (Nodes (Intersect_merged ord nl nl2) ≡ₚ Nodes (Intersect_merged ord' nl nl2))
    as HN.
  { rewrite !Intersect_merged_Nodes. apply bind_Permutation, range_Permutation. }
  unfold Intersect. rewrite !cleanEdges_Nodes, !cleanEdges_RootElements.
  split_and!; [done| |by apply cleanEdges_order].
  rewrite !Intersect_merged_RootElements. apply bind_Permutation, range_Permutation.
Qed.

(** [Union] under two iteration orders: the same nodes and root ids, the
    same edges up to the order of edges and destinations. *)
Lemma Union_order ord ord' nl nl2 :
  Nodes (Union ord nl nl2) = Nodes (Union ord' nl nl2) ∧
  RootElements (Union ord nl nl2) = RootElements (Union ord' nl nl2) ∧
  edge_lists_equiv (Edges (Union ord nl nl2)) (Edges (Union ord' nl nl2)).
Proof.
  unfold Union. simpl. unfold indexRootElements.
  rewrite !cleanEdges_Nodes, !cleanEdges_RootElements.
  split_and!; [done..|]. by apply cleanEdges_order.
Qed.

(** Edges that differ in the order of at most one destination are equal. *)
Lemma edge_equiv_short e e' : edge_equiv e e' → length (To e') ≤ 1 → e = e'.
Proof.
  intros (HF & HT & Hto) Hlen. destruct e as [t f to], e' as [t' f' to'].
  simpl in *. subst. f_equal.
  destruct to' as [|d [|d' to']]; simpl in *; [| |lia].
  - by apply Permutation_nil_r.
  - by apply Permutation_singleton_r.
Qed.

Lemma edge_lists_equiv_short (l l' : list Edge) :
  edge_lists_equiv l l' → Forall (λ e, length (To e) ≤ 1) l' → l ≡ₚ l'.
Proof.
  intros (k & Hperm & Hall) Hshort. rewrite Hperm. clear Hperm.
  induction Hall as [|e e' k l' He Hall IH]; [done|].
  apply Forall_cons in Hshort as [Hs Hshort].
  rewrite (edge_equiv_short e e') by done. by rewrite IH.
Qed.

End Order.

(** ** The indexes point where they should *)

Section Indexes.
Context `{NA : NodeAPI} `{ET : EdgeTypeAPI}.
Implicit Types (e : Edge) (nl : NodeList).

Lemma indexNodes_from_sound (pre ns : list Node) (index : gmap string nat) :
  node_index_sound (pre ++ ns) index →
  node_index_sound (pre ++ ns) (indexNodes_from (length pre) ns index).
Proof.
  revert pre index. induction ns as [|n ns IH]; intros pre index Hs; [done|].
  simpl. replace (S (length pre)) with (length (pre ++ [n]))
    by (rewrite length_app; simpl; lia).
  rewrite (cons_middle n pre ns), app_assoc. apply IH.
  rewrite <- app_assoc. simpl. intros id p. unfold indexNodes_step.
  destruct (decide (Id n = id)) as [<-|Hne].
  - rewrite lookup_insert_eq. intros [= <-]. exists n. split; [|done].
    by rewrite list_lookup_middle.
  - rewrite lookup_insert_ne by done. apply Hs.
Qed.

Lemma indexNodes_sound nl : node_index_sound (Nodes nl) (indexNodes nl).
Proof.
  apply (indexNodes_from_sound [] (Nodes nl) ∅). intros id p H.
  by rewrite lookup_empty in H.
Qed.

Lemma indexEdges_step_sound (L : list Edge) index i e :
  index_sound L index → L !! i = Some e →
  index_sound L (indexEdges_step index i e).
Proof.
  intros Hs Hi. unfold indexEdges_step.
  set (index1 := match index !! From e with
                 | None => <[From e := ∅]> index | Some _ => index end).
  assert (index_sound L index1) as Hs1.
  { unfold index1. destruct (index !! From e) eqn:Hf; [done|].
    intros f byType t ps. destruct (decide (From e = f)) as [<-|Hne].
    - rewrite lookup_insert_eq. intros [= <-]. by rewrite lookup_empty.
    - rewrite lookup_insert_ne by done. apply Hs. }
  assert (index1 !! From e = Some (default ∅ (index1 !! From e))) as Hinner.
  { unfold index1. destruct (index !! From e) eqn:Hf; [by rewrite Hf|].
    by rewrite lookup_insert_eq. }
  set (inner := default ∅ (index1 !! From e)) in *.
  assert (∀ ps',
    ps' ≠ [] →
    (∀ p, p ∈ ps' → ∃ x, L !! p = Some x ∧ From x = From e ∧ Type_ x = Type_ e) →
    index_sound L (<[From e := <[Type_ e := ps']> inner]> index1)) as Hput.
  { intros ps' Hne Hps f byType t ps.
    destruct (decide (From e = f)) as [<-|Hnf].
    - rewrite lookup_insert_eq. intros [= <-].
      destruct (decide (Type_ e = t)) as [<-|Hnt].
      + rewrite lookup_insert_eq. by intros [= <-].
      + rewrite lookup_insert_ne by done. by apply Hs1.
    - rewrite lookup_insert_ne by done. apply Hs1. }
  destruct (inner !! Type_ e) as [ps|] eqn:Hps; apply Hput.
  - by destruct ps.
  - intros p [Hp| ->]%elem_of_snoc; [|eauto].
    destruct (Hs1 _ _ _ _ Hinner Hps) as [_ H]. by apply H.
  - done.
  - intros p ->%list_elem_of_singleton. eauto.
Qed.

Lemma indexEdges_from_sound (pre es : list Edge) index :
  index_sound (pre ++ es) index →
  index_sound (pre ++ es) (indexEdges_from (length pre) es index).
Proof.
  revert pre index. induction es as [|e es IH]; intros pre index Hs; [done|].
  simpl. replace (S (length pre)) with (length (pre ++ [e]))
    by (rewrite length_app; simpl; lia).
  rewrite (cons_middle e pre es), app_assoc. apply IH.
  rewrite <- app_assoc. simpl. apply indexEdges_step_sound; [done|].
  by rewrite list_lookup_middle.
Qed.

Lemma indexEdges_sound nl : index_sound (Edges nl) (indexEdges nl).
Proof.
  apply (indexEdges_from_sound [] (Edges nl) ∅). intros f byType t ps H.
  by rewrite lookup_empty in H.
Qed.

Lemma elem_of_alter {A} (f : A → A) (l : list A) p x :
  l !! p = Some x → f x ∈ alter f p l.
Proof.
  intros H. apply list_elem_of_lookup. exists p.
  by rewrite list_lookup_alter_eq, H.
Qed.

(** ** RelateNodeListAtID does not sanitise *)

(** When the anchor is a node, the call succeeds and every root id of [nl2]
    becomes a destination of an edge from the anchor of the given type. *)
Lemma RelateNodeListAtID_attaches nl nl2 nodeID edgeType :
  has_node nl nodeID →
  (RelateNodeListAtID nl nl2 nodeID edgeType).1 = None ∧
  ∀ d, d ∈ RootElements nl2 →
       has_dest (Edges (RelateNodeListAtID nl nl2 nodeID edgeType).2)
                nodeID edgeType d.
Proof.
  intros [p Hp]%indexNodes_is_Some. unfold RelateNodeListAtID. rewrite Hp.
  split; [done|]. intros d Hd. simpl.
  pose proof (indexEdges_sound nl) as Hs.
  destruct (indexEdges nl !! nodeID) as [byType|] eqn:Hf.
  - destruct (byType !! edgeType) as [ps|] eqn:Ht.
    + destruct (Hs _ _ _ _ Hf Ht) as [Hne Hps].
      destruct ps as [|q ps]; [done|]. simpl.
      destruct (Hps q) as (x & Hx & HF & HT); [by left|].
      exists (set_To x (To x ++ RootElements nl2)). split_and!; [|done..|].
      * by apply (elem_of_alter (λ e, set_To e (To e ++ RootElements nl2))).
      * simpl. apply elem_of_app. by right.
    + eexists. split; [apply elem_of_snoc; by right|done].
  - eexists. split; [apply elem_of_snoc; by right|done].
Qed.

End Indexes.

(** ** The edges of Intersect *)

Section IntersectEdges.
Context `{NA : NodeAPI} `{ET : EdgeTypeAPI}.
Implicit Types (e : Edge) (nl : NodeList) (ord : MapOrder).

Lemma Edge_Copy_id e : Edge_Copy e = e.
Proof. by destruct e. Qed.

Lemma copyEdgeList_id (l : list Edge) : copyEdgeList l = l.
Proof.
  unfold copyEdgeList.
  assert (∀ acc, foldl (λ nodeCopy e, nodeCopy ++ [Edge_Copy e]) acc l = acc ++ l)
    as H; [|apply H].
  induction l as [|e l IH]; intros acc; simpl; [by rewrite app_nil_r|].
  by rewrite IH, Edge_Copy_id, <- app_assoc.
Qed.

Lemma has_edge_app (l1 l2 : list Edge) f t :
  has_edge (l1 ++ l2) f t ↔ has_edge l1 f t ∨ has_edge l2 f t.
Proof.
  unfold has_edge. split.
  - intros (e & [?|?]%elem_of_app & ?); eauto.
  - intros [(e & ? & ?)|(e & ? & ?)]; exists e; rewrite elem_of_app; auto.
Qed.

Lemma has_edge_cons e (l : list Edge) f t :
  has_edge (e :: l) f t ↔ (From e = f ∧ Type_ e = t) ∨ has_edge l f t.
Proof.
  unfold has_edge. split.
  - intros (x & [->|?]%elem_of_cons & ?); eauto.
  - intros [?|(x & ? & ?)]; [exists e|exists x]; rewrite elem_of_cons; auto.
Qed.

Lemma has_dest_app (l1 l2 : list Edge) f t d :
  has_dest (l1 ++ l2) f t d ↔ has_dest l1 f t d ∨ has_dest l2 f t d.
Proof.
  unfold has_dest. split.
  - intros (e & [?|?]%elem_of_app & ?); eauto.
  - intros [(e & ? & ?)|(e & ? & ?)]; exists e; rewrite elem_of_app; auto.
Qed.

Lemma has_dest_cons e (l : list Edge) f t d :
  has_dest (e :: l) f t d ↔ (From e = f ∧ Type_ e = t ∧ d ∈ To e) ∨ has_dest l f t d.
Proof.
  unfold has_dest. split.
  - intros (x & [->|?]%elem_of_cons & ?); eauto.
  - intros [?|(x & ? & ?)]; [exists e|exists x]; rewrite elem_of_cons; auto.
Qed.

Lemma elem_of_option_list_Some {A} (o : option A) (x : A) :
  x ∈ option_list o ↔ o = Some x.
Proof.
  destruct o as [y|]; simpl.
  - rewrite list_elem_of_singleton. split; congruence.
  - rewrite elem_of_nil. split; [done|congruence].
Qed.

Lemma has_edge_nil f t : ¬ has_edge ([] : list Edge) f t.
Proof. intros (e & He & _). by apply elem_of_nil in He. Qed.

Lemma has_dest_nil f t d : ¬ has_dest ([] : list Edge) f t d.
Proof. intros (e & He & _). by apply elem_of_nil in He. Qed.

(** The destinations [Intersect] leaves in an existing edge. *)
Lemma Intersect_widen (to0 to2 : list string) d :
  d ∈ foldl (λ to t, if decide (t ∈ (list_to_set to0 : gset string))
                     then to else to ++ [t]) to0 to2
  ↔ d ∈ to0 ∨ d ∈ to2.
Proof.
  rewrite (foldl_keep_if (λ t, t ∈ (list_to_set to0 : gset string))).
  rewrite elem_of_app, list_elem_of_filter, elem_of_list_to_set.
  destruct (decide (d ∈ to0)); tauto.
Qed.

Lemma Intersect_edge_has_edge (E : list Edge) e f t :
  has_edge (Intersect_edge E e) f t ↔ has_edge E f t ∨ (From e = f ∧ Type_ e = t).
Proof.
  unfold Intersect_edge, GetEdgeByType.
  destruct (list_find _ E) as [[p ex]|] eqn:Hfind.
  - apply list_find_Some in Hfind as (Hp & [HF HT] & _).
    rewrite insert_take_drop by (by eapply lookup_lt_Some).
    rewrite <- (take_drop_middle E p ex Hp) at 3.
    rewrite !has_edge_app, !has_edge_cons. simpl. rewrite HF, HT.
    split; [tauto|]. intros [[?|[?|?]]|?]; tauto.
  - rewrite has_edge_app, has_edge_cons, Edge_Copy_id.
    pose proof (has_edge_nil f t). tauto.
Qed.

Lemma Intersect_edge_has_dest (E : list Edge) e f t d :
  has_dest (Intersect_edge E e) f t d ↔
  has_dest E f t d ∨ (From e = f ∧ Type_ e = t ∧ d ∈ To e).
Proof.
  unfold Intersect_edge, GetEdgeByType.
  destruct (list_find _ E) as [[p ex]|] eqn:Hfind.
  - apply list_find_Some in Hfind as (Hp & [HF HT] & _).
    rewrite insert_take_drop by (by eapply lookup_lt_Some).
    rewrite <- (take_drop_middle E p ex Hp) at 3.
    rewrite !has_dest_app, !has_dest_cons. simpl. rewrite Intersect_widen, HF, HT.
    split; [tauto|]. intros [[?|[?|?]]|?]; tauto.
  - rewrite has_dest_app, has_dest_cons, Edge_Copy_id.
    pose proof (has_dest_nil f t d). tauto.
Qed.

Lemma Intersect_edges_has_edge (E P : list Edge) f t :
  has_edge (foldl Intersect_edge E P) f t ↔ has_edge E f t ∨ has_edge P f t.
Proof.
  revert E. induction P as [|e P IH]; intros E; simpl.
  - pose proof (has_edge_nil f t). tauto.
  - rewrite IH, Intersect_edge_has_edge, has_edge_cons. tauto.
Qed.

Lemma Intersect_edges_has_dest (E P : list Edge) f t d :
  has_dest (foldl Intersect_edge E P) f t d ↔ has_dest E f t d ∨ has_dest P f t d.
Proof.
  revert E. induction P as [|e P IH]; intros E; simpl.
  - pose proof (has_dest_nil f t d). tauto.
  - rewrite IH, Intersect_edge_has_dest, has_dest_cons. tauto.
Qed.

(** Before sanitation the result of [Intersect] has the (origin, type)
    pairs and the destinations of both lists. *)
Lemma Intersect_merged_has_edge ord nl nl2 f t :
  has_edge (Edges (Intersect_merged ord nl nl2)) f t ↔
  has_edge (Edges nl) f t ∨ has_edge (Edges nl2) f t.
Proof.
  unfold Intersect_merged. simpl.
  by rewrite Intersect_edges_has_edge, copyEdgeList_id.
Qed.

Lemma Intersect_merged_has_dest ord nl nl2 f t d :
  has_dest (Edges (Intersect_merged ord nl nl2)) f t d ↔
  has_dest (Edges nl) f t d ∨ has_dest (Edges nl2) f t d.
Proof.
  unfold Intersect_merged. simpl.
  by rewrite Intersect_edges_has_dest, copyEdgeList_id.
Qed.

(** The edges of [Intersect] in terms of the nodes it returns. *)
Lemma Intersect_has_edge ord nl nl2 f t :
  has_edge (Edges (Intersect ord nl nl2)) f t ↔
  has_node (Intersect ord nl nl2) f ∧
  (has_edge (Edges nl) f t ∨ has_edge (Edges nl2) f t).
Proof.
  rewrite <- (Intersect_merged_has_edge ord).
  assert (∀ x, has_node (Intersect ord nl nl2) x ↔
               has_node (Intersect_merged ord nl nl2) x) as Hn.
  { intros x. unfold has_node, Intersect. by rewrite cleanEdges_Nodes. }
  rewrite Hn. unfold Intersect. split.
  - intros (e' & He' & <- & <-).
    destruct (cleanEdges_sound _ _ _ He') as (Hfrom & Hpair & _).
    split; [by apply indexNodes_is_Some|done].
  - intros [Hfrom (e & He & <- & <-)].
    destruct (cleanEdges_retains ord _ e He Hfrom) as (e' & He' & HF & HT & _).
    by exists e'.
Qed.

Lemma Intersect_dests ord nl nl2 e' d :
  e' ∈ Edges (Intersect ord nl nl2) →
  d ∈ To e' ↔
  has_node (Intersect ord nl nl2) d ∧
  (has_dest (Edges nl) (From e') (Type_ e') d ∨
   has_dest (Edges nl2) (From e') (Type_ e') d).
Proof.
  intros He'. rewrite <- (Intersect_merged_has_dest ord).
  unfold Intersect in *.
  destruct (cleanEdges_sound _ _ _ He') as (_ & _ & _ & Hto).
  unfold has_node. rewrite cleanEdges_Nodes, Hto, indexNodes_is_Some. done.
Qed.

(** The nodes of [Intersect], when cloning and overlaying keep the id. *)
Lemma Intersect_has_node ord nl nl2 x
    (Hid : ∀ n m : Node, Id m = Id n → Id (Update (Node_Copy n) m) = Id n) :
  has_node (Intersect ord nl nl2) x ↔ has_node nl x ∧ has_node nl2 x.
Proof.
  unfold has_node at 1, Intersect.
  rewrite cleanEdges_Nodes, Intersect_merged_Nodes, list_elem_of_fmap.
  pose proof (indexNodes_sound nl) as Hs1.
  pose proof (indexNodes_sound nl2) as Hs2.
  assert (∀ id n, Intersect_pick nl nl2 id = Some n →
                  Id n = id ∧ has_node nl id ∧ has_node nl2 id) as Hpick.
  { intros id n. unfold Intersect_pick, has_node.
    rewrite <- !indexNodes_is_Some.
    destruct (indexNodes nl2 !! id) as [p2|] eqn:H2; [|done].
    destruct (indexNodes nl !! id) as [p1|] eqn:H1; [|done]. simpl.
    destruct (Hs1 _ _ H1) as (n1 & Hn1 & Hid1).
    destruct (Hs2 _ _ H2) as (n2 & Hn2 & Hid2).
    rewrite Hn1, Hn2. intros [= <-]. split; [|eauto].
    rewrite Hid by congruence. done. }
  split.
  - intros (n & -> & (id & Hn & Hin)%list_elem_of_bind).
    apply elem_of_option_list_Some in Hn. apply Hpick in Hn as (-> & ? & ?). done.
  - intros [[p1 H1]%indexNodes_is_Some [p2 H2]%indexNodes_is_Some].
    destruct (Hs1 _ _ H1) as (n1 & Hn1 & Hid1).
    destruct (Hs2 _ _ H2) as (n2 & Hn2 & Hid2).
    assert (Intersect_pick nl nl2 x = Some (Update (Node_Copy n1) n2)) as Hp.
    { unfold Intersect_pick. rewrite H2, H1. simpl. by rewrite Hn1, Hn2. }
    exists (Update (Node_Copy n1) n2). split.
    + destruct (Hpick _ _ Hp) as [-> _]. done.
    + apply list_elem_of_bind. exists x. split.
      * by apply elem_of_option_list_Some.
      * apply elem_of_range. eauto.
Qed.

End IntersectEdges.

(** ** The nodes of Add and of GetNodesByPurlType *)

Section NodeShapes.
Context `{NA : NodeAPI} `{ET : EdgeTypeAPI}.
Implicit Types (nl : NodeList) (ord : MapOrder).

Lemma Add_node_foldl (idx : gmap string nat) (orig base ext l : list Node) :
  (∀ id p, idx !! id = Some p → p < length base) →
  Forall2 self_augmented orig base →
  ∃ base', Forall2 self_augmented orig base' ∧
           foldl (Add_node idx) (base ++ ext) l
           = base' ++ ext ++ filter (λ n, idx !! Id n = None) l.
Proof.
  intros Hidx. revert base ext Hidx.
  induction l as [|n l IH]; intros base ext Hidx Hbase; simpl.
  - exists base. by rewrite app_nil_r.
  - unfold Add_node at 2. destruct (idx !! Id n) as [p|] eqn:Hn.
    + rewrite alter_app_l by eauto.
      destruct (IH (alter (λ x, Augment x x) p base) ext) as (base' & H1 & H2).
      * intros id q Hq. rewrite length_alter. eauto.
      * apply Forall2_alter_r; [done|]. intros x y _ _ [k ->]. by exists (S k).
      * exists base'. split; [done|]. rewrite H2.
        rewrite filter_cons_False; [done|]. rewrite Hn. by intros ?.
    + rewrite <- app_assoc.
      destruct (IH base (ext ++ [n]) Hidx Hbase) as (base' & H1 & H2).
      exists base'. split; [done|]. rewrite H2.
      rewrite filter_cons_True by done. by rewrite <- app_assoc.
Qed.

(** The nodes [Add] leaves: the receiver's nodes, each gap-filled from
    itself some number of times, followed by the nodes of the argument
    whose id the receiver does not have.  No data of a matching node of the
    argument reaches the receiver. *)
Lemma Add_Nodes ord nl nl2 :
  ∃ own, Forall2 self_augmented (Nodes nl) own ∧
         Nodes (Add ord nl nl2)
         = own ++ filter (λ n, indexNodes nl !! Id n = None) (Nodes nl2).
Proof.
  unfold Add. rewrite cleanEdges_Nodes. simpl.
  destruct (Add_node_foldl (indexNodes nl) (Nodes nl) (Nodes nl) [] (Nodes nl2))
    as (own & H1 & H2).
  - intros id p Hp. destruct (indexNodes_sound nl _ _ Hp) as (n & Hn & _).
    by eapply lookup_lt_Some.
  - apply Forall2_same_length_lookup_2; [done|]. intros i x y ? ?.
    exists 0. simpl. congruence.
  - exists own. split; [done|]. rewrite app_nil_r in H2. by rewrite H2.
Qed.

(** The nodes [GetNodesByPurlType] selects. *)
Lemma GetNodesByPurlType_Nodes ord nl purlType :
  Nodes (GetNodesByPurlType ord (Some nl) purlType)
  = filter (λ n, HasPrefix (Purl n) ("pkg:" +:+ purlType +:+ "/")
                 || HasPrefix (Purl n) ("pkg:/" +:+ purlType +:+ "/"))
           (Nodes nl).
Proof.
  unfold GetNodesByPurlType. rewrite cleanEdges_Nodes. simpl.
  set (P := λ n : Node, HasPrefix (Purl n) ("pkg:" +:+ purlType +:+ "/")
                        || HasPrefix (Purl n) ("pkg:/" +:+ purlType +:+ "/")).
  assert (∀ acc, foldl (λ acc n, if P n then acc ++ [n] else acc) acc (Nodes nl)
                 = acc ++ filter (λ n, P n) (Nodes nl)) as H; [|apply (H [])].
  induction (Nodes nl) as [|n l IH]; intros acc; simpl.
  - by rewrite app_nil_r.
  - rewrite IH. destruct (P n) eqn:Hn.
    + rewrite filter_cons_True by (by rewrite Hn). by rewrite <- app_assoc.
    + rewrite filter_cons_False; [done|]. rewrite Hn. intros [].
Qed.

(** With the empty purl type every node whose package url starts with
    [pkg:/] is selected. *)
Lemma GetNodesByPurlType_blank_type_selects ord nl (n : Node) :
  n ∈ Nodes nl → HasPrefix (Purl n) "pkg:/" = true →
  n ∈ Nodes (GetNodesByPurlType ord (Some nl) "").
Proof.
  intros Hn Hp. rewrite GetNodesByPurlType_Nodes. apply list_elem_of_filter.
  split; [|done]. unfold HasPrefix in *.
  change ("pkg:" +:+ "" +:+ "/") with "pkg:/". by rewrite Hp.
Qed.

End NodeShapes.

(** ** Deciding the invariants *)

Section Deciding.
Context `{NA : NodeAPI} `{ET : EdgeTypeAPI}.
Implicit Types (e : Edge) (nl : NodeList).

Lemma edges_backed_Forall nl :
  edges_backed nl ↔
  Forall (λ e, has_node nl (From e) ∧ Forall (has_node nl) (To e)) (Edges nl).
Proof.
  unfold edges_backed. rewrite Forall_forall.
  split; intros H e He; destruct (H e He) as [? Hto]; (split; [done|]).
  - by apply Forall_forall.
  - by apply Forall_forall.
Qed.

Lemma edges_distinct_NoDup nl :
  edges_distinct nl ↔ NoDup ((λ e, (From e, Type_ e)) <$> Edges nl).
Proof.
  unfold edges_distinct. rewrite NoDup_alt. split.
  - intros H i j [f t]. rewrite !list_lookup_fmap.
    destruct (Edges nl !! i) as [e1|] eqn:H1; [|done].
    destruct (Edges nl !! j) as [e2|] eqn:H2; [|done].
    simpl. intros [= <- <-] [= HF HT]. by apply (H i j e1 e2).
  - intros H i j e1 e2 H1 H2 HF HT. apply (H i j (From e1, Type_ e1)).
    + by rewrite list_lookup_fmap, H1.
    + by rewrite list_lookup_fmap, H2, HF, HT.
Qed.

Lemma dests_deduplicated_Forall nl :
  dests_deduplicated nl ↔ Forall (λ e, NoDup (To e)) (Edges nl).
Proof. unfold dests_deduplicated. by rewrite Forall_forall. Qed.

Global Instance has_node_dec nl id : Decision (has_node nl id).
Proof. unfold has_node. apply _. Defined.

Global Instance edges_backed_dec nl : Decision (edges_backed nl).
Proof.
  refine (cast_if (decide (Forall (λ e, has_node nl (From e) ∧
                                        Forall (has_node nl) (To e)) (Edges nl))));
    by rewrite edges_backed_Forall.
Defined.

Global Instance edges_distinct_dec nl : Decision (edges_distinct nl).
Proof.
  refine (cast_if (decide (NoDup ((λ e, (From e, Type_ e)) <$> Edges nl))));
    by rewrite edges_distinct_NoDup.
Defined.

Global Instance dests_deduplicated_dec nl : Decision (dests_deduplicated nl).
Proof.
  refine (cast_if (decide (Forall (λ e, NoDup (To e)) (Edges nl))));
    by rewrite dests_deduplicated_Forall.
Defined.

Global Instance sanitised_dec nl : Decision (sanitised nl).
Proof. unfold sanitised. apply _. Defined.

End Deciding.

(** ** Sanitation of a list without edges *)

Section NoEdges.
Context `{NA : NodeAPI} `{ET : EdgeTypeAPI}.

Lemma cleanEdges_no_edges (ord : MapOrder) (nl : NodeList) :
  Edges nl = [] → cleanEdges ord nl = nl.
Proof.
  intros HE. unfold cleanEdges. rewrite HE. simpl. unfold range.
  rewrite map_to_list_empty. simpl.
  rewrite (proj1 (Permutation_nil_r _) (range_keys_perm ord range_seenCache [])).
  destruct nl; simpl in *. by subst.
Qed.

End NoEdges.

(** * The claims *)

Section Claims.
Context `{NA : NodeAPI} `{ET : EdgeTypeAPI}.
Implicit Types (e : Edge) (nl : NodeList) (ord : MapOrder).

(** C2.  Whatever the two NodeLists and the iteration order of the maps,
    the NodeList that Add, Union, Intersect, RemoveNodes and
    GetNodesByPurlType produce has no dangling edge (origin and every
    destination are ids of nodes of the result) and no two edges with the
    same (origin, type) pair. *)
Theorem results_have_backed_distinct_edges ord nl nl2 ids onl purlType :
  (edges_backed (Add ord nl nl2) ∧ edges_distinct (Add ord nl nl2)) ∧
  (edges_backed (Union ord nl nl2) ∧ edges_distinct (Union ord nl nl2)) ∧
  (edges_backed (Intersect ord nl nl2) ∧ edges_distinct (Intersect ord nl nl2)) ∧
  (edges_backed (RemoveNodes ord nl ids) ∧ edges_distinct (RemoveNodes ord nl ids)) ∧
  (edges_backed (GetNodesByPurlType ord onl purlType) ∧
   edges_distinct (GetNodesByPurlType ord onl purlType)).
Proof.
  pose proof (Add_invariants ord nl nl2) as (? & ? & _).
  pose proof (Union_invariants ord nl nl2) as (? & ? & _).
  pose proof (Intersect_invariants ord nl nl2) as (? & ? & _).
  pose proof (RemoveNodes_invariants ord nl ids) as (? & ? & _).
  pose proof (GetNodesByPurlType_invariants ord onl purlType) as (? & ? & _).
  done.
Qed.

(** C7.  Edge sanitation is idempotent: whatever order the maps are ranged
    over in either pass, a second [cleanEdges] leaves the set of
    (origin, type, destination-set) triples of the first pass unchanged. *)
Theorem cleanEdges_idempotent ord1 ord2 nl :
  edge_set (cleanEdges ord2 (cleanEdges ord1 nl)) = edge_set (cleanEdges ord1 nl).
Proof.
  apply set_eq. intros t. unfold edge_set.
  rewrite !elem_of_list_to_set, !list_elem_of_fmap. split.
  - intros (e2 & -> & H2).
    destruct (cleanEdges_sound _ _ _ H2) as (_ & (e1 & H1 & HF & HT) & _).
    exists e1. split; [|done]. by apply (cleanEdges_again_dests ord1 ord2 nl).
  - intros (e1 & -> & H1).
    destruct (cleanEdges_sound _ _ _ H1) as (Hfrom & _).
    destruct (cleanEdges_complete ord2 (cleanEdges ord1 nl) e1 H1)
      as (e2 & H2 & HF & HT); [by rewrite cleanEdges_indexNodes|].
    exists e2. split; [|done]. symmetry.
    by apply (cleanEdges_again_dests ord1 ord2 nl).
Qed.

(** C10 (as amended).  Sanitation never deletes an edge because its
    destinations are gone: an edge whose origin is a node and none of whose
    destinations is a node is retained as the edge of its (origin, type)
    pair.  The destinations of the retained edge are the backed destinations
    of all edges of that pair (none of them a destination of the edge
    itself), so its destination list is empty when no edge of the pair has a
    backed destination.  Hence RemoveNodes, which ends in sanitation,
    returns an edge with zero destinations whenever all destinations of a
    pair are removed and the origin is not. *)
Theorem cleanEdges_retains_edge_without_destinations ord nl e
    (He : e ∈ Edges nl) (Hfrom : has_node nl (From e))
    (Hgone : ∀ d, d ∈ To e → ¬ has_node nl d) :
  (∃ e', e' ∈ Edges (cleanEdges ord nl) ∧ From e' = From e ∧ Type_ e' = Type_ e ∧
         (∀ d, d ∈ To e' ↔
               has_node nl d ∧ has_dest (Edges nl) (From e) (Type_ e) d) ∧
         (∀ d, d ∈ To e' → d ∉ To e) ∧
         ((∀ d, has_dest (Edges nl) (From e) (Type_ e) d → ¬ has_node nl d) →
          To e' = [])) ∧
  (∀ nl0 ids e0,
     e0 ∈ Edges nl0 → has_node nl0 (From e0) → From e0 ∉ ids →
     (∀ d, has_dest (Edges nl0) (From e0) (Type_ e0) d → d ∈ ids) →
     ∃ e', e' ∈ Edges (RemoveNodes ord nl0 ids) ∧
           From e' = From e0 ∧ Type_ e' = Type_ e0 ∧ To e' = []).
Proof.
  split.
  - destruct (cleanEdges_retains ord nl e He Hfrom) as (e' & He' & HF & HT & Hto).
    exists e'. split_and!; [done..| |].
    + intros d [Hd _]%Hto Hin. by apply (Hgone d).
    + intros Hnone. apply nil_iff_no_elem. intros d [Hd Hdest]%Hto.
      by apply (Hnone d).
  - clear. intros nl ids e He Hfrom Hkeep Hall.
    assert (∀ x, has_node (RemoveNodes_filtered nl ids) x ↔ has_node nl x ∧ x ∉ ids)
      as Hnode.
    { intros x. rewrite <- (RemoveNodes_has_node ord). unfold has_node, RemoveNodes.
      by rewrite cleanEdges_Nodes. }
    destruct (cleanEdges_retains ord (RemoveNodes_filtered nl ids) e)
      as (e' & He' & HF & HT & Hto); [done|by apply Hnode|].
    exists e'. split_and!; [done..|].
    apply nil_iff_no_elem. intros d [[_ Hd]%Hnode Hdest]%Hto.
    by apply Hd, Hall.
Qed.

(** C6 (as amended).  [RelateNodeListAtID] on lists that are not nil
    returns an error exactly when [nodeID] is not the id of a node of the
    receiver; the error says so and the receiver is left as it was.  Of the
    calls that return, only a [RelateNodeListAtID] whose receiver lacks the
    anchor returns an error, whether its argument is nil or not, and it
    leaves the receiver as it was.  A call can fail otherwise, by a panic on
    a nil NodeList: on a nil receiver every call panics but
    [GetNodesByPurlType] and [Equal] with a nil argument; on a receiver that
    is not nil, [Add], [Intersect] and [Union] panic on a nil argument, and
    so does [RelateNodeListAtID] when the anchor is a node; no other call
    panics.  So with a receiver and arguments that are not nil, a call fails
    exactly when it is a [RelateNodeListAtID] whose receiver lacks the
    anchor. *)
Theorem RelateNodeListAtID_fails_iff_anchor_missing nl nl2 nodeID edgeType :
  (is_Some (RelateNodeListAtID nl nl2 nodeID edgeType).1 ↔ ¬ has_node nl nodeID) ∧
  (¬ has_node nl nodeID →
   RelateNodeListAtID nl nl2 nodeID edgeType
   = (Some ("node with ID " +:+ nodeID +:+ " not found"), nl)) ∧
  (∀ flatString ord c onl err onl',
     run_call flatString ord c onl = Ok (err, onl') →
     (is_Some err ↔
      ∃ onl2 id t nl0, c = CallRelateNodeListAtID onl2 id t ∧ onl = Some nl0 ∧
                       ¬ has_node nl0 id) ∧
     (is_Some err → onl' = onl)) ∧
  (∀ flatString ord c onl,
     run_call flatString ord c onl = Panic ↔
     (onl = None ∧ (∀ purlType, c ≠ CallGetNodesByPurlType purlType) ∧
      c ≠ CallEqual None) ∨
     (∃ nl0, onl = Some nl0 ∧
             (c = CallAdd None ∨ c = CallIntersect None ∨ c = CallUnion None ∨
              ∃ id t, c = CallRelateNodeListAtID None id t ∧ has_node nl0 id))) ∧
  (∀ flatString ord c nl0,
     c ≠ CallAdd None → c ≠ CallIntersect None → c ≠ CallUnion None →
     (∀ id t, c ≠ CallRelateNodeListAtID None id t) →
     (call_fails flatString ord c (Some nl0) ↔
      ∃ onl2 id t, c = CallRelateNodeListAtID onl2 id t ∧ ¬ has_node nl0 id)).
Proof.
  assert (∀ nl nl2 nodeID edgeType,
    is_Some (RelateNodeListAtID nl nl2 nodeID edgeType).1 ↔ ¬ has_node nl nodeID)
    as Hiff.
  { clear. intros nl nl2 nodeID edgeType. unfold RelateNodeListAtID, has_node.
    rewrite <- indexNodes_is_Some.
    destruct (indexNodes nl !! nodeID) eqn:Hidx; simpl.
    - split; [by intros [? ?]|]. intros H. destruct H. eauto.
    - split; [|eauto]. intros _ [? ?]. done. }
  assert (∀ flatString ord c onl err onl',
    run_call flatString ord c onl = Ok (err, onl') →
    (is_Some err ↔
     ∃ onl2 id t nl0, c = CallRelateNodeListAtID onl2 id t ∧ onl = Some nl0 ∧
                      ¬ has_node nl0 id) ∧
    (is_Some err → onl' = onl)) as Hret.
  { clear -Hiff. intros flatString ord c onl err onl' Hrun.
    assert (err = None →
            (is_Some err ↔
             ∃ onl2 id t nl0, c = CallRelateNodeListAtID onl2 id t ∧
                              onl = Some nl0 ∧ ¬ has_node nl0 id) ∧
            (is_Some err → onl' = onl) ∨ ∃ onl2 id t, c = CallRelateNodeListAtID onl2 id t)
      as Hnone.
    { intros ->. destruct c; try (right; by eauto); left;
        (split; [|by intros [? ?]]); (split; [by intros [? ?]|]);
        intros (? & ? & ? & ? & Hc & _); discriminate Hc. }
    destruct c as [e|n|onl2|ids|f t|onl2|onl2|name|id|t v| |onl2|onl2 id t|purlType];
      destruct onl as [nl0|]; try destruct onl2 as [nl2'|];
      try discriminate Hrun;
      try (injection Hrun as <- <-; by destruct (Hnone eq_refl) as [?|(? & ? & ? & ?)]).
    - unfold run_call in Hrun. simpl in Hrun.
      destruct (indexNodes nl0 !! id) as [p|] eqn:Hidx; simpl in Hrun.
      + injection Hrun as <- <-.
        assert (has_node nl0 id) as Hn by (apply indexNodes_is_Some; eauto).
        assert ((RelateNodeListAtID nl0 nl2' id t).1 = None) as ->.
        { destruct (RelateNodeListAtID nl0 nl2' id t).1 eqn:He; [|done].
          destruct (proj1 (Hiff nl0 nl2' id t)); [by rewrite He|done]. }
        split; [|by intros [? ?]]. split; [by intros [? ?]|].
        intros (? & ? & ? & ? & Hc & Ho & Hno). injection Hc as _ -> _.
        injection Ho as <-. done.
      + injection Hrun as <- <-. split; [|done]. split; [|eauto]. intros _.
        exists (Some nl2'), id, t, nl0. split_and!; [done..|].
        intros [? ?]%indexNodes_is_Some. congruence.
    - unfold run_call in Hrun. simpl in Hrun.
      destruct (indexNodes nl0 !! id) as [p|] eqn:Hidx; simpl in Hrun;
        [discriminate Hrun|].
      injection Hrun as <- <-. split; [|done]. split; [|eauto]. intros _.
      exists None, id, t, nl0. split_and!; [done..|].
      intros [? ?]%indexNodes_is_Some. congruence. }
  assert (∀ flatString ord c onl,
    run_call flatString ord c onl = Panic ↔
    (onl = None ∧ (∀ purlType, c ≠ CallGetNodesByPurlType purlType) ∧
     c ≠ CallEqual None) ∨
    (∃ nl0, onl = Some nl0 ∧
            (c = CallAdd None ∨ c = CallIntersect None ∨ c = CallUnion None ∨
             ∃ id t, c = CallRelateNodeListAtID None id t ∧ has_node nl0 id)))
    as Hpanic.
  { clear. intros flatString ord c onl. split.
    - intros Hrun.
      destruct c as [e|n|onl2|ids|f t|onl2|onl2|name|id|t v| |onl2|onl2 id t|purlType];
        destruct onl as [nl0|]; try destruct onl2 as [nl2'|];
        try discriminate Hrun;
        try (left; split_and!; [done|intros ?; discriminate|discriminate]);
        try (right; exists nl0; split; [done|]; by eauto).
      + unfold run_call in Hrun. simpl in Hrun.
        destruct (indexNodes nl0 !! id); discriminate Hrun.
      + right. exists nl0. split; [done|]. do 3 right. exists id, t.
        split; [done|]. unfold run_call in Hrun. simpl in Hrun.
        destruct (indexNodes nl0 !! id) as [p|] eqn:Hidx; [|discriminate Hrun].
        apply indexNodes_is_Some. eauto.
    - intros [(-> & Hp & He)|(nl0 & -> & [->|[->|[->|(id & t & -> & Hn)]]])];
        try reflexivity.
      + destruct c as [e|n|onl2|ids|f t|onl2|onl2|name|id|t v| |[nl2'|]|onl2 id t|purlType];
          try reflexivity.
        * by destruct He.
        * by destruct (Hp purlType).
      + unfold run_call. simpl.
        apply indexNodes_is_Some in Hn as [p ->]. reflexivity. }
  split_and!; [apply Hiff| |exact Hret|exact Hpanic|].
  - unfold RelateNodeListAtID, has_node. rewrite <- indexNodes_is_Some.
    destruct (indexNodes nl !! nodeID); [|done]. intros H. destruct H. eauto.
  - intros flatString ord c nl0 HA HI HU HR. unfold call_fails. split.
    + intros [Hp|(err & onl' & Hrun)].
      * apply Hpanic in Hp as [(Hnil & _)|(? & Hs & [->|[->|[->|(id & t & -> & _)]]])];
          [discriminate Hnil|done..|by destruct (HR id t)].
      * destruct (Hret _ _ _ _ _ _ Hrun) as [Herr _].
        destruct (proj1 Herr) as (onl2 & id & t & ? & -> & Hs & Hn); [eauto|].
        injection Hs as <-. eauto.
    + intros (onl2 & id & t & -> & Hn). right.
      exists ("node with ID " +:+ id +:+ " not found"), (Some nl0).
      unfold run_call. simpl.
      destruct (indexNodes nl0 !! id) as [p|] eqn:Hidx; [|done].
      destruct Hn. apply indexNodes_is_Some. eauto.
Qed.

(** C8 (as amended).  [Equal] on two NodeLists that are not nil: when the
    edge, node or root-id counts differ it answers false and leaves both
    arguments as they were; when the counts agree it sorts the root-id slice
    of both arguments in place.  It never reorders an edge slice (the sort
    is applied to a fresh slice of flattened strings): each edge stays in
    its place, as it was or as its own flattening left it.  The nodes are
    never changed. *)
Theorem Equal_effects (flatString : Edge → string * Edge) nl nl2 :
  ∃ verdict nl' nl2',
    Equal flatString nl (Some nl2) = (verdict, nl', Some nl2') ∧
    Nodes nl' = Nodes nl ∧ Nodes nl2' = Nodes nl2 ∧
    Forall2 (λ e e', e' = e ∨ e' = (flatString e).2) (Edges nl) (Edges nl') ∧
    Forall2 (λ e e', e' = e ∨ e' = (flatString e).2) (Edges nl2) (Edges nl2') ∧
    (¬ counts_agree nl nl2 → verdict = false ∧ nl' = nl ∧ nl2' = nl2) ∧
    (counts_agree nl nl2 →
     RootElements nl' = sort_Strings (RootElements nl) ∧
     RootElements nl2' = sort_Strings (RootElements nl2) ∧
     StronglySorted String.le (RootElements nl') ∧
     StronglySorted String.le (RootElements nl2') ∧
     RootElements nl' ≡ₚ RootElements nl ∧
     RootElements nl2' ≡ₚ RootElements nl2).
Proof.
  assert (∀ es : list Edge, Forall2 (λ e e', e' = e ∨ e' = (flatString e).2) es es)
    as Hsame by (intros es; apply Forall2_same_length_lookup_2; [done|];
                 intros i x y ? ?; left; congruence).
  assert (∀ es : list Edge,
    Forall2 (λ e e', e' = e ∨ e' = (flatString e).2) es
            ((λ e, (flatString e).2) <$> es)) as Hflat.
  { intros es. induction es; constructor; auto. }
  unfold Equal. case_bool_decide as Hlen.
  - exists false, nl, nl2. split_and!; try done.
    intros (? & ? & ?). destruct Hlen as [?|[?|?]]; done.
  - assert (counts_agree nl nl2) as Hagree.
    { unfold counts_agree.
      destruct (decide (length (Edges nl) = length (Edges nl2))); [|tauto].
      destruct (decide (length (Nodes nl) = length (Nodes nl2))); [|tauto].
      destruct (decide (length (RootElements nl) = length (RootElements nl2)));
        tauto. }
    pose proof (sort_Strings_sorted (RootElements nl)).
    pose proof (sort_Strings_sorted (RootElements nl2)).
    pose proof (sort_Strings_Permutation (RootElements nl)).
    pose proof (sort_Strings_Permutation (RootElements nl2)).
    case_bool_decide; [eexists _, _, _; split_and!; done|].
    simpl. case_bool_decide; [eexists _, _, _; split_and!; done|].
    case_bool_decide; eexists _, _, _; split_and!; done.
Qed.

(** C3 (as amended).  [Intersect] merges the edges of both lists per
    (origin, type) pair: the receiver's edges are copied, an edge of the
    argument widens the first edge of its pair if the result has one and is
    appended as a copy otherwise, and sanitation keeps what lies within the
    common nodes.  With a clone and an overlay that keep the id of a node:
    the result has an edge of a pair exactly when one of the lists has one
    and the origin is a node of both lists; its destinations are those the
    edges of the pair have in either list and that are nodes of both; so a
    pair that only the argument has yields an edge exactly when its origin
    is common to both lists. *)
Theorem Intersect_edges_of_both_lists ord nl nl2
    (Hid : ∀ n m : Node, Id m = Id n → Id (Update (Node_Copy n) m) = Id n) :
  (∀ f t, has_edge (Edges (Intersect ord nl nl2)) f t ↔
          (has_node nl f ∧ has_node nl2 f) ∧
          (has_edge (Edges nl) f t ∨ has_edge (Edges nl2) f t)) ∧
  (∀ e' d, e' ∈ Edges (Intersect ord nl nl2) →
           d ∈ To e' ↔
           (has_node nl d ∧ has_node nl2 d) ∧
           (has_dest (Edges nl) (From e') (Type_ e') d ∨
            has_dest (Edges nl2) (From e') (Type_ e') d)) ∧
  (∀ f t, has_edge (Edges nl2) f t → ¬ has_edge (Edges nl) f t →
          (has_edge (Edges (Intersect ord nl nl2)) f t ↔
           has_node nl f ∧ has_node nl2 f)).
Proof.
  assert (∀ f t, has_edge (Edges (Intersect ord nl nl2)) f t ↔
                 (has_node nl f ∧ has_node nl2 f) ∧
                 (has_edge (Edges nl) f t ∨ has_edge (Edges nl2) f t)) as Hedge.
  { intros f t. by rewrite Intersect_has_edge, Intersect_has_node. }
  split_and!; [done| |].
  - intros e' d He'. by rewrite Intersect_dests, Intersect_has_node.
  - intros f t H2 H1. rewrite Hedge. tauto.
Qed.

(** C5 (as amended).  Add, Union, Intersect, RemoveNodes and
    GetNodesByPurlType sanitise the edges as their last step on nodes and
    edges (Union merges root ids afterwards), so the NodeList they leave or
    return has no dangling edge, no two edges of one (origin, type) pair and
    no repeated destination.  AddNode and AddEdge only append what they are
    given, and RelateNodeListAtID, when its anchor is a node, makes every
    root id of the argument a destination of an edge from the anchor,
    whether a node backs it or not: these three run no sanitation. *)
Theorem sanitising_operations_restore_invariants ord nl nl2 ids onl purlType :
  sanitised (Add ord nl nl2) ∧
  sanitised (Union ord nl nl2) ∧
  sanitised (Intersect ord nl nl2) ∧
  sanitised (RemoveNodes ord nl ids) ∧
  sanitised (GetNodesByPurlType ord onl purlType) ∧
  (∀ e, Edges (AddEdge nl e) = Edges nl ++ [e] ∧ Nodes (AddEdge nl e) = Nodes nl) ∧
  (∀ n, Nodes (AddNode nl n) = Nodes nl ++ [n] ∧ Edges (AddNode nl n) = Edges nl) ∧
  (∀ nodeID edgeType,
     has_node nl nodeID →
     (RelateNodeListAtID nl nl2 nodeID edgeType).1 = None ∧
     ∀ d, d ∈ RootElements nl2 →
          has_dest (Edges (RelateNodeListAtID nl nl2 nodeID edgeType).2)
                   nodeID edgeType d).
Proof.
  split_and!.
  - apply Add_invariants.
  - apply Union_invariants.
  - apply Intersect_invariants.
  - apply RemoveNodes_invariants.
  - apply GetNodesByPurlType_invariants.
  - done.
  - done.
  - intros. by apply RelateNodeListAtID_attaches.
Qed.

End Claims.

(** ** The scenario of the spec *)

Section ScenarioClaims.
Context `{NA : NodeAPI}.
#[local] Existing Instance EdgeKind_API.
Context (na nb nb2 nc : Node).
Context (Ha : Id na = "a") (Hb : Id nb = "b") (Hb2 : Id nb2 = "b")
        (Hc : Id nc = "c").
Context (HCopy : ∀ n : Node, Id (Node_Copy n) = Id n).
Context (HUpdate : ∀ n m : Node, Id m = Id n → Id (Update n m) = Id n).

Lemma scenario_merged_b_Id : Id (Update (Node_Copy nb) nb2) = "b".
Proof using Hb Hb2 HCopy HUpdate. rewrite HUpdate; rewrite HCopy; congruence. Qed.

Lemma scenario_Union_merged :
  Union_merged (scenario_A na nb) (scenario_B nb2 nc)
  = {| Nodes := [Node_Copy na; Update (Node_Copy nb) nb2; nc];
       Edges := [depends "a" ["b"]; depends "b" ["c"]];
       RootElements := ["a"] |}.
Proof using Ha Hb Hb2 Hc HCopy.
  unfold Union_merged. f_equal.
  simpl. unfold indexNodes. simpl. unfold indexNodes_step, Union_node.
  rewrite !HCopy, Ha, Hb, Hb2, Hc. vm_compute. reflexivity.
Qed.

Lemma scenario_Union_idOrder :
  Union idOrder (scenario_A na nb) (scenario_B nb2 nc)
  = {| Nodes := [Node_Copy na; Update (Node_Copy nb) nb2; nc];
       Edges := [depends "a" ["b"]; depends "b" ["c"]];
       RootElements := ["a"; "b"] |}.
Proof using Ha Hb Hb2 Hc HCopy HUpdate.
  unfold Union. rewrite scenario_Union_merged.
  unfold cleanEdges, indexNodes. simpl Nodes. simpl indexNodes_from.
  unfold indexNodes_step. rewrite scenario_merged_b_Id, HCopy, Ha, Hc.
  vm_compute. reflexivity.
Qed.

Lemma scenario_Intersect_merged :
  Intersect_merged idOrder (scenario_A na nb) (scenario_B nb2 nc)
  = {| Nodes := [Update (Node_Copy nb) nb2];
       Edges := [depends "a" ["b"]; depends "b" ["c"]];
       RootElements := ["b"] |}.
Proof using Ha Hb Hb2 Hc.
  unfold Intersect_merged.
  assert (indexNodes (scenario_A na nb) = <["b" := 1]> (<["a" := 0]> ∅)) as ->.
  { unfold indexNodes. simpl. unfold indexNodes_step. by rewrite Ha, Hb. }
  assert (indexNodes (scenario_B nb2 nc) = <["c" := 1]> (<["b" := 0]> ∅)) as ->.
  { unfold indexNodes. simpl. unfold indexNodes_step. by rewrite Hb2, Hc. }
  vm_compute. reflexivity.
Qed.

Lemma scenario_Intersect_idOrder :
  Intersect idOrder (scenario_A na nb) (scenario_B nb2 nc)
  = {| Nodes := [Update (Node_Copy nb) nb2];
       Edges := [depends "b" []]; RootElements := ["b"] |}.
Proof using Ha Hb Hb2 Hc HCopy HUpdate.
  unfold Intersect. rewrite scenario_Intersect_merged.
  unfold cleanEdges, indexNodes. simpl Nodes. simpl indexNodes_from.
  unfold indexNodes_step. rewrite scenario_merged_b_Id.
  vm_compute. reflexivity.
Qed.

(** C4 (as amended).  For the scenario A = {nodes a (root), b; edge a→b of
    type dependsOn} and B = {nodes b, c; edge b→c of type dependsOn; root b},
    whatever the nodes are besides their ids (the clone and the overlay
    keeping the id) and whatever the iteration order of the maps:
    Union(A,B) has exactly the nodes a, b, c (b overlaid with B's b), the
    edges a→b and b→c, and the roots a, b; Intersect(A,B) has exactly the
    node b (the overlay of A's b with B's b) and the root b, and exactly one
    edge: the edge from b of type dependsOn with no destination, which B's
    edge b→c becomes when c is dropped. *)
Theorem scenario_Union_Intersect (ord : MapOrder) :
  (Nodes (Union ord (scenario_A na nb) (scenario_B nb2 nc))
   = [Node_Copy na; Update (Node_Copy nb) nb2; nc] ∧
   Edges (Union ord (scenario_A na nb) (scenario_B nb2 nc))
   ≡ₚ [depends "a" ["b"]; depends "b" ["c"]] ∧
   RootElements (Union ord (scenario_A na nb) (scenario_B nb2 nc)) = ["a"; "b"]) ∧
  (Nodes (Intersect ord (scenario_A na nb) (scenario_B nb2 nc))
   = [Update (Node_Copy nb) nb2] ∧
   Edges (Intersect ord (scenario_A na nb) (scenario_B nb2 nc))
   = [depends "b" []] ∧
   RootElements (Intersect ord (scenario_A na nb) (scenario_B nb2 nc)) = ["b"]).
Proof using Ha Hb Hb2 Hc HCopy HUpdate.
  split.
  - pose proof (Union_order ord idOrder (scenario_A na nb) (scenario_B nb2 nc))
      as (HN & HR & HE).
    rewrite scenario_Union_idOrder in HN, HR, HE. simpl in HN, HR, HE.
    split; [exact HN|]. split; [|exact HR].
    apply edge_lists_equiv_short; [exact HE|]. repeat constructor.
  - pose proof (Intersect_order ord idOrder (scenario_A na nb) (scenario_B nb2 nc))
      as (HN & HR & HE).
    rewrite scenario_Intersect_idOrder in HN, HR, HE. simpl in HN, HR, HE.
    split; [|split].
    + apply Permutation_singleton_r in HN. exact HN.
    + apply edge_lists_equiv_short in HE; [|repeat constructor].
      apply Permutation_singleton_r in HE. exact HE.
    + apply Permutation_singleton_r in HR. exact HR.
Qed.

End ScenarioClaims.

(** ** The claims that speak of concrete inputs *)

Section ConcreteClaims.
#[local] Existing Instance SNode_API.
#[local] Existing Instance EdgeKind_API.

(** The clone and the overlay of the concrete node keep its id. *)
Lemma SNode_Update_keeps_Id (n m : SNode) :
  sn_id m = sn_id n → sn_id (SNode_Update n m) = sn_id n.
Proof.
  intros H. simpl. unfold overlay_string. by case_decide.
Qed.

(** The order of the edges of a result follows the iteration order of the
    maps: the scenario's Union under the two orders. *)
Lemma scenario_Union_edge_order :
  Edges (Union idOrder bare_A bare_B) = [depends "a" ["b"]; depends "b" ["c"]] ∧
  Edges (Union revOrder bare_A bare_B) = [depends "b" ["c"]; depends "a" ["b"]].
Proof. split; vm_compute; reflexivity. Qed.

(** The invariants, decided on the scenario: they hold of its Union and
    fail of A with a dangling edge added. *)
Lemma scenario_invariants_decided :
  bool_decide (sanitised (Union idOrder bare_A bare_B)) = true ∧
  bool_decide (sanitised (AddEdge bare_A (depends "b" ["z"]))) = false.
Proof. split; vm_compute; reflexivity. Qed.

(** The scenario's Intersect over bare nodes does return an edge. *)
Lemma scenario_Intersect_has_an_edge :
  Edges (Intersect idOrder bare_A bare_B) ≠ [].
Proof.
  assert (Edges (Intersect idOrder bare_A bare_B) = [depends "b" []]) as ->
    by (vm_compute; reflexivity).
  done.
Qed.

(** An instance of C4: the scenario over bare nodes. *)
Lemma scenario_Union_Intersect_witness :
  Nodes (Union idOrder bare_A bare_B) = [bare "a"; bare "b"; bare "c"] ∧
  Edges (Intersect idOrder bare_A bare_B) = [depends "b" []].
Proof.
  destruct (scenario_Union_Intersect (NA := SNode_API)
              (bare "a") (bare "b") (bare "b") (bare "c")
              eq_refl eq_refl eq_refl eq_refl
              (λ n, eq_refl) SNode_Update_keeps_Id idOrder)
    as [(HN & _ & _) (_ & HE & _)].
  split; [exact HN|exact HE].
Defined.

(** C1.  [Add] on a receiver that knows node b by id only and an argument
    whose node b has a name: the receiver's node b is left without a name,
    although the gap-fill of the receiver's node from the argument's node
    has the name.  The receiver's node is augmented with itself. *)
Theorem Add_augments_matching_node_with_itself (ord : MapOrder) :
  Nodes (Add ord unnamed_b named_b) = [Augment (bare "b") (bare "b")] ∧
  Nodes (Add ord unnamed_b named_b) = [bare "b"] ∧
  Augment (bare "b") (named "b" "libc") = named "b" "libc" ∧
  Nodes (Add ord unnamed_b named_b) ≠ [Augment (bare "b") (named "b" "libc")].
Proof.
  unfold Add. rewrite cleanEdges_Nodes. by vm_compute.
Qed.

(** C9.  [GetNodesByPurlType] with the empty purl type on a receiver whose
    node has the package url [pkg:/deb/x@1] returns that node (and makes it
    a root): the result is not empty.  On a nil receiver the result is
    empty. *)
Theorem GetNodesByPurlType_blank_type_keeps_slash_purls (ord : MapOrder) :
  GetNodesByPurlType ord (Some slash_purl_list) ""
  = {| Nodes := [slash_purl_node]; Edges := []; RootElements := ["x"] |} ∧
  (∀ purlType, GetNodesByPurlType ord None purlType = empty_NodeList).
Proof.
  split; [|done]. unfold GetNodesByPurlType.
  rewrite cleanEdges_no_edges; by vm_compute.
Qed.

(** [Add] with a nil argument on a receiver that is not nil panics: a call
    other than [RelateNodeListAtID] fails. *)
Lemma Add_nil_argument_panics :
  run_call pure_flatString idOrder (CallAdd None) (Some ab_no_edges) = Panic ∧
  ¬ only_missing_anchor_fails pure_flatString idOrder.
Proof.
  split; [reflexivity|]. intros H.
  destruct (H (CallAdd None) (Some ab_no_edges))
    as (onl2 & nodeID & edgeType & nl & Hc & _).
  - left. reflexivity.
  - discriminate Hc.
Qed.

(** [Intersect] of a list without edges with a list that has the edge a→b
    over the same nodes returns the edge a→b. *)
Lemma Intersect_introduces_edge_of_argument :
  ¬ Intersect_never_introduces idOrder ab_no_edges ab_one_edge.
Proof.
  intros H. apply (H "a" dependsOn).
  - exists (depends "a" ["b"]). split; [by left|done].
  - intros (e & He & _). by apply elem_of_nil in He.
  - exists (depends "a" ["b"]). split; [|done].
    assert (Edges (Intersect idOrder ab_no_edges ab_one_edge) = [depends "a" ["b"]])
      as -> by (vm_compute; reflexivity).
    by left.
Qed.

(** [AddEdge] leaves the edge it is given dangling. *)
Lemma AddEdge_leaves_dangling_edge :
  ¬ (edges_backed (AddEdge empty_NodeList (depends "a" ["b"])) ∧
     edges_distinct (AddEdge empty_NodeList (depends "a" ["b"])) ∧
     dests_deduplicated (AddEdge empty_NodeList (depends "a" ["b"]))).
Proof.
  intros [H _]. destruct (H (depends "a" ["b"])) as [Hfrom _]; [by left|].
  by apply elem_of_nil in Hfrom.
Qed.

(** [Equal] on lists with different root counts sorts nothing. *)
Lemma Equal_count_mismatch_sorts_nothing :
  ¬ Equal_sorts_roots pure_flatString roots_ba roots_a.
Proof.
  intros (verdict & nl' & nl2' & Heq & Hr & _).
  assert (Equal pure_flatString roots_ba (Some roots_a)
          = (false, roots_ba, Some roots_a)) as Hrun by (vm_compute; reflexivity).
  rewrite Hrun in Heq. injection Heq as _ <- _.
  assert (sort_Strings (RootElements roots_ba) = ["a"; "b"]) as Hs
    by (vm_compute; reflexivity).
  rewrite Hs in Hr. discriminate Hr.
Qed.

(** The edge a→x, whose only destination is missing, is merged into the
    edge a→b of the same type: no edge without destinations is returned. *)
Lemma merged_edge_keeps_sibling_destinations :
  depends "a" ["x"] ∈ Edges ab_split_edges ∧
  has_node ab_split_edges (From (depends "a" ["x"])) ∧
  (∀ d, d ∈ To (depends "a" ["x"]) → ¬ has_node ab_split_edges d) ∧
  ¬ retained_without_destinations idOrder ab_split_edges (depends "a" ["x"]).
Proof.
  split; [by left|]. split; [by left|]. split.
  - intros d ->%list_elem_of_singleton Hx.
    apply elem_of_cons in Hx as [?|Hx]; [done|].
    apply list_elem_of_singleton in Hx. done.
  - intros (e' & He' & _ & _ & Hto).
    assert (Edges (cleanEdges idOrder ab_split_edges) = [depends "a" ["b"]]) as Hrun
      by (vm_compute; reflexivity).
    rewrite Hrun in He'. clear Hrun.
    apply list_elem_of_singleton in He' as ->. discriminate Hto.
Qed.

(** An instance of C10: the list with the nodes a, b and the single edge
    a→x keeps the edge, without destinations; and removing b from the list
    with the nodes a, b and the edge a→b leaves the edge a→ without
    destinations. *)
Lemma cleanEdges_retains_edge_without_destinations_witness :
  (∃ e', e' ∈ Edges (cleanEdges idOrder
                       {| Nodes := [bare "a"; bare "b"];
                          Edges := [depends "a" ["x"]]; RootElements := [] |}) ∧
         From e' = "a" ∧ To e' = []) ∧
  (∃ e', e' ∈ Edges (RemoveNodes idOrder ab_one_edge ["b"]) ∧
         From e' = "a" ∧ To e' = []).
Proof.
  pose (nl := {| Nodes := [bare "a"; bare "b"];
                 Edges := [depends "a" ["x"]]; RootElements := [] |} : NodeList).
  assert (∀ d, d ∈ ["x"] → ¬ has_node nl d) as Hgone.
  { intros d ->%list_elem_of_singleton Hx.
    apply elem_of_cons in Hx as [?|Hx]; [done|].
    apply list_elem_of_singleton in Hx. done. }
  destruct (cleanEdges_retains_edge_without_destinations idOrder nl
              (depends "a" ["x"]) ltac:(by left) ltac:(by left) Hgone)
    as [(e' & He' & HF & _ & _ & _ & Hempty) Hremove].
  split.
  - exists e'. split; [exact He'|]. split; [exact HF|]. apply Hempty.
    intros d (e & ->%list_elem_of_singleton & _ & _ & Hd). by apply Hgone.
  - destruct (Hremove ab_one_edge ["b"] (depends "a" ["b"]))
      as (e2 & He2 & HF2 & _ & Hto2).
    + by left.
    + by left.
    + intros H%list_elem_of_singleton. discriminate H.
    + intros d (e & ->%list_elem_of_singleton & _ & _ & Hd). exact Hd.
    + exists e2. done.
Defined.

(** [Equal] on two lists whose counts agree leaves the edges in the order
    it found them, also when that order is not the sorted one. *)
Lemma Equal_keeps_edge_order :
  let nl := {| Nodes := []; Edges := [depends "b" []; depends "a" []];
               RootElements := [] |} in
  Equal pure_flatString nl (Some nl) = (true, nl, Some nl).
Proof. vm_compute. reflexivity. Qed.

(** An instance of C3: a and b are nodes of both lists, only the argument
    has an edge from a of type dependsOn, and the result has one. *)
Lemma Intersect_edges_of_both_lists_witness :
  has_edge (Edges (Intersect idOrder ab_no_edges ab_one_edge)) "a" dependsOn.
Proof.
  destruct (Intersect_edges_of_both_lists idOrder ab_no_edges ab_one_edge
              SNode_Update_keeps_Id) as (_ & _ & H).
  apply (H "a" dependsOn).
  - exists (depends "a" ["b"]). split; [by left|done].
  - intros (e & He & _). by apply elem_of_nil in He.
  - split; by left.
Defined.

End ConcreteClaims.

(** * Further properties of the code *)

(** ** The edge index, entry by entry *)

Section IndexExact.
Context `{NA : NodeAPI} `{ET : EdgeTypeAPI}.
Implicit Types (e : Edge) (nl : NodeList).

Lemma index_entry_step index i e f t :
  index_entry (indexEdges_step index i e) f t
  = if decide (From e = f ∧ Type_ e = t)
    then Some (default [] (index_entry index f t) ++ [i])
    else index_entry index f t.
Proof.
  unfold indexEdges_step, index_entry.
  set (index1 := match index !! From e with
                 | None => <[From e := ∅]> index | Some _ => index end).
  assert (∀ f' t', index1 !! f' ≫= (.!! t') = index !! f' ≫= (.!! t')) as H1.
  { intros f' t'. unfold index1. destruct (index !! From e) eqn:Hf; [done|].
    destruct (decide (From e = f')) as [<-|Hne].
    - by rewrite lookup_insert_eq, Hf.
    - by rewrite lookup_insert_ne. }
  assert (index1 !! From e = Some (default ∅ (index1 !! From e))) as Hinner.
  { unfold index1. destruct (index !! From e) eqn:Hf; [by rewrite Hf|].
    by rewrite lookup_insert_eq. }
  set (inner := default ∅ (index1 !! From e)) in *.
  assert (inner !! Type_ e = index !! From e ≫= (.!! Type_ e)) as Hin.
  { rewrite <- H1, Hinner. done. }
  assert (∀ ps, (<[From e := <[Type_ e := ps]> inner]> index1) !! f ≫= (.!! t)
                = if decide (From e = f ∧ Type_ e = t) then Some ps
                  else index !! f ≫= (.!! t)) as Hput.
  { intros ps. destruct (decide (From e = f)) as [<-|Hnf].
    - rewrite lookup_insert_eq. simpl.
      destruct (decide (Type_ e = t)) as [<-|Hnt].
      + rewrite lookup_insert_eq. by rewrite decide_True.
      + rewrite lookup_insert_ne by done. rewrite decide_False by tauto.
        rewrite <- H1, Hinner. done.
    - rewrite lookup_insert_ne by done. rewrite decide_False by tauto. apply H1. }
  destruct (inner !! Type_ e) as [ps|] eqn:Hps; rewrite Hput; case_decide as Hd;
    try done; destruct Hd as [<- <-]; rewrite <- Hin; done.
Qed.

Lemma index_entry_from es : ∀ i index f t,
  index_entry (indexEdges_from i es index) f t
  = match positions_from i es f t with
    | [] => index_entry index f t
    | ps => Some (default [] (index_entry index f t) ++ ps)
    end.
Proof.
  induction es as [|e es IH]; intros i index f t; simpl; [done|].
  rewrite IH, index_entry_step. case_decide.
  - simpl. destruct (positions_from (S i) es f t); simpl; [done|].
    by rewrite <- app_assoc.
  - done.
Qed.

Lemma index_entry_indexEdges nl f t :
  index_entry (indexEdges nl) f t
  = match positions_from 0 (Edges nl) f t with
    | [] => None
    | ps => Some ps
    end.
Proof.
  unfold indexEdges. rewrite index_entry_from. unfold index_entry at 1 2.
  rewrite lookup_empty. simpl. by destruct (positions_from _ _ _ _).
Qed.

Lemma elem_of_positions_from es : ∀ i f t p,
  p ∈ positions_from i es f t ↔
  ∃ e, i ≤ p ∧ es !! (p - i) = Some e ∧ From e = f ∧ Type_ e = t.
Proof.
  induction es as [|e es IH]; intros i f t p; simpl.
  - rewrite elem_of_nil. split; [done|]. by intros (? & _ & ? & _).
  - assert (p ∈ positions_from (S i) es f t ↔
            ∃ x, i < p ∧ (e :: es) !! (p - i) = Some x ∧ From x = f ∧ Type_ x = t)
      as Htail.
    { rewrite IH. split; intros (x & Hle & Hx & Hp).
      - exists x. split; [lia|]. split; [|done].
        replace (p - i) with (S (p - S i)) by lia. done.
      - exists x. split; [lia|]. split; [|done].
        replace (p - i) with (S (p - S i)) in Hx by lia. done. }
    case_decide as Hd.
    + rewrite elem_of_cons, Htail. split.
      * intros [->|(x & ? & ? & ?)].
        -- exists e. rewrite Nat.sub_diag. by destruct Hd.
        -- exists x. split; [lia|done].
      * intros (x & Hle & Hx & Hp). destruct (decide (p = i)) as [->|]; [by left|].
        right. exists x. split; [lia|done].
    + rewrite Htail. split.
      * intros (x & ? & ? & ?). exists x. split; [lia|done].
      * intros (x & Hle & Hx & HF & HT). exists x. split; [|done].
        destruct (decide (p = i)) as [->|]; [|lia].
        rewrite Nat.sub_diag in Hx. simpl in Hx. injection Hx as ->. tauto.
Qed.

Lemma head_positions_from es : ∀ i f t,
  head (positions_from i es f t)
  = (λ pe, i + pe.1) <$> list_find (λ e, From e = f ∧ Type_ e = t) es.
Proof.
  induction es as [|e es IH]; intros i f t; simpl; [done|].
  case_decide; simpl.
  - f_equal. lia.
  - rewrite IH. destruct (list_find _ es) as [[p x]|]; simpl; [|done].
    f_equal. lia.
Qed.

End IndexExact.

(** ** The node index and the first node of an id *)

Section NodeIndexExact.
Context `{NA : NodeAPI} `{ET : EdgeTypeAPI}.
Implicit Types (e : Edge) (nl : NodeList).

Lemma indexNodes_from_lookup (ns : list Node) : ∀ i (ret : gmap string nat) id p,
  indexNodes_from i ns ret !! id = Some p ↔
  (i ≤ p ∧ (∃ n, ns !! (p - i) = Some n ∧ Id n = id) ∧
   ∀ q n', p - i < q → ns !! q = Some n' → Id n' ≠ id) ∨
  (ret !! id = Some p ∧ id ∉ Id <$> ns).
Proof.
  induction ns as [|n ns IH]; intros i ret id p; simpl.
  - rewrite elem_of_nil. split; [auto|]. intros [(_ & (? & ? & _) & _)|[? _]]; done.
  - rewrite IH. unfold indexNodes_step. rewrite elem_of_cons. split.
    + intros [(Hle & (x & Hx & Hid) & Hlast)|[Hret Hnot]].
      * left. split; [lia|]. replace (p - i) with (S (p - S i)) by lia. split; [eauto|].
        intros [|q] n' Hq Hn'; [lia|]. apply (Hlast q); [lia|done].
      * destruct (decide (Id n = id)) as [Heq|Hne].
        -- rewrite Heq, lookup_insert_eq in Hret. injection Hret as <-.
           left. split; [lia|]. rewrite Nat.sub_diag. split; [eauto|].
           intros [|q] n' Hq Hn'; [lia|]. simpl in Hn'. intros <-.
           apply Hnot, list_elem_of_fmap. exists n'. split; [done|].
           by eapply list_elem_of_lookup_2.
        -- rewrite lookup_insert_ne in Hret by done. right. split; [done|].
           intros [?|?]; [congruence|done].
    + intros [(Hle & (x & Hx & Hid) & Hlast)|[Hret Hnot]].
      * destruct (decide (p = i)) as [->|Hpi].
        -- rewrite Nat.sub_diag in Hx, Hlast. simpl in Hx. injection Hx as ->.
           right. rewrite Hid, lookup_insert_eq. split; [done|].
           intros (n' & Hn' & [q Hq]%list_elem_of_lookup)%list_elem_of_fmap.
           apply (Hlast (S q) n'); [lia|done|done].
        -- left. split; [lia|]. replace (p - i) with (S (p - S i)) in Hx, Hlast by lia.
           split; [eauto|]. intros q n' Hq Hn'. apply (Hlast (S q)); [lia|done].
      * right. rewrite lookup_insert_ne by (intros ?; apply Hnot; auto).
        split; [done|]. intros ?. apply Hnot. auto.
Qed.

Lemma indexNodes_lookup nl id p :
  indexNodes nl !! id = Some p ↔
  (∃ n, Nodes nl !! p = Some n ∧ Id n = id) ∧
  ∀ q n', p < q → Nodes nl !! q = Some n' → Id n' ≠ id.
Proof.
  unfold indexNodes. rewrite indexNodes_from_lookup, lookup_empty.
  rewrite Nat.sub_0_r. split.
  - intros [(_ & ? & ?)|[? _]]; done.
  - intros [? ?]. left. split; [lia|done].
Qed.

Lemma GetNodeByID_Some nl id n :
  GetNodeByID nl id = Some n ↔
  ∃ p, Nodes nl !! p = Some n ∧ Id n = id ∧
       ∀ q n', q < p → Nodes nl !! q = Some n' → Id n' ≠ id.
Proof.
  unfold GetNodeByID. split.
  - destruct (list_find _ _) as [[p x]|] eqn:Hf; [|done]. simpl. intros [= ->].
    apply list_find_Some in Hf as (? & ? & Hfirst). exists p. split_and!; [done..|].
    intros q n' ? ?. by eapply Hfirst.
  - intros (p & Hp & Hid & Hfirst).
    assert (list_find (λ n, Id n = id) (Nodes nl) = Some (p, n)) as ->; [|done].
    apply list_find_Some. split_and!; [done..|]. intros q n' ? ?. by eapply Hfirst.
Qed.

Lemma GetNodeByID_None nl id : GetNodeByID nl id = None ↔ ¬ has_node nl id.
Proof.
  unfold GetNodeByID, has_node. rewrite fmap_None, list_find_None, Forall_forall.
  rewrite list_elem_of_fmap. split.
  - intros H (n & -> & Hn). by apply (H n).
  - intros H n Hn Hid. apply H. eauto.
Qed.

End NodeIndexExact.

(** ** Lookups, root ids and removal *)

Section Lookups.
Context `{NA : NodeAPI} `{ET : EdgeTypeAPI}.
Implicit Types (e : Edge) (nl : NodeList) (ord : MapOrder).

(** X1.  The node index and [GetNodeByID] disagree on a repeated id.  The
    index maps an id to the position of the last node that carries it;
    [GetNodeByID] returns the first such node.  Both find nothing for the
    same ids, and they give the same node when no id is repeated. *)
Theorem indexNodes_last_GetNodeByID_first nl id :
  (∀ p, indexNodes nl !! id = Some p ↔
        (∃ n, Nodes nl !! p = Some n ∧ Id n = id) ∧
        ∀ q n', p < q → Nodes nl !! q = Some n' → Id n' ≠ id) ∧
  (∀ n, GetNodeByID nl id = Some n ↔
        ∃ p, Nodes nl !! p = Some n ∧ Id n = id ∧
             ∀ q n', q < p → Nodes nl !! q = Some n' → Id n' ≠ id) ∧
  (GetNodeByID nl id = None ↔ indexNodes nl !! id = None) ∧
  (NoDup (Id <$> Nodes nl) →
   ∀ p, indexNodes nl !! id = Some p → GetNodeByID nl id = Nodes nl !! p).
Proof.
  split_and!.
  - intros p. apply indexNodes_lookup.
  - intros n. apply GetNodeByID_Some.
  - rewrite GetNodeByID_None, eq_None_not_Some. unfold has_node.
    by rewrite indexNodes_is_Some.
  - intros Hnd p [(n & Hp & Hid) _]%indexNodes_lookup. rewrite Hp.
    apply GetNodeByID_Some. exists p. split_and!; [done..|].
    intros q n' Hq Hq' Heq.
    assert (q = p); [|lia].
    apply (proj1 (NoDup_alt _) Hnd q p id); rewrite list_lookup_fmap.
    + by rewrite Hq', <- Heq.
    + by rewrite Hp, <- Hid.
Qed.

(** X2.  Appending never shadows what was there.  After [AddNode],
    [GetNodeByID] still returns the node it returned before, and the new
    node only for an id that had none; after [AddEdge], [GetEdgeByType]
    still returns the edge it returned before, and the new edge, at the last
    position, only for an (origin, type) pair that had none. *)
Theorem append_then_lookup nl (n : Node) e id f t :
  GetNodeByID (AddNode nl n) id
  = match GetNodeByID nl id with
    | Some m => Some m
    | None => if decide (Id n = id) then Some n else None
    end ∧
  GetEdgeByType (Edges (AddEdge nl e)) f t
  = match GetEdgeByType (Edges nl) f t with
    | Some pe => Some pe
    | None => if decide (From e = f ∧ Type_ e = t)
              then Some (length (Edges nl), e) else None
    end.
Proof.
  unfold GetNodeByID, GetEdgeByType, AddNode, AddEdge. simpl. split.
  - destruct (list_find _ (Nodes nl)) as [[p m]|] eqn:Hf.
    + by rewrite (list_find_app_l _ _ _ _ _ Hf).
    + rewrite list_find_app_r by done. simpl. by case_decide.
  - destruct (list_find _ (Edges nl)) as [[p m]|] eqn:Hf.
    + by rewrite (list_find_app_l _ _ _ _ _ Hf).
    + rewrite list_find_app_r by done. simpl. by case_decide.
Qed.

Lemma add_root_foldl (idx : gset string) (roots l : list string) :
  foldl (add_root idx) roots l = roots ++ filter (λ id, id ∉ idx) l.
Proof. unfold add_root. apply (foldl_keep_if (λ id, id ∈ idx)). Qed.

Lemma Add_RootElements ord nl nl2 :
  RootElements (Add ord nl nl2)
  = RootElements nl ++ filter (λ id, id ∉ RootElements nl) (RootElements nl2).
Proof.
  unfold Add. rewrite cleanEdges_RootElements. simpl. rewrite add_root_foldl.
  f_equal. apply list_filter_iff. intros x. by rewrite elem_of_indexRootElements.
Qed.

Lemma Union_RootElements ord nl nl2 :
  RootElements (Union ord nl nl2)
  = RootElements nl ++ filter (λ id, id ∉ RootElements nl) (RootElements nl2).
Proof.
  unfold Union. simpl. rewrite add_root_foldl, cleanEdges_RootElements. simpl.
  f_equal. apply list_filter_iff. intros x.
  by rewrite elem_of_indexRootElements, cleanEdges_RootElements.
Qed.

(** X3.  The root ids after [Union] are the receiver's root ids, in
    order, followed by the argument's root ids that are not among them, in
    order; [Add] leaves the same root ids.  So an id is a root of the result
    exactly when it is a root of one of the lists, and the result repeats no
    root id when neither list does. *)
Theorem merged_roots ord nl nl2 :
  RootElements (Union ord nl nl2)
  = RootElements nl ++ filter (λ id, id ∉ RootElements nl) (RootElements nl2) ∧
  RootElements (Add ord nl nl2) = RootElements (Union ord nl nl2) ∧
  (∀ id, id ∈ RootElements (Union ord nl nl2) ↔
         id ∈ RootElements nl ∨ id ∈ RootElements nl2) ∧
  (NoDup (RootElements nl) → NoDup (RootElements nl2) →
   NoDup (RootElements (Union ord nl nl2))).
Proof.
  rewrite Add_RootElements, Union_RootElements. split_and!; [done..| |].
  - intros id. rewrite elem_of_app, list_elem_of_filter.
    destruct (decide (id ∈ RootElements nl)); tauto.
  - intros H1 H2. apply NoDup_app. split_and!; [done| |by apply NoDup_filter].
    intros x Hx [Hn _]%list_elem_of_filter. done.
Qed.

(** X4.  [RemoveNodes] keeps the nodes whose id is not listed, in
    order, and leaves the root ids as they were, also those of removed
    nodes.  No edge of the result mentions a removed id.  The result has an
    edge of a pair exactly when the receiver has one and its origin is a node
    that stays, and the destinations of that edge are the destinations the
    receiver's edges of the pair have among the nodes that stay. *)
Theorem RemoveNodes_removes ord nl ids :
  Nodes (RemoveNodes ord nl ids) = filter (λ n, Id n ∉ ids) (Nodes nl) ∧
  RootElements (RemoveNodes ord nl ids) = RootElements nl ∧
  (∀ e, e ∈ Edges (RemoveNodes ord nl ids) →
        (From e ∉ ids) ∧ ∀ d, d ∈ To e → d ∉ ids) ∧
  (∀ f t, has_edge (Edges (RemoveNodes ord nl ids)) f t ↔
          has_node nl f ∧ (f ∉ ids) ∧ has_edge (Edges nl) f t) ∧
  (∀ e' d, e' ∈ Edges (RemoveNodes ord nl ids) →
           (d ∈ To e' ↔
            has_node nl d ∧ (d ∉ ids) ∧
            has_dest (Edges nl) (From e') (Type_ e') d)).
Proof.
  assert (Nodes (RemoveNodes ord nl ids) = filter (λ n, Id n ∉ ids) (Nodes nl)) as HN.
  { unfold RemoveNodes. rewrite cleanEdges_Nodes. simpl. rewrite foldl_keep_if.
    simpl. apply list_filter_iff. intros n.
    rewrite elem_of_foldl_union, elem_of_empty. tauto. }
  assert (∀ ord' x, has_node (cleanEdges ord' (RemoveNodes_filtered nl ids)) x ↔
                    has_node nl x ∧ x ∉ ids) as Hnode.
  { intros ord' x. apply (RemoveNodes_has_node ord' nl ids x). }
  assert (∀ x, has_node (RemoveNodes_filtered nl ids) x ↔ has_node nl x ∧ x ∉ ids)
    as Hnode'.
  { intros x. rewrite <- (Hnode ord). unfold has_node. by rewrite cleanEdges_Nodes. }
  split_and!;
    [done|exact (cleanEdges_RootElements ord (RemoveNodes_filtered nl ids))| | |].
  - intros e He.
    destruct (cleanEdges_edges_backed ord (RemoveNodes_filtered nl ids) e He)
      as [HF HT].
    split.
    + by apply Hnode in HF as [_ ?].
    + intros d Hd. apply HT in Hd. by apply Hnode in Hd as [_ ?].
  - intros f t. unfold RemoveNodes. split.
    + intros (e' & He' & <- & <-).
      destruct (cleanEdges_sound _ _ _ He') as (HF%indexNodes_is_Some & Hp & _).
      apply Hnode' in HF as [? ?]. done.
    + intros (Hn & Hi & e & He & <- & <-).
      destruct (cleanEdges_retains ord (RemoveNodes_filtered nl ids) e)
        as (e' & He' & HF & HT & _); [done|by apply Hnode'|]. by exists e'.
  - intros e' d He'. unfold RemoveNodes in He'.
    destruct (cleanEdges_sound _ _ _ He') as (_ & _ & _ & Hto).
    rewrite Hto, indexNodes_is_Some. fold (has_node (RemoveNodes_filtered nl ids) d).
    rewrite Hnode'. unfold has_dest. simpl. tauto.
Qed.

End Lookups.

(** ** The edges that Add and Union merge *)

Section MergedEdges.
Context `{NA : NodeAPI} `{ET : EdgeTypeAPI}.
Implicit Types (e : Edge) (nl : NodeList) (ord : MapOrder).

Lemma cleanEdges_has_edge ord nl f t :
  has_edge (Edges (cleanEdges ord nl)) f t ↔ has_node nl f ∧ has_edge (Edges nl) f t.
Proof.
  split.
  - intros (e' & He' & <- & <-).
    destruct (cleanEdges_sound _ _ _ He') as (Hfrom & Hpair & _).
    split; [by apply indexNodes_is_Some|done].
  - intros [Hfrom (e & He & <- & <-)].
    destruct (cleanEdges_retains ord _ e He Hfrom) as (e' & He' & HF & HT & _).
    by exists e'.
Qed.

Lemma cleanEdges_dests ord nl e' d :
  e' ∈ Edges (cleanEdges ord nl) →
  (d ∈ To e' ↔ has_node nl d ∧ has_dest (Edges nl) (From e') (Type_ e') d).
Proof.
  intros He'. destruct (cleanEdges_sound _ _ _ He') as (_ & _ & _ & Hto).
  unfold has_node, has_dest. by rewrite Hto, indexNodes_is_Some.
Qed.

(** Two lists with the same node ids, the same (origin, type) pairs and the
    same destinations per pair have the same edge set after sanitation. *)
Lemma cleanEdges_edge_set_ext ord ord' nl nl' :
  (∀ x, has_node nl x ↔ has_node nl' x) →
  (∀ f t, has_edge (Edges nl) f t ↔ has_edge (Edges nl') f t) →
  (∀ f t d, has_dest (Edges nl) f t d ↔ has_dest (Edges nl') f t d) →
  edge_set (cleanEdges ord nl) = edge_set (cleanEdges ord' nl').
Proof.
  assert (∀ ord ord' nl nl',
    (∀ x, has_node nl x ↔ has_node nl' x) →
    (∀ f t, has_edge (Edges nl) f t ↔ has_edge (Edges nl') f t) →
    (∀ f t d, has_dest (Edges nl) f t d ↔ has_dest (Edges nl') f t d) →
    ∀ tr, tr ∈ edge_set (cleanEdges ord nl) → tr ∈ edge_set (cleanEdges ord' nl'))
    as Hincl.
  { clear. intros ord ord' nl nl' Hn He Hd tr. unfold edge_set.
    rewrite !elem_of_list_to_set, !list_elem_of_fmap. intros (e1 & -> & H1).
    assert (has_edge (Edges (cleanEdges ord' nl')) (From e1) (Type_ e1))
      as (e2 & H2 & HF & HT).
    { apply cleanEdges_has_edge. rewrite <- Hn, <- He.
      apply (proj1 (cleanEdges_has_edge ord nl _ _)). by exists e1. }
    exists e2. split; [|done]. unfold edge_triple. rewrite HF, HT. f_equal.
    apply set_eq. intros d. rewrite !elem_of_list_to_set.
    rewrite (cleanEdges_dests ord nl e1 d H1), (cleanEdges_dests ord' nl' e2 d H2).
    by rewrite HF, HT, Hn, Hd. }
  intros Hn He Hd. apply set_eq. intros tr. split; apply Hincl; done.
Qed.

(** The destinations [Union] leaves in an existing edge. *)
Lemma Union_widen (tos : list string) : ∀ ex,
  let r := foldl (λ ex to, if PointsTo ex to then ex
                           else set_To ex (To ex ++ [to])) ex tos in
  From r = From ex ∧ Type_ r = Type_ ex ∧
  (∀ d, d ∈ To r ↔ d ∈ To ex ∨ d ∈ tos) ∧
  (NoDup (To ex) → NoDup (To r)).
Proof.
  induction tos as [|to tos IH]; intros ex; cbv zeta in *; simpl.
  - split_and!; [done|done| |done]. intros d.
    split; [auto|]. intros [?|?%elem_of_nil]; done.
  - destruct (PointsTo ex to) eqn:Hin; unfold PointsTo in Hin.
    + apply bool_decide_eq_true in Hin.
      destruct (IH ex) as (HF & HT & Hto & Hnd).
      split_and!; [exact HF|exact HT| |exact Hnd].
      intros d. rewrite Hto, elem_of_cons.
      split; [tauto|]. intros [?|[->|?]]; tauto.
    + apply bool_decide_eq_false in Hin.
      destruct (IH (set_To ex (To ex ++ [to]))) as (HF & HT & Hto & Hnd).
      split_and!; [exact HF|exact HT| |].
      * intros d. rewrite Hto. simpl. rewrite elem_of_app, list_elem_of_singleton,
          elem_of_cons. tauto.
      * intros H. apply Hnd. simpl. apply NoDup_app. split_and!; [done| |].
        -- intros x Hx ->%list_elem_of_singleton. done.
        -- apply NoDup_singleton.
Qed.

Lemma Union_edge_has_edge (E : list Edge) e f t :
  has_edge (Union_edge E e) f t ↔ has_edge E f t ∨ (From e = f ∧ Type_ e = t).
Proof.
  unfold Union_edge, GetEdgeByType.
  destruct (list_find _ E) as [[p ex]|] eqn:Hfind.
  - apply list_find_Some in Hfind as (Hp & [HF HT] & _).
    destruct (Union_widen (To e) ex) as (HF' & HT' & _).
    rewrite insert_take_drop by (by eapply lookup_lt_Some).
    rewrite <- (take_drop_middle E p ex Hp) at 3.
    rewrite !has_edge_app, !has_edge_cons. rewrite HF', HT', HF, HT.
    split; [tauto|]. intros [[?|[?|?]]|?]; tauto.
  - rewrite has_edge_app, has_edge_cons, Edge_Copy_id.
    pose proof (has_edge_nil f t). tauto.
Qed.

Lemma Union_edge_has_dest (E : list Edge) e f t d :
  has_dest (Union_edge E e) f t d ↔
  has_dest E f t d ∨ (From e = f ∧ Type_ e = t ∧ d ∈ To e).
Proof.
  unfold Union_edge, GetEdgeByType.
  destruct (list_find _ E) as [[p ex]|] eqn:Hfind.
  - apply list_find_Some in Hfind as (Hp & [HF HT] & _).
    destruct (Union_widen (To e) ex) as (HF' & HT' & Hto & _).
    rewrite insert_take_drop by (by eapply lookup_lt_Some).
    rewrite <- (take_drop_middle E p ex Hp) at 3.
    rewrite !has_dest_app, !has_dest_cons. rewrite HF', HT', Hto, HF, HT.
    split; [tauto|]. intros [[?|[?|?]]|?]; tauto.
  - rewrite has_dest_app, has_dest_cons, Edge_Copy_id.
    pose proof (has_dest_nil f t d). tauto.
Qed.

Lemma Union_merged_has_edge nl nl2 f t :
  has_edge (Edges (Union_merged nl nl2)) f t ↔
  has_edge (Edges nl) f t ∨ has_edge (Edges nl2) f t.
Proof.
  unfold Union_merged. simpl. rewrite copyEdgeList_id.
  generalize (Edges nl). induction (Edges nl2) as [|e P IH]; intros E; simpl.
  - pose proof (has_edge_nil f t). tauto.
  - rewrite IH, Union_edge_has_edge, has_edge_cons. tauto.
Qed.

Lemma Union_merged_has_dest nl nl2 f t d :
  has_dest (Edges (Union_merged nl nl2)) f t d ↔
  has_dest (Edges nl) f t d ∨ has_dest (Edges nl2) f t d.
Proof.
  unfold Union_merged. simpl. rewrite copyEdgeList_id.
  generalize (Edges nl). induction (Edges nl2) as [|e P IH]; intros E; simpl.
  - pose proof (has_dest_nil f t d). tauto.
  - rewrite IH, Union_edge_has_dest, has_dest_cons. tauto.
Qed.

Lemma alter_insert_Some {A} (f : A → A) (l : list A) p x :
  l !! p = Some x → alter f p l = <[p := f x]> l.
Proof.
  revert p. induction l as [|y l IH]; intros [|p] H; simplify_eq/=; [done|].
  f_equal. by apply IH.
Qed.

Lemma Add_edge_step (E0 E : list Edge) idx e2 :
  index_sound E0 idx → aligned E0 E →
  aligned E0 (Add_edge idx E e2) ∧
  (∀ f t, has_edge (Add_edge idx E e2) f t ↔
          has_edge E f t ∨ (From e2 = f ∧ Type_ e2 = t)) ∧
  (∀ f t d, has_dest (Add_edge idx E e2) f t d ↔
            has_dest E f t d ∨ (From e2 = f ∧ Type_ e2 = t ∧ d ∈ To e2)).
Proof.
  intros Hs Hal.
  assert (aligned E0 (E ++ [e2]) ∧
    (∀ f t, has_edge (E ++ [e2]) f t ↔ has_edge E f t ∨ (From e2 = f ∧ Type_ e2 = t)) ∧
    (∀ f t d, has_dest (E ++ [e2]) f t d ↔
              has_dest E f t d ∨ (From e2 = f ∧ Type_ e2 = t ∧ d ∈ To e2))) as Happ.
  { split_and!.
    - intros p x0 Hp. destruct (Hal p x0 Hp) as (x & Hx & ?). exists x.
      split; [|done]. by apply lookup_app_l_Some.
    - intros f t. rewrite has_edge_app, has_edge_cons.
      pose proof (has_edge_nil f t). tauto.
    - intros f t d. rewrite has_dest_app, has_dest_cons.
      pose proof (has_dest_nil f t d). tauto. }
  unfold Add_edge. destruct (idx !! From e2) as [byType|] eqn:Hf; [|done].
  destruct (byType !! Type_ e2) as [ps|] eqn:Ht; [|done].
  destruct (Hs _ _ _ _ Hf Ht) as [Hne Hps].
  destruct ps as [|p ps]; [done|]. simpl.
  destruct (Hps p) as (x0 & Hx0 & HF0 & HT0); [by left|].
  destruct (Hal p x0 Hx0) as (x & Hx & HF & HT).
  rewrite HF0 in HF. rewrite HT0 in HT.
  assert (alter (λ e, set_To e (To e ++ To e2)) p E
          = take p E ++ set_To x (To x ++ To e2) :: drop (S p) E) as ->.
  { rewrite (alter_insert_Some _ _ _ _ Hx).
    apply insert_take_drop. by eapply lookup_lt_Some. }
  split_and!.
  - intros q y0 Hq. destruct (Hal q y0 Hq) as (y & Hy & HyF & HyT).
    rewrite <- (take_drop_middle E p x Hx) in Hy.
    destruct (decide (q = p)) as [->|Hqp].
    + exists (set_To x (To x ++ To e2)).
      assert (length (take p E) = p) as Hlen
        by (apply length_take_le; apply lookup_lt_Some in Hx; lia).
      rewrite <- Hlen at 1. rewrite list_lookup_middle by done.
      rewrite <- Hlen in Hy at 1. rewrite list_lookup_middle in Hy by done.
      injection Hy as <-. done.
    + exists y. split; [|done].
      assert (length (take p E) = p) as Hlen
        by (apply length_take_le; apply lookup_lt_Some in Hx; lia).
      destruct (decide (q < p)).
      * rewrite lookup_app_l in Hy |- * by lia. done.
      * rewrite lookup_app_r in Hy |- * by lia.
        rewrite Hlen in *. destruct (q - p) as [|k] eqn:Hk; [lia|]. done.
  - intros f t. rewrite <- (take_drop_middle E p x Hx) at 3.
    rewrite !has_edge_app, !has_edge_cons. simpl. rewrite HF, HT.
    split; [tauto|]. intros [[?|[?|?]]|?]; tauto.
  - intros f t d. rewrite <- (take_drop_middle E p x Hx) at 3.
    rewrite !has_dest_app, !has_dest_cons. simpl. rewrite elem_of_app, HF, HT.
    split; [tauto|]. intros [[?|[?|?]]|?]; tauto.
Qed.

Lemma Add_edges_foldl (E0 : list Edge) idx (P : list Edge) : ∀ E,
  index_sound E0 idx → aligned E0 E →
  (∀ f t, has_edge (foldl (Add_edge idx) E P) f t ↔ has_edge E f t ∨ has_edge P f t) ∧
  (∀ f t d, has_dest (foldl (Add_edge idx) E P) f t d ↔
            has_dest E f t d ∨ has_dest P f t d).
Proof.
  induction P as [|e P IH]; intros E Hs Hal; simpl.
  - split.
    + intros f t. pose proof (has_edge_nil f t). tauto.
    + intros f t d. pose proof (has_dest_nil f t d). tauto.
  - destruct (Add_edge_step E0 E idx e Hs Hal) as (Hal' & He & Hd).
    destruct (IH _ Hs Hal') as [He' Hd']. split.
    + intros f t. rewrite He', He, has_edge_cons. tauto.
    + intros f t d. rewrite Hd', Hd, has_dest_cons. tauto.
Qed.

Lemma Add_merged_edges nl nl2 :
  (∀ f t, has_edge (Edges (Add_merged nl nl2)) f t ↔
          has_edge (Edges nl) f t ∨ has_edge (Edges nl2) f t) ∧
  (∀ f t d, has_dest (Edges (Add_merged nl nl2)) f t d ↔
            has_dest (Edges nl) f t d ∨ has_dest (Edges nl2) f t d).
Proof.
  unfold Add_merged. simpl.
  apply (Add_edges_foldl (Edges nl)); [apply indexEdges_sound|].
  intros p x0 Hp. by exists x0.
Qed.

End MergedEdges.

(** ** The nodes that Union merges *)

Section MergedNodes.
Context `{NA : NodeAPI} `{ET : EdgeTypeAPI}.
Implicit Types (e : Edge) (nl : NodeList) (ord : MapOrder).

Lemma copy_nodes_foldl (l : list Node) :
  foldl (λ acc n, acc ++ [Node_Copy n]) [] l = Node_Copy <$> l.
Proof.
  assert (∀ acc, foldl (λ acc n, acc ++ [Node_Copy n]) acc l
                 = acc ++ (Node_Copy <$> l)) as H; [|apply (H [])].
  induction l as [|n l IH]; intros acc; simpl; [by rewrite app_nil_r|].
  by rewrite IH, <- app_assoc.
Qed.

Lemma filter_singleton {A} (P : A → Prop) `{!∀ x, Decision (P x)} (x : A) :
  filter P [x] = if decide (P x) then [x] else [].
Proof.
  case_decide; [by rewrite filter_cons_True|by rewrite filter_cons_False].
Qed.

Lemma Union_node_foldl (idx : gmap string nat) (base l : list Node) :
  (∀ id p, idx !! id = Some p → p < length base) →
  foldl (Union_node idx) base l
  = imap (λ p n, foldl Update n (filter (λ m, idx !! Id m = Some p) l)) base
    ++ filter (λ m, idx !! Id m = None) l.
Proof.
  intros Hidx. induction l as [|m l IH] using rev_ind.
  - simpl. rewrite app_nil_r. apply list_eq. intros i.
    rewrite list_lookup_imap. by destruct (base !! i).
  - rewrite foldl_app, IH. simpl. unfold Union_node at 1.
    rewrite !filter_app, filter_singleton.
    destruct (idx !! Id m) as [p|] eqn:Hm.
    + rewrite alter_app_l by (rewrite length_imap; eauto).
      rewrite decide_False by done. rewrite app_nil_r. f_equal.
      apply list_eq. intros i. rewrite list_lookup_alter, !list_lookup_imap.
      case_decide as Hpi.
      * subst i. destruct (base !! p) as [n|]; simpl; [|done].
        rewrite filter_app, foldl_app, filter_singleton, Hm.
        by rewrite decide_True.
      * destruct (base !! i) as [n|]; simpl; [|done].
        rewrite filter_app, foldl_app, filter_singleton, Hm.
        rewrite decide_False by congruence. done.
    + rewrite decide_True by done.
      rewrite <- app_assoc. f_equal.
      apply list_eq. intros i. rewrite !list_lookup_imap.
      destruct (base !! i) as [n|] eqn:Hi; simpl; [|done].
      rewrite filter_app, foldl_app, filter_singleton, Hm.
      by rewrite decide_False.
Qed.

Lemma Union_merged_Nodes nl nl2 :
  let idx := indexNodes_from 0 (Node_Copy <$> Nodes nl) ∅ in
  Nodes (Union_merged nl nl2)
  = imap (λ p n, foldl Update (Node_Copy n)
                       (filter (λ m, idx !! Id m = Some p) (Nodes nl2)))
         (Nodes nl)
    ++ filter (λ m, idx !! Id m = None) (Nodes nl2).
Proof.
  intros idx. unfold Union_merged. simpl.
  unfold indexNodes. simpl. rewrite copy_nodes_foldl. fold idx.
  rewrite Union_node_foldl.
  - f_equal. apply list_eq. intros i. rewrite !list_lookup_imap, list_lookup_fmap.
    by destruct (Nodes nl !! i).
  - intros id p Hp.
    destruct (indexNodes_sound {| Nodes := Node_Copy <$> Nodes nl; Edges := [];
                                  RootElements := [] |} id p Hp) as (n & Hn & _).
    by eapply lookup_lt_Some.
Qed.

(** X5.  The nodes of [Union], whatever the iteration order.  The
    receiver's nodes come first, as clones, each overlaid in order with the
    argument's nodes that the index of the clones sends to its position (for
    a repeated id that is the last node carrying it); then come the
    argument's nodes whose id the receiver has not, uncloned and as often as
    the argument lists them. *)
Theorem Union_merges_nodes_in_place ord nl nl2 :
  let idx := indexNodes_from 0 (Node_Copy <$> Nodes nl) ∅ in
  Nodes (Union ord nl nl2)
  = imap (λ p n, foldl Update (Node_Copy n)
                       (filter (λ m, idx !! Id m = Some p) (Nodes nl2)))
         (Nodes nl)
    ++ filter (λ m, idx !! Id m = None) (Nodes nl2).
Proof.
  intros idx. unfold Union. cbn [Nodes]. rewrite cleanEdges_Nodes.
  apply Union_merged_Nodes.
Qed.

Section Laws.
Context (HCopy : ∀ n : Node, Id (Node_Copy n) = Id n).
Context (HUpdate : ∀ n m : Node, Id m = Id n → Id (Update n m) = Id n).

Lemma overlay_keeps_Id (ms : list Node) : ∀ x : Node,
  (∀ m, m ∈ ms → Id m = Id x) → Id (foldl Update x ms) = Id x.
Proof using HUpdate.
  induction ms as [|m ms IH]; intros x H; simpl; [done|].
  rewrite IH.
  - apply HUpdate, H. by left.
  - intros m' Hm'. rewrite HUpdate by (apply H; by left). apply H. by right.
Qed.

Lemma copies_index_is_Some nl id :
  is_Some (indexNodes_from 0 (Node_Copy <$> Nodes nl) ∅ !! id) ↔ has_node nl id.
Proof using HCopy.
  rewrite indexNodes_from_is_Some, lookup_empty. unfold has_node.
  rewrite <- list_fmap_compose.
  rewrite (list_fmap_ext (Id ∘ Node_Copy) Id (Nodes nl))
    by (intros; apply HCopy).
  split; [intros [?|[? ?]]; done|auto].
Qed.

Lemma Union_ids ord nl nl2 :
  Id <$> Nodes (Union ord nl nl2)
  = (Id <$> Nodes nl)
    ++ (Id <$> filter (λ m, ¬ has_node nl (Id m)) (Nodes nl2)).
Proof using HCopy HUpdate.
  unfold Union. cbn [Nodes]. rewrite cleanEdges_Nodes, Union_merged_Nodes.
  cbv zeta. rewrite fmap_app. f_equal.
  - apply list_eq. intros p. rewrite !list_lookup_fmap, list_lookup_imap.
    destruct (Nodes nl !! p) as [n|] eqn:Hp; simpl; [|done]. f_equal.
    rewrite overlay_keeps_Id; [apply HCopy|].
    intros m [Hm _]%list_elem_of_filter.
    destruct (indexNodes_sound {| Nodes := Node_Copy <$> Nodes nl; Edges := [];
                                  RootElements := [] |} _ _ Hm) as (c & Hc & Hid).
    simpl in Hc. rewrite list_lookup_fmap, Hp in Hc. simpl in Hc.
    injection Hc as <-. done.
  - f_equal. apply list_filter_iff. intros m.
    by rewrite <- copies_index_is_Some, eq_None_not_Some.
Qed.

Context (HAugment : ∀ n : Node, Id (Augment n n) = Id n).

Lemma self_augmented_Id (n n' : Node) : self_augmented n n' → Id n' = Id n.
Proof using HAugment.
  intros [k ->]. induction k as [|k IH]; simpl; [done|]. by rewrite HAugment.
Qed.

Lemma Add_ids ord nl nl2 :
  Id <$> Nodes (Add ord nl nl2)
  = (Id <$> Nodes nl)
    ++ (Id <$> filter (λ m, ¬ has_node nl (Id m)) (Nodes nl2)).
Proof using HAugment.
  destruct (Add_Nodes ord nl nl2) as (own & Hown & ->).
  rewrite fmap_app. f_equal.
  - clear -Hown HAugment. induction Hown as [|n n' l l' Hn _ IH]; [done|].
    rewrite !fmap_cons. by rewrite IH, (self_augmented_Id n n').
  - f_equal. apply list_filter_iff. intros m. unfold has_node.
    by rewrite <- indexNodes_is_Some, eq_None_not_Some.
Qed.

End Laws.

End MergedNodes.

(** ** Union and Add *)

Section MergeTheorems.
Context `{NA : NodeAPI} `{ET : EdgeTypeAPI}.
Implicit Types (e : Edge) (nl : NodeList) (ord : MapOrder).
Context (HCopy : ∀ n : Node, Id (Node_Copy n) = Id n).
Context (HUpdate : ∀ n m : Node, Id m = Id n → Id (Update n m) = Id n).

Lemma Union_has_node ord nl nl2 x :
  has_node (Union ord nl nl2) x ↔ has_node nl x ∨ has_node nl2 x.
Proof using HCopy HUpdate.
  unfold has_node at 1. rewrite (Union_ids HCopy HUpdate), elem_of_app.
  rewrite (list_elem_of_fmap Id (filter _ _)). unfold has_node. split.
  - intros [?|(m & -> & [_ Hm]%list_elem_of_filter)]; [by left|].
    right. apply list_elem_of_fmap. eauto.
  - intros [?|(m & -> & Hm)%list_elem_of_fmap]; [by left|].
    destruct (decide (Id m ∈ Id <$> Nodes nl)); [by left|].
    right. exists m. split; [done|]. by apply list_elem_of_filter.
Qed.

(** X6.  With a clone and an overlay that keep the id of a node, the
    ids of the nodes of [Union] are the receiver's ids followed by the ids of
    the argument's nodes that the receiver has not.  An id is a node of the
    result exactly when it is a node of one of the lists, and the result
    repeats no id when neither list does. *)
Theorem Union_node_ids ord nl nl2 :
  Id <$> Nodes (Union ord nl nl2)
  = (Id <$> Nodes nl) ++ (Id <$> filter (λ m, ¬ has_node nl (Id m)) (Nodes nl2)) ∧
  (∀ x, has_node (Union ord nl nl2) x ↔ has_node nl x ∨ has_node nl2 x) ∧
  (NoDup (Id <$> Nodes nl) → NoDup (Id <$> Nodes nl2) →
   NoDup (Id <$> Nodes (Union ord nl nl2))).
Proof using HCopy HUpdate.
  split_and!.
  - apply (Union_ids HCopy HUpdate).
  - intros x. apply Union_has_node.
  - intros H1 H2. rewrite (Union_ids HCopy HUpdate). apply NoDup_app. split_and!.
    + done.
    + intros x Hx (m & -> & [Hm _]%list_elem_of_filter)%list_elem_of_fmap. done.
    + clear -H2. induction (Nodes nl2) as [|m l IH]; [constructor|].
      rewrite fmap_cons in H2. apply NoDup_cons in H2 as [Hm H2].
      destruct (decide (¬ has_node nl (Id m))).
      * rewrite filter_cons_True by done. rewrite fmap_cons. apply NoDup_cons.
        split; [|by apply IH].
        intros (m' & Heq & [_ Hm']%list_elem_of_filter)%list_elem_of_fmap.
        apply Hm. rewrite Heq. apply list_elem_of_fmap. eauto.
      * rewrite filter_cons_False by done. by apply IH.
Qed.

(** X7.  With a clone and an overlay that keep the id of a node,
    [Union] has an edge of a pair exactly when one of the lists has one and
    its origin is a node of one of the lists; the destinations of that edge
    are the destinations that the edges of the pair have in either list and
    that are nodes of one of the lists. *)
Theorem Union_edges ord nl nl2 :
  (∀ f t, has_edge (Edges (Union ord nl nl2)) f t ↔
          (has_node nl f ∨ has_node nl2 f) ∧
          (has_edge (Edges nl) f t ∨ has_edge (Edges nl2) f t)) ∧
  (∀ e' d, e' ∈ Edges (Union ord nl nl2) →
           (d ∈ To e' ↔
            (has_node nl d ∨ has_node nl2 d) ∧
            (has_dest (Edges nl) (From e') (Type_ e') d ∨
             has_dest (Edges nl2) (From e') (Type_ e') d))).
Proof using HCopy HUpdate.
  assert (∀ x, has_node (Union_merged nl nl2) x ↔ has_node nl x ∨ has_node nl2 x)
    as Hn.
  { intros x. rewrite <- (Union_has_node ord). unfold has_node, Union. simpl.
    by rewrite cleanEdges_Nodes. }
  split.
  - intros f t. unfold Union. simpl.
    by rewrite cleanEdges_has_edge, Hn, Union_merged_has_edge.
  - intros e' d He'. unfold Union in He'. simpl in He'.
    by rewrite (cleanEdges_dests _ _ _ _ He'), Hn, Union_merged_has_dest.
Qed.

Context (HAugment : ∀ n : Node, Id (Augment n n) = Id n).

(** X8.  With a clone, an overlay and a self gap-fill that keep the id
    of a node, [Add] leaves in the receiver what [Union] returns, up to the
    contents of the nodes: the same ids in the same order, the same root ids
    and the same set of (origin, type, destination-set) triples, whatever
    the iteration orders. *)
Theorem Add_agrees_with_Union ord ord' nl nl2 :
  Id <$> Nodes (Add ord nl nl2) = Id <$> Nodes (Union ord' nl nl2) ∧
  RootElements (Add ord nl nl2) = RootElements (Union ord' nl nl2) ∧
  edge_set (Add ord nl nl2) = edge_set (Union ord' nl nl2).
Proof using HCopy HUpdate HAugment.
  assert (Id <$> Nodes (Add ord nl nl2) = Id <$> Nodes (Union ord' nl nl2)) as Hids.
  { by rewrite (Add_ids HAugment), (Union_ids HCopy HUpdate). }
  split_and!; [done|by rewrite Add_RootElements, Union_RootElements|].
  destruct (Add_merged_edges nl nl2) as [He Hd].
  transitivity (edge_set (cleanEdges ord' (Union_merged nl nl2))); [|done].
  apply cleanEdges_edge_set_ext.
  - intros x. unfold Add, Union in Hids. simpl in Hids.
    rewrite !cleanEdges_Nodes in Hids. unfold has_node. by rewrite Hids.
  - intros f t. by rewrite He, Union_merged_has_edge.
  - intros f t d. by rewrite Hd, Union_merged_has_dest.
Qed.

End MergeTheorems.

(** ** The nodes and root ids of Intersect *)

Section IntersectNodes.
Context `{NA : NodeAPI} `{ET : EdgeTypeAPI}.
Implicit Types (e : Edge) (nl : NodeList) (ord : MapOrder).
Context (Hid : ∀ n m : Node, Id m = Id n → Id (Update (Node_Copy n) m) = Id n).

Lemma Intersect_pick_Id nl nl2 id n :
  Intersect_pick nl nl2 id = Some n → Id n = id.
Proof using Hid.
  unfold Intersect_pick.
  destruct (indexNodes nl2 !! id) as [p2|] eqn:H2; [|done].
  destruct (indexNodes nl !! id) as [p1|] eqn:H1; [|done]. simpl.
  destruct (indexNodes_sound nl _ _ H1) as (n1 & Hn1 & Hid1).
  destruct (indexNodes_sound nl2 _ _ H2) as (n2 & Hn2 & Hid2).
  rewrite Hn1, Hn2. intros [= <-]. rewrite Hid by congruence. done.
Qed.

Lemma Intersect_pick_is_Some nl nl2 id :
  is_Some (Intersect_pick nl nl2 id) ↔ has_node nl id ∧ has_node nl2 id.
Proof.
  unfold Intersect_pick, has_node. rewrite <- !indexNodes_is_Some. split.
  - destruct (indexNodes nl2 !! id) as [p2|] eqn:H2; [|by intros [? ?]].
    destruct (indexNodes nl !! id) as [p1|] eqn:H1; [eauto|]. simpl.
    by intros [? ?].
  - intros [[p1 H1] [p2 H2]]. rewrite H2, H1. simpl.
    destruct (indexNodes_sound nl _ _ H1) as (n1 & Hn1 & _).
    destruct (indexNodes_sound nl2 _ _ H2) as (n2 & Hn2 & _).
    rewrite Hn1, Hn2. eauto.
Qed.

Lemma Intersect_ids ord nl nl2 :
  Id <$> Nodes (Intersect ord nl nl2)
  = filter (λ id, has_node nl2 id) (range ord range_ni1 (indexNodes nl)).
Proof using Hid.
  unfold Intersect. rewrite cleanEdges_Nodes, Intersect_merged_Nodes.
  assert (∀ id, id ∈ range ord range_ni1 (indexNodes nl) → has_node nl id) as Hin.
  { intros id [? ?]%elem_of_range. apply indexNodes_is_Some. eauto. }
  induction (range ord range_ni1 (indexNodes nl)) as [|id l IH]; [done|].
  rewrite bind_cons, fmap_app, IH by (intros; apply Hin; by right).
  destruct (Intersect_pick nl nl2 id) as [n|] eqn:Hp.
  - rewrite filter_cons_True.
    + simpl. by rewrite (Intersect_pick_Id _ _ _ _ Hp).
    + apply (Intersect_pick_is_Some nl nl2 id). eauto.
  - rewrite filter_cons_False; [done|]. intros H2.
    destruct (proj2 (Intersect_pick_is_Some nl nl2 id)) as [? ?]; [|congruence].
    split; [apply Hin; by left|done].
Qed.

Lemma Intersect_roots ord nl nl2 :
  RootElements (Intersect ord nl nl2)
  = filter (λ id, has_node nl2 id ∧
                  (id ∈ RootElements nl ∨ id ∈ RootElements nl2))
           (range ord range_ni1 (indexNodes nl)).
Proof.
  unfold Intersect. rewrite cleanEdges_RootElements, Intersect_merged_RootElements.
  assert (∀ id, id ∈ range ord range_ni1 (indexNodes nl) → has_node nl id) as Hin.
  { intros id [? ?]%elem_of_range. apply indexNodes_is_Some. eauto. }
  induction (range ord range_ni1 (indexNodes nl)) as [|id l IH]; [done|].
  rewrite bind_cons, IH by (intros; apply Hin; by right).
  unfold Intersect_root at 1.
  destruct (Intersect_pick nl nl2 id) as [n|] eqn:Hp.
  - assert (has_node nl2 id) as H2.
    { apply (Intersect_pick_is_Some nl nl2 id). eauto. }
    case_decide as Hr; rewrite !elem_of_indexRootElements in Hr.
    + by rewrite filter_cons_True.
    + rewrite filter_cons_False; [done|]. tauto.
  - rewrite filter_cons_False; [done|]. intros [H2 _].
    destruct (proj2 (Intersect_pick_is_Some nl nl2 id)) as [? ?]; [|congruence].
    split; [apply Hin; by left|done].
Qed.

(** X9.  With a clone followed by an overlay that keep the id of a
    node, the nodes of [Intersect] are the ids the two lists share, each
    once, also when a list repeats an id.  Its root ids are the shared ids
    that are a root id of one of the lists, each once, and each of them is a
    node of the result. *)
Theorem Intersect_nodes_and_roots ord nl nl2 :
  (∀ x, has_node (Intersect ord nl nl2) x ↔ has_node nl x ∧ has_node nl2 x) ∧
  NoDup (Id <$> Nodes (Intersect ord nl nl2)) ∧
  (∀ x, x ∈ RootElements (Intersect ord nl nl2) ↔
        has_node nl x ∧ has_node nl2 x ∧
        (x ∈ RootElements nl ∨ x ∈ RootElements nl2)) ∧
  NoDup (RootElements (Intersect ord nl nl2)) ∧
  (∀ x, x ∈ RootElements (Intersect ord nl nl2) →
        has_node (Intersect ord nl nl2) x).
Proof using Hid.
  assert (∀ id, id ∈ range ord range_ni1 (indexNodes nl) ↔ has_node nl id) as Hin.
  { intros id. rewrite elem_of_range. apply indexNodes_is_Some. }
  assert (∀ x, has_node (Intersect ord nl nl2) x ↔ has_node nl x ∧ has_node nl2 x)
    as Hn.
  { intros x. unfold has_node at 1.
    rewrite Intersect_ids, list_elem_of_filter, Hin. tauto. }
  assert (∀ x, x ∈ RootElements (Intersect ord nl nl2) ↔
               has_node nl x ∧ has_node nl2 x ∧
               (x ∈ RootElements nl ∨ x ∈ RootElements nl2)) as Hr.
  { intros x. rewrite Intersect_roots, list_elem_of_filter, Hin. tauto. }
  split_and!; [done| |done| |].
  - rewrite Intersect_ids. apply NoDup_filter, NoDup_range.
  - rewrite Intersect_roots. apply NoDup_filter, NoDup_range.
  - intros x Hx%Hr. apply Hn. tauto.
Qed.

End IntersectNodes.

(** ** Queries *)

Section Queries.
Context `{NA : NodeAPI} `{ET : EdgeTypeAPI}.
Implicit Types (e : Edge) (nl : NodeList) (ord : MapOrder).

Lemma indexRootElements_list_to_set nl :
  indexRootElements nl = list_to_set (RootElements nl).
Proof.
  apply set_eq. intros x. by rewrite elem_of_indexRootElements, elem_of_list_to_set.
Qed.

Lemma GetRootNodes_scan_prefix (index : gset string) (nodes : list Node) : ∀ ret,
  ∃ found, GetRootNodes_scan index ret nodes = ret ++ found ∧
           found `prefix_of` filter (λ n, Id n ∈ index) nodes.
Proof.
  induction nodes as [|n nodes IH]; intros ret; simpl.
  - exists []. by rewrite app_nil_r.
  - destruct (decide (Id n ∈ index)) as [Hn|Hn].
    + rewrite filter_cons_True by done. case_decide.
      * exists [n]. split; [done|]. apply prefix_cons, prefix_nil.
      * destruct (IH (ret ++ [n])) as (found & -> & Hp). exists (n :: found).
        rewrite <- app_assoc. split; [done|]. by apply prefix_cons.
    + rewrite filter_cons_False by done. apply IH.
Qed.

Lemma GetRootNodes_scan_empty (nodes ret : list Node) :
  GetRootNodes_scan ∅ ret nodes = ret.
Proof.
  induction nodes as [|n nodes IH]; simpl; [done|].
  destruct (decide (Id n ∈ (∅ : gset string))) as [Hn|_]; [|done].
  by apply elem_of_empty in Hn.
Qed.

Lemma GetRootNodes_scan_length (index : gset string) (nodes : list Node) : ∀ ret,
  length ret < size index →
  length (GetRootNodes_scan index ret nodes) ≤ size index.
Proof.
  induction nodes as [|n nodes IH]; intros ret Hlt; simpl; [lia|].
  destruct (decide (Id n ∈ index)); [|by apply IH].
  case_decide as Hlen; [lia|]. apply IH.
  rewrite length_app in Hlen. rewrite length_app. simpl length in *. lia.
Qed.

Lemma GetRootNodes_scan_exact (index : gset string) (nodes : list Node) : ∀ ret,
  NoDup (Id <$> (ret ++ nodes)) → (∀ n, n ∈ ret → Id n ∈ index) →
  GetRootNodes_scan index ret nodes = ret ++ filter (λ n, Id n ∈ index) nodes.
Proof.
  induction nodes as [|n nodes IH]; intros ret Hnd Hret; simpl;
    [by rewrite app_nil_r|].
  destruct (decide (Id n ∈ index)) as [Hn|Hn].
  - rewrite filter_cons_True by done.
    assert (NoDup (Id <$> ((ret ++ [n]) ++ nodes))) as Hnd'
      by (by rewrite <- app_assoc).
    assert (∀ m, m ∈ ret ++ [n] → Id m ∈ index) as Hret'.
    { intros m [?| ->]%elem_of_snoc; auto. }
    case_decide as Hlen.
    + assert (filter (λ n0, Id n0 ∈ index) nodes = []) as ->; [|done].
      apply nil_iff_no_elem. intros m [Hm Hin]%list_elem_of_filter.
      rewrite fmap_app in Hnd'. apply NoDup_app in Hnd' as (Hnd1 & Hdisj & _).
      assert ((list_to_set (Id <$> (ret ++ [n])) : gset string) = index) as Heq.
      { apply set_subseteq_size_eq.
        - intros x (m' & -> & ?)%elem_of_list_to_set%list_elem_of_fmap. auto.
        - rewrite size_list_to_set by done. rewrite length_fmap. lia. }
      rewrite <- Heq in Hm. apply elem_of_list_to_set in Hm.
      apply (Hdisj _ Hm). apply list_elem_of_fmap. eauto.
    + rewrite IH by done. by rewrite <- app_assoc.
  - rewrite filter_cons_False by done. apply IH; [|done].
    rewrite fmap_app, fmap_cons in Hnd. rewrite fmap_app.
    apply NoDup_app in Hnd as (H1 & H2 & H3). apply NoDup_cons in H3 as [_ H3].
    apply NoDup_app. split_and!; [done| |done].
    intros x Hx Hx'. apply (H2 x Hx). by right.
Qed.

(** X10.  [GetRootNodes] returns nodes whose id is a root id, in the
    order of the node list, and stops as soon as it has as many nodes as
    there are distinct root ids: the result is a prefix of the nodes with a
    root id, never longer than the number of distinct root ids, and it is
    all of them when no node id is repeated. *)
Theorem GetRootNodes_result nl :
  GetRootNodes nl `prefix_of` filter (λ n, Id n ∈ RootElements nl) (Nodes nl) ∧
  length (GetRootNodes nl) ≤ size (list_to_set (RootElements nl) : gset string) ∧
  (NoDup (Id <$> Nodes nl) →
   GetRootNodes nl = filter (λ n, Id n ∈ RootElements nl) (Nodes nl)).
Proof.
  unfold GetRootNodes. rewrite indexRootElements_list_to_set.
  assert (filter (λ n, Id n ∈ RootElements nl) (Nodes nl)
          = filter (λ n, Id n ∈ (list_to_set (RootElements nl) : gset string))
                   (Nodes nl)) as ->.
  { apply list_filter_iff. intros n. by rewrite elem_of_list_to_set. }
  split_and!.
  - destruct (GetRootNodes_scan_prefix (list_to_set (RootElements nl)) (Nodes nl) [])
      as (found & -> & Hp). done.
  - destruct (decide (size (list_to_set (RootElements nl) : gset string) = 0))
      as [H0|H0].
    + apply size_empty_inv, leibniz_equiv in H0. rewrite H0.
      rewrite GetRootNodes_scan_empty. simpl. lia.
    + apply GetRootNodes_scan_length. simpl. lia.
  - intros Hnd. apply (GetRootNodes_scan_exact _ _ []); [done|].
    intros n Hn. by apply elem_of_nil in Hn.
Qed.

Lemma GetNodesByName_filter nl name :
  GetNodesByName nl name = filter (λ n, Name n = name) (Nodes nl).
Proof.
  unfold GetNodesByName.
  assert (∀ acc, foldl (λ ret n, if decide (Name n = name) then ret ++ [n] else ret)
                       acc (Nodes nl)
                 = acc ++ filter (λ n, Name n = name) (Nodes nl)) as H; [|apply (H [])].
  induction (Nodes nl) as [|n l IH]; intros acc; simpl; [by rewrite app_nil_r|].
  rewrite IH. case_decide.
  - rewrite filter_cons_True by done. by rewrite <- app_assoc.
  - by rewrite filter_cons_False.
Qed.

Lemma GetNodesByIdentifier_bind nl t v :
  GetNodesByIdentifier nl t v
  = Nodes nl ≫= λ n, (λ _, n) <$> filter (λ i, i.1 = t ∧ i.2 = v) (Identifiers n).
Proof.
  unfold GetNodesByIdentifier.
  assert (∀ (n : Node) ids acc,
    foldl (λ ret i, if decide (i.1 = t ∧ i.2 = v) then ret ++ [n] else ret) acc ids
    = acc ++ ((λ _, n) <$> filter (λ i : string * string, i.1 = t ∧ i.2 = v) ids))
    as Hinner.
  { intros n ids. induction ids as [|i ids IH]; intros acc; simpl;
      [by rewrite app_nil_r|].
    rewrite IH. case_decide.
    - rewrite filter_cons_True by done. by rewrite <- app_assoc.
    - by rewrite filter_cons_False. }
  assert (∀ acc,
    foldl (λ ret n,
             foldl (λ ret i, if decide (i.1 = t ∧ i.2 = v) then ret ++ [n] else ret)
                   ret (Identifiers n)) acc (Nodes nl)
    = acc ++ (Nodes nl ≫= λ n,
                (λ _, n) <$> filter (λ i, i.1 = t ∧ i.2 = v) (Identifiers n)))
    as H; [|apply (H [])].
  induction (Nodes nl) as [|n l IH]; intros acc; [simpl; by rewrite app_nil_r|].
  cbn [foldl]. by rewrite IH, Hinner, bind_cons, <- app_assoc.
Qed.

(** X11.  [GetNodesByName] returns the nodes with the given name, in
    order.  [GetNodesByIdentifier] returns the nodes that carry the given
    (type, value) identifier, each as often as it carries it; it is the list
    of those nodes, in order, when no node repeats an identifier. *)
Theorem lookups_by_name_and_identifier nl name t v :
  GetNodesByName nl name = filter (λ n, Name n = name) (Nodes nl) ∧
  (∀ n, n ∈ GetNodesByIdentifier nl t v ↔ n ∈ Nodes nl ∧ (t, v) ∈ Identifiers n) ∧
  GetNodesByIdentifier nl t v
  = Nodes nl ≫= (λ n, replicate (length (filter (λ i, i = (t, v)) (Identifiers n))) n) ∧
  ((∀ n, n ∈ Nodes nl → NoDup (Identifiers n)) →
   GetNodesByIdentifier nl t v = filter (λ n, (t, v) ∈ Identifiers n) (Nodes nl)).
Proof.
  assert (∀ ids : list (string * string),
    filter (λ i, i.1 = t ∧ i.2 = v) ids = filter (λ i, i = (t, v)) ids) as Hf.
  { intros ids. apply list_filter_iff. intros [a b]. simpl.
    split; [by intros [-> ->]|by intros [= -> ->]]. }
  assert (∀ (n : Node) (l : list (string * string)),
    (λ _, n) <$> l = replicate (length l) n) as Hrep.
  { intros n l. induction l; simpl; [done|]. by f_equal. }
  split_and!.
  - apply GetNodesByName_filter.
  - intros n. rewrite GetNodesByIdentifier_bind, list_elem_of_bind. split.
    + intros (m & (i & -> & [[Ha Hb] Hi]%list_elem_of_filter)%list_elem_of_fmap & Hm).
      split; [done|]. destruct i; simpl in *; by subst.
    + intros [Hn Hi]. exists n. split; [|done]. apply list_elem_of_fmap.
      exists (t, v). split; [done|]. by apply list_elem_of_filter.
  - rewrite GetNodesByIdentifier_bind. induction (Nodes nl) as [|n l IH]; [done|].
    by rewrite !bind_cons, IH, Hf, Hrep.
  - intros Hnd. rewrite GetNodesByIdentifier_bind.
    induction (Nodes nl) as [|n l IH]; [done|].
    rewrite bind_cons, IH by (intros; apply Hnd; by right). rewrite Hf.
    assert (NoDup (Identifiers n)) as Hn by (apply Hnd; by left).
    destruct (decide ((t, v) ∈ Identifiers n)) as [Hin|Hin].
    + rewrite filter_cons_True by done.
      assert (filter (λ i, i = (t, v)) (Identifiers n) = [(t, v)]) as ->; [|done].
      clear -Hn Hin. induction (Identifiers n) as [|i ids IH]; [by apply elem_of_nil in Hin|].
      apply NoDup_cons in Hn as [Hi Hn]. apply elem_of_cons in Hin as [<-|Hin].
      * rewrite filter_cons_True by done. f_equal.
        apply nil_iff_no_elem. intros x [-> Hx]%list_elem_of_filter. done.
      * rewrite filter_cons_False by (intros ->; done). by apply IH.
    + rewrite filter_cons_False by done.
      assert (filter (λ i, i = (t, v)) (Identifiers n) = []) as ->; [|done].
      apply nil_iff_no_elem. intros x [-> Hx]%list_elem_of_filter. done.
Qed.

End Queries.

(** ** Reconnecting orphans *)

Section Filtering.
Context `{NA : NodeAPI} `{ET : EdgeTypeAPI}.
Implicit Types (e : Edge) (nl : NodeList) (ord : MapOrder).

Lemma indexEdges_step_is_Some index i e f :
  is_Some (indexEdges_step index i e !! f) ↔ is_Some (index !! f) ∨ From e = f.
Proof.
  unfold indexEdges_step.
  set (index1 := match index !! From e with
                 | None => <[From e := ∅]> index | Some _ => index end).
  assert (is_Some (index1 !! f) ↔ is_Some (index !! f) ∨ From e = f) as H1.
  { unfold index1. destruct (index !! From e) eqn:Hf.
    - split; [auto|]. intros [?|<-]; [done|]. rewrite Hf. eauto.
    - destruct (decide (From e = f)) as [<-|Hne].
      + rewrite lookup_insert_eq. split; eauto.
      + rewrite lookup_insert_ne by done. split; [auto|]. intros [?|?]; done. }
  assert (∀ v, is_Some (<[From e := v]> index1 !! f) ↔ is_Some (index1 !! f)) as H2.
  { intros v. destruct (decide (From e = f)) as [<-|Hne].
    - rewrite lookup_insert_eq. split; [|eauto]. intros _. apply H1. by right.
    - by rewrite lookup_insert_ne. }
  destruct (default ∅ (index1 !! From e) !! Type_ e); by rewrite H2.
Qed.

Lemma indexEdges_from_is_Some es : ∀ i index f,
  is_Some (indexEdges_from i es index !! f) ↔
  is_Some (index !! f) ∨ ∃ e, e ∈ es ∧ From e = f.
Proof.
  induction es as [|e es IH]; intros i index f; simpl.
  - split; [auto|]. intros [?|(? & H & _)]; [done|]. by apply elem_of_nil in H.
  - rewrite IH, indexEdges_step_is_Some. split.
    + intros [[?|?]|(x & ? & ?)]; [by left| |].
      * right. exists e. split; [by left|done].
      * right. exists x. split; [by right|done].
    + intros [?|(x & [->|?]%elem_of_cons & ?)]; [by left; left|by left; right|].
      right. eauto.
Qed.

Lemma indexEdges_is_Some nl f :
  is_Some (indexEdges nl !! f) ↔ ∃ e, e ∈ Edges nl ∧ From e = f.
Proof.
  unfold indexEdges. rewrite indexEdges_from_is_Some, lookup_empty.
  split; [intros [[? ?]|?]; done|auto].
Qed.

Lemma reconnectOrphanNodes_RootElements nl :
  RootElements (reconnectOrphanNodes nl)
  = RootElements nl
    ++ (Id <$> filter (λ n, Forall (λ e, From e ≠ Id n) (Edges nl) ∧
                            Id n ∉ RootElements nl) (Nodes nl)).
Proof.
  unfold reconnectOrphanNodes. simpl.
    set (rootIndex := foldl _ (indexRootElements nl) (RootElements nl)).
    assert (∀ x, x ∈ rootIndex ↔ x ∈ RootElements nl) as Hri.
    { intros x. unfold rootIndex.
      rewrite elem_of_foldl_union, elem_of_indexRootElements. tauto. }
    assert (∀ (L : list Node) acc,
      foldl (λ roots n,
               match indexEdges nl !! Id n with
               | None => if decide (Id n ∈ rootIndex) then roots else roots ++ [Id n]
               | Some _ => roots
               end) acc L
      = acc ++ (Id <$> filter (λ n, Forall (λ e, From e ≠ Id n) (Edges nl) ∧
                                    Id n ∉ RootElements nl) L)) as H; [|apply H].
    induction L as [|n l IH]; intros acc.
    - simpl. by rewrite app_nil_r.
    - cbn [foldl]. rewrite IH.
      destruct (indexEdges nl !! Id n) as [byType|] eqn:Hidx.
      + rewrite filter_cons_False; [done|]. intros [Hall _].
        destruct (proj1 (indexEdges_is_Some nl (Id n))) as (e & He & HF); [eauto|].
        rewrite Forall_forall in Hall. by apply (Hall e).
      + assert (Forall (λ e, From e ≠ Id n) (Edges nl)) as Hall.
        { apply Forall_forall. intros e He HF.
          destruct (proj2 (indexEdges_is_Some nl (Id n))) as [? ?]; [eauto|congruence]. }
        case_decide as Hr; rewrite Hri in Hr.
        * rewrite filter_cons_False; [done|]. tauto.
        * rewrite filter_cons_True by done. rewrite fmap_cons, <- app_assoc. done.
Qed.

(** X12.  [reconnectOrphanNodes] changes the root ids only.  It appends,
    in the order of the nodes and once per node, the id of every node that
    is the origin of no edge and was not a root id before the call.
    Afterwards every node is a root or the origin of an edge. *)
Theorem reconnectOrphanNodes_result nl :
  Nodes (reconnectOrphanNodes nl) = Nodes nl ∧
  Edges (reconnectOrphanNodes nl) = Edges nl ∧
  RootElements (reconnectOrphanNodes nl)
  = RootElements nl
    ++ (Id <$> filter (λ n, Forall (λ e, From e ≠ Id n) (Edges nl) ∧
                            Id n ∉ RootElements nl) (Nodes nl)) ∧
  (∀ n, n ∈ Nodes nl →
        Id n ∈ RootElements (reconnectOrphanNodes nl) ∨
        ∃ e, e ∈ Edges nl ∧ From e = Id n).
Proof.
  pose proof (reconnectOrphanNodes_RootElements nl) as Hroots.
  split_and!; [done|done|done|].
  intros n Hn.
  destruct (decide (Forall (λ e, From e ≠ Id n) (Edges nl))) as [Hall|Hex].
  - left. rewrite Hroots, elem_of_app.
    destruct (decide (Id n ∈ RootElements nl)); [by left|]. right.
    apply list_elem_of_fmap. exists n. split; [done|].
    by apply list_elem_of_filter.
  - right. apply not_Forall_Exists in Hex; [|apply _].
    apply Exists_exists in Hex as (e & He & HF). exists e. split; [done|].
    by destruct (decide (From e = Id n)).
Qed.

End Filtering.

(** ** Filtering by package url type *)

Section PurlFilter.
Context `{NA : NodeAPI} `{ET : EdgeTypeAPI}.
Implicit Types (e : Edge) (nl : NodeList) (ord : MapOrder).

Lemma filter_iff_on {A} (P1 P2 : A → Prop)
    `{!∀ x, Decision (P1 x), !∀ x, Decision (P2 x)} (l : list A) :
  (∀ x, x ∈ l → P1 x ↔ P2 x) → filter P1 l = filter P2 l.
Proof.
  induction l as [|a l IH]; intros Hiff; [done|].
  assert (filter P1 l = filter P2 l) as Hl.
  { apply IH. intros x Hx. apply Hiff. by right. }
  assert (P1 a ↔ P2 a) as Ha0 by (apply Hiff; by left).
  destruct (decide (P1 a)) as [Ha|Ha].
  - rewrite (filter_cons_True P1) by done.
    rewrite (filter_cons_True P2) by tauto. by rewrite Hl.
  - rewrite (filter_cons_False P1) by done.
    rewrite (filter_cons_False P2) by tauto. done.
Qed.

Lemma selected_Nodes nl purlType :
  Nodes (GetNodesByPurlType_selected nl purlType)
  = filter (λ n, HasPrefix (Purl n) ("pkg:" +:+ purlType +:+ "/")
                 || HasPrefix (Purl n) ("pkg:/" +:+ purlType +:+ "/"))
           (Nodes nl).
Proof.
  rewrite <- (GetNodesByPurlType_Nodes idOrder). unfold GetNodesByPurlType.
  by rewrite cleanEdges_Nodes.
Qed.

Lemma selected_Edges nl purlType :
  Edges (GetNodesByPurlType_selected nl purlType)
  = filter (λ e, has_node (GetNodesByPurlType_selected nl purlType) (From e))
           (Edges nl).
Proof.
  unfold GetNodesByPurlType_selected at 1. simpl.
  set (S := foldl _ [] (Nodes nl)).
  assert (∀ x, is_Some (indexNodes {| Nodes := S; Edges := []; RootElements := [] |} !! x)
               ↔ has_node (GetNodesByPurlType_selected nl purlType) x) as Hidx.
  { intros x. by rewrite indexNodes_is_Some. }
  set (idx := indexNodes _) in *.
  assert (∀ acc, foldl (λ acc e, match idx !! From e with
                                 | Some _ => acc ++ [Edge_Copy e] | None => acc end)
                       acc (Edges nl)
                 = acc ++ filter (λ e, has_node (GetNodesByPurlType_selected nl purlType)
                                               (From e)) (Edges nl)) as H; [|apply (H [])].
  induction (Edges nl) as [|e l IH]; intros acc; [simpl; by rewrite app_nil_r|].
  cbn [foldl]. rewrite IH. destruct (idx !! From e) as [p|] eqn:He.
  - rewrite filter_cons_True by (apply Hidx; rewrite He; eauto).
    by rewrite Edge_Copy_id, <- app_assoc.
  - rewrite filter_cons_False; [done|]. intros [? ?]%Hidx. congruence.
Qed.

(** X13.  [GetNodesByPurlType] on a receiver that is not nil returns the
    nodes whose package url starts with [pkg:TYPE/] or [pkg:/TYPE/], in
    order.  The result has an edge of a pair exactly when the receiver has
    one and its origin is selected; the destinations of that edge are the
    selected destinations of the receiver's edges of the pair.  Its root ids
    are the ids of the selected nodes that are the origin of no edge of the
    receiver, whatever the receiver's own root ids, so every node of the
    result is a root or the origin of an edge. *)
Theorem GetNodesByPurlType_result ord nl purlType :
  let R := GetNodesByPurlType ord (Some nl) purlType in
  Nodes R = filter (λ n, HasPrefix (Purl n) ("pkg:" +:+ purlType +:+ "/")
                         || HasPrefix (Purl n) ("pkg:/" +:+ purlType +:+ "/"))
                   (Nodes nl) ∧
  (∀ f t, has_edge (Edges R) f t ↔ has_node R f ∧ has_edge (Edges nl) f t) ∧
  (∀ e' d, e' ∈ Edges R →
           (d ∈ To e' ↔ has_node R d ∧ has_dest (Edges nl) (From e') (Type_ e') d)) ∧
  RootElements R
  = Id <$> filter (λ n, Forall (λ e, From e ≠ Id n) (Edges nl)) (Nodes R) ∧
  (∀ n, n ∈ Nodes R → Id n ∈ RootElements R ∨ ∃ e, e ∈ Edges R ∧ From e = Id n).
Proof.
  intros R. set (S := GetNodesByPurlType_selected nl purlType).
  assert (Nodes R = Nodes S) as HN.
  { unfold R, GetNodesByPurlType. by rewrite cleanEdges_Nodes. }
  assert (∀ x, has_node R x ↔ has_node S x) as Hn.
  { intros x. unfold has_node. by rewrite HN. }
  assert (∀ x, has_node (reconnectOrphanNodes S) x ↔ has_node S x) as Hn' by done.
  assert (∀ f t, has_node S f →
                 (has_edge (Edges S) f t ↔ has_edge (Edges nl) f t)) as He.
  { intros f t Hf. unfold S at 1. rewrite selected_Edges. fold S. unfold has_edge.
    split.
    - intros (e & [_ He]%list_elem_of_filter & ?). eauto.
    - intros (e & He & <- & <-). exists e. split; [|done].
      by apply list_elem_of_filter. }
  assert (∀ f t d, has_node S f →
                   (has_dest (Edges S) f t d ↔ has_dest (Edges nl) f t d)) as Hd.
  { intros f t d Hf. unfold S at 1. rewrite selected_Edges. fold S. unfold has_dest.
    split.
    - intros (e & [_ He']%list_elem_of_filter & ?). eauto.
    - intros (e & He' & <- & <- & ?). exists e. split; [|done].
      by apply list_elem_of_filter. }
  assert (∀ n, n ∈ Nodes S →
               (Forall (λ e, From e ≠ Id n) (Edges S) ↔
                Forall (λ e, From e ≠ Id n) (Edges nl))) as Hall.
  { intros n Hn0. unfold S at 1. rewrite selected_Edges. fold S.
    rewrite !Forall_forall. split.
    - intros H e He' HF. apply (H e); [|done]. apply list_elem_of_filter.
      split; [|done]. rewrite HF. apply list_elem_of_fmap. eauto.
    - intros H e [_ He']%list_elem_of_filter. by apply H. }
  assert (RootElements R
          = Id <$> filter (λ n, Forall (λ e, From e ≠ Id n) (Edges nl)) (Nodes R))
    as Hroots.
  { unfold R, GetNodesByPurlType. fold S.
    rewrite cleanEdges_RootElements, cleanEdges_Nodes.
    rewrite reconnectOrphanNodes_RootElements.
    change (RootElements S) with (@nil string). rewrite app_nil_l.
    change (Nodes (reconnectOrphanNodes S)) with (Nodes S). f_equal.
    apply filter_iff_on. intros n Hn0. rewrite Hall by done.
    split; [tauto|]. intros ?. split; [done|]. intros H0. by apply elem_of_nil in H0. }
  split_and!.
  - rewrite HN. apply selected_Nodes.
  - intros f t. rewrite Hn. unfold R, GetNodesByPurlType. fold S.
    rewrite cleanEdges_has_edge, Hn'.
    change (Edges (reconnectOrphanNodes S)) with (Edges S).
    split; intros [Hf ?]; (split; [done|]); by apply (He f t Hf).
  - intros e' d He'. rewrite Hn. unfold R, GetNodesByPurlType in He'. fold S in He'.
    rewrite (cleanEdges_dests _ _ _ _ He'), Hn'.
    change (Edges (reconnectOrphanNodes S)) with (Edges S).
    destruct (cleanEdges_edges_backed _ _ _ He') as [Hf _].
    unfold has_node in Hf. rewrite cleanEdges_Nodes in Hf.
    split; intros [? ?]; (split; [done|]); by apply (Hd _ _ _ Hf).
  - done.
  - intros n Hn0. rewrite Hroots.
    destruct (decide (Forall (λ e, From e ≠ Id n) (Edges nl))) as [Hal|Hex].
    + left. apply list_elem_of_fmap. exists n. split; [done|].
      by apply list_elem_of_filter.
    + right. apply not_Forall_Exists in Hex; [|apply _].
      apply Exists_exists in Hex as (e & He0 & HF).
      assert (From e = Id n) as HFe by (by destruct (decide (From e = Id n))).
      assert (has_node S (Id n)) as HnS.
      { apply Hn. apply list_elem_of_fmap. eauto. }
      destruct (proj2 (cleanEdges_has_edge ord (reconnectOrphanNodes S) (Id n) (Type_ e)))
        as (e' & He' & HF' & _).
      { split; [done|]. apply (He _ _ HnS). by exists e. }
      exists e'. done.
Qed.

End PurlFilter.

(** ** The edge index and RelateNodeListAtID *)

Section EdgeIndex.
Context `{NA : NodeAPI} `{ET : EdgeTypeAPI}.
Implicit Types (e : Edge) (nl : NodeList) (ord : MapOrder).

Lemma positions_from_sorted es : ∀ i f t,
  StronglySorted lt (positions_from i es f t).
Proof.
  induction es as [|e es IH]; intros i f t; simpl; [constructor|].
  case_decide; [|apply IH]. constructor; [apply IH|].
  apply Forall_forall. intros p (x & Hle & _)%elem_of_positions_from. lia.
Qed.

Lemma positions_from_nil es i f t :
  positions_from i es f t = [] ↔ ¬ has_edge es f t.
Proof.
  unfold has_edge. split.
  - intros H (e & [p Hp]%list_elem_of_lookup & HF & HT).
    assert (i + p ∈ positions_from i es f t) as Hin.
    { apply elem_of_positions_from. exists e.
      split; [lia|]. split; [|done]. by replace (i + p - i) with p by lia. }
    rewrite H in Hin. by apply elem_of_nil in Hin.
  - intros H. apply nil_iff_no_elem.
    intros p (e & _ & He & ?)%elem_of_positions_from. apply H. exists e.
    split; [|done]. by eapply list_elem_of_lookup_2.
Qed.

(** X14.  The edge index has an entry for an origin and a type exactly
    when an edge of that pair exists.  The entry lists the positions of all
    edges of the pair, in increasing order, and its first position is the
    one of the edge [GetEdgeByType] returns. *)
Theorem indexEdges_entry nl f t :
  let ps := default [] (index_entry (indexEdges nl) f t) in
  (is_Some (index_entry (indexEdges nl) f t) ↔ has_edge (Edges nl) f t) ∧
  (∀ p, p ∈ ps ↔ ∃ e, Edges nl !! p = Some e ∧ From e = f ∧ Type_ e = t) ∧
  StronglySorted lt ps ∧
  head ps = fst <$> GetEdgeByType (Edges nl) f t.
Proof.
  intros ps. unfold ps. rewrite index_entry_indexEdges.
  pose proof (positions_from_nil (Edges nl) 0 f t) as Hnil.
  pose proof (positions_from_sorted (Edges nl) 0 f t) as Hs.
  assert (head (positions_from 0 (Edges nl) f t)
          = fst <$> GetEdgeByType (Edges nl) f t) as Hh.
  { rewrite head_positions_from. unfold GetEdgeByType.
    by destruct (list_find _ _) as [[? ?]|]. }
  assert (∀ p, p ∈ positions_from 0 (Edges nl) f t ↔
               ∃ e, Edges nl !! p = Some e ∧ From e = f ∧ Type_ e = t) as Hp.
  { intros p. rewrite elem_of_positions_from. replace (p - 0) with p by lia.
    split; [intros (e & _ & ?); eauto|intros (e & ?); exists e; split; [lia|done]]. }
  destruct (positions_from 0 (Edges nl) f t) as [|q qs] eqn:Hps.
  - split_and!.
    + split; [by intros [? ?]|]. intros H. by destruct (proj1 Hnil).
    + done.
    + done.
    + exact Hh.
  - split_and!.
    + split; [|eauto]. intros _.
      destruct (proj1 (Hp q)) as (e & He & ?); [by left|]. exists e.
      split; [|done]. by eapply list_elem_of_lookup_2.
    + done.
    + done.
    + exact Hh.
Qed.

Lemma Relate_edge_pick nl f t :
  match indexEdges nl !! f with
  | Some byType => match byType !! t with Some ps => head ps | None => None end
  | None => None
  end = fst <$> GetEdgeByType (Edges nl) f t.
Proof.
  transitivity (head (default [] (index_entry (indexEdges nl) f t))).
  { unfold index_entry. destruct (indexEdges nl !! f) as [byType|]; simpl; [|done].
    by destruct (byType !! t). }
  rewrite index_entry_indexEdges.
  assert (head (positions_from 0 (Edges nl) f t)
          = fst <$> GetEdgeByType (Edges nl) f t) as Hh.
  { rewrite head_positions_from. unfold GetEdgeByType.
    by destruct (list_find _ _) as [[? ?]|]. }
  destruct (positions_from 0 (Edges nl) f t) as [|q qs] eqn:Hps; exact Hh.
Qed.

(** X15.  [RelateNodeListAtID] with an anchor that is a node returns no
    error.  It appends the root ids of the argument to the destinations of
    the first edge from the anchor of the given type; when there is none, it
    appends a new edge with these destinations.  It appends the argument's
    nodes whose id the receiver has not, as often as the argument lists them,
    and leaves the root ids as they were. *)
Theorem RelateNodeListAtID_result nl nl2 nodeID t :
  has_node nl nodeID →
  RelateNodeListAtID nl nl2 nodeID t
  = (None,
     {| Nodes := Nodes nl ++ filter (λ n, ¬ has_node nl (Id n)) (Nodes nl2);
        Edges := match GetEdgeByType (Edges nl) nodeID t with
                 | Some (p, e) =>
                     <[p := set_To e (To e ++ RootElements nl2)]> (Edges nl)
                 | None =>
                     Edges nl ++ [{| Type_ := t; From := nodeID;
                                     To := RootElements nl2 |}]
                 end;
        RootElements := RootElements nl |}).
Proof.
  intros [q Hq]%indexNodes_is_Some. unfold RelateNodeListAtID. rewrite Hq.
  rewrite Relate_edge_pick. f_equal. f_equal.
  - assert (∀ (L : list Node) acc,
      foldl (λ acc n, match indexNodes nl !! Id n with
                      | Some _ => acc | None => acc ++ [n] end) acc L
      = acc ++ filter (λ n, ¬ has_node nl (Id n)) L) as H; [|apply H].
    induction L as [|n l IH]; intros acc; [simpl; by rewrite app_nil_r|].
    cbn [foldl]. rewrite IH. destruct (indexNodes nl !! Id n) as [p|] eqn:Hn.
    + rewrite filter_cons_False; [done|]. intros H. apply H.
      apply indexNodes_is_Some. eauto.
    + rewrite filter_cons_True; [by rewrite <- app_assoc|].
      intros [? ?]%indexNodes_is_Some. congruence.
  - unfold GetEdgeByType.
    destruct (list_find _ (Edges nl)) as [[p e]|] eqn:Hfind; simpl; [|done].
    apply list_find_Some in Hfind as (Hp & _). by apply (alter_insert_Some (λ e, set_To e (To e ++ RootElements nl2))).
Qed.

End EdgeIndex.

(** ** The fixpoints of sanitation *)

Section Fixpoints.
Context `{NA : NodeAPI} `{ET : EdgeTypeAPI}.
Implicit Types (e : Edge) (nl : NodeList) (ord : MapOrder).

Lemma edges_distinct_NoDup_keys nl :
  edges_distinct nl → NoDup (edgeKey <$> Edges nl).
Proof.
  intros Hd. apply NoDup_alt. intros i j k Hi Hj.
  rewrite list_lookup_fmap in Hi, Hj.
  destruct (Edges nl !! i) as [e1|] eqn:H1; [|done].
  destruct (Edges nl !! j) as [e2|] eqn:H2; [|done].
  simpl in Hi, Hj. injection Hi as <-. injection Hj as Hj.
  apply edgeKey_inj in Hj as [HF HT]. by apply (Hd i j e1 e2).
Qed.

Lemma fmap_eq_Forall2 {A B} (f : A → B) (k l : list A) :
  f <$> k = f <$> l → Forall2 (λ x y, f x = f y) k l.
Proof.
  revert l. induction k as [|x k IH]; intros [|y l] H; simplify_eq/=;
    constructor; auto.
Qed.

Lemma sanitised_fixpoint ord nl :
  sanitised nl → edge_lists_equiv (Edges (cleanEdges ord nl)) (Edges nl).
Proof.
  intros (Hb & Hd & Hnd).
  pose proof (edges_distinct_NoDup_keys nl Hd) as HkE.
  pose proof (cleanEdges_NoDup_keys ord nl) as HkC.
  assert (edgeKey <$> Edges nl ≡ₚ edgeKey <$> Edges (cleanEdges ord nl)) as Hperm.
  { apply NoDup_Permutation; [done..|]. intros k.
    rewrite !list_elem_of_fmap. split.
    - intros (e & -> & He).
      destruct (proj2 (cleanEdges_has_edge ord nl (From e) (Type_ e)))
        as (c & Hc & HF & HT).
      { split; [by apply Hb|by exists e]. }
      exists c. split; [|done]. symmetry. by apply edgeKey_eq.
    - intros (c & -> & Hc).
      destruct (proj1 (cleanEdges_has_edge ord nl (From c) (Type_ c)))
        as (_ & e & He & HF & HT); [by exists c|].
      exists e. split; [|done]. symmetry. by apply edgeKey_eq. }
  apply Permutation_map_inv in Hperm as (k & Hk & HCk).
  exists k. split; [done|].
  apply fmap_eq_Forall2 in Hk.
  apply Forall2_same_length_lookup in Hk as [Hlen Hk].
  apply Forall2_same_length_lookup. split; [done|].
  intros i c e Hic Hie.
  assert (e ∈ Edges nl) as He by (by eapply list_elem_of_lookup_2).
  assert (c ∈ Edges (cleanEdges ord nl)) as Hc.
  { rewrite HCk. by eapply list_elem_of_lookup_2. }
  pose proof (Hk i e c Hie Hic) as Hkey. simpl in Hkey.
  apply edgeKey_inj in Hkey as [HF HT].
  split; [done|]. split; [done|].
  destruct (cleanEdges_sound _ _ _ Hc) as (_ & _ & HndC & _).
  apply NoDup_Permutation; [done|by apply Hnd|]. intros d.
  rewrite (cleanEdges_dests _ _ _ _ Hc). split.
  - intros (_ & x & Hx & HxF & HxT & Hdx).
    assert (x = e) as ->; [|done].
    apply (NoDup_keys_eq (Edges nl)); [done..|congruence|congruence].
  - intros Hde. split; [by apply (Hb e He)|]. exists e. done.
Qed.

Lemma fixpoint_sanitised ord nl :
  edge_lists_equiv (Edges (cleanEdges ord nl)) (Edges nl) → sanitised nl.
Proof.
  intros (k & HCk & Hk).
  apply Forall2_same_length_lookup in Hk as [Hlen Hk].
  assert (∀ i e, Edges nl !! i = Some e →
                 ∃ c, k !! i = Some c ∧ c ∈ Edges (cleanEdges ord nl) ∧
                      edge_equiv c e) as Hback.
  { intros i e Hie. destruct (lookup_lt_is_Some_2 k i) as [c Hic].
    { rewrite Hlen. by eapply lookup_lt_Some. }
    exists c. split; [done|]. split; [|by eapply Hk].
    rewrite HCk. by eapply list_elem_of_lookup_2. }
  assert (∀ x, has_node (cleanEdges ord nl) x ↔ has_node nl x) as Hn.
  { intros x. unfold has_node. by rewrite cleanEdges_Nodes. }
  split_and!.
  - intros e [i Hie]%list_elem_of_lookup.
    destruct (Hback i e Hie) as (c & _ & Hc & HF & _ & Hto).
    destruct (cleanEdges_edges_backed ord nl c Hc) as [Hfrom Hdest].
    split; [rewrite <- HF; by apply Hn|].
    intros d Hd. apply Hn, Hdest. by rewrite Hto.
  - intros i j e1 e2 Hi Hj HF HT.
    destruct (Hback i e1 Hi) as (c1 & Hc1 & _ & HF1 & HT1 & _).
    destruct (Hback j e2 Hj) as (c2 & Hc2 & _ & HF2 & HT2 & _).
    pose proof (cleanEdges_NoDup_pairs ord nl) as Hnd. rewrite HCk in Hnd.
    eapply (proj1 (NoDup_alt _) Hnd i j (From c1, Type_ c1)).
    + by rewrite list_lookup_fmap, Hc1.
    + rewrite list_lookup_fmap, Hc2. simpl. do 2 f_equal; congruence.
  - intros e [i Hie]%list_elem_of_lookup.
    destruct (Hback i e Hie) as (c & _ & Hc & _ & _ & Hto).
    rewrite <- Hto. by apply (cleanEdges_dests_deduplicated ord nl).
Qed.

Lemma cleanEdges_length ord nl :
  length (Edges (cleanEdges ord nl)) ≤ length (Edges nl).
Proof.
  rewrite <- (length_fmap edgeKey (Edges (cleanEdges ord nl))).
  rewrite <- (length_fmap edgeKey (Edges nl)).
  apply submseteq_length, NoDup_submseteq; [apply cleanEdges_NoDup_keys|].
  intros k (c & -> & Hc)%list_elem_of_fmap.
  destruct (cleanEdges_sound _ _ _ Hc) as (_ & (e & He & HF & HT) & _).
  apply list_elem_of_fmap. exists e. split; [|done]. symmetry. by apply edgeKey_eq.
Qed.

(** X16.  Sanitation never lengthens the edge list, and it leaves
    exactly the sanitised lists as they are: the edges after [cleanEdges]
    are the edges before it, up to the order of the edges and of the
    destinations of each edge, if and only if before it no edge dangled, no
    two edges shared an (origin, type) pair and no edge repeated a
    destination. *)
Theorem cleanEdges_fixpoints ord nl :
  length (Edges (cleanEdges ord nl)) ≤ length (Edges nl) ∧
  (sanitised nl ↔ edge_lists_equiv (Edges (cleanEdges ord nl)) (Edges nl)).
Proof.
  split; [apply cleanEdges_length|].
  split; [apply sanitised_fixpoint|apply fixpoint_sanitised].
Qed.

End Fixpoints.

(** ** What Equal compares *)

Section Comparing.
Context `{NA : NodeAPI} `{ET : EdgeTypeAPI}.
Context (flatString : Edge → string * Edge).
Implicit Types (e : Edge) (nl : NodeList) (ord : MapOrder).

Lemma sort_Strings_eq_iff (l1 l2 : list string) :
  sort_Strings l1 = sort_Strings l2 ↔ l1 ≡ₚ l2.
Proof.
  split.
  - intros H. rewrite <- (sort_Strings_Permutation l1), H.
    apply sort_Strings_Permutation.
  - intros H. apply (StronglySorted_unique String.le);
      [apply sort_Strings_sorted..|].
    by rewrite !sort_Strings_Permutation.
Qed.

Lemma flatten_strings (es : list Edge) :
  foldl (λ acc e, acc ++ [(flatString e).1]) [] es = (λ e, (flatString e).1) <$> es.
Proof.
  assert (∀ acc, foldl (λ acc e, acc ++ [(flatString e).1]) acc es
                 = acc ++ ((λ e, (flatString e).1) <$> es)) as H; [|apply H].
  induction es as [|e es IH]; intros acc; simpl; [by rewrite app_nil_r|].
  by rewrite IH, <- app_assoc.
Qed.

Lemma flatten_nodes_snoc (l : list Node) n :
  flatten_nodes (l ++ [n]) = <[Id n := Node_flatString n]> (flatten_nodes l).
Proof. unfold flatten_nodes. by rewrite foldl_app. Qed.

Lemma flatten_nodes_lookup (l : list Node) id :
  flatten_nodes l !! id = Node_flatString <$> last_with_id l id.
Proof.
  unfold last_with_id. induction l as [|n l IH] using rev_ind; [done|].
  rewrite flatten_nodes_snoc, filter_app.
  destruct (decide (Id n = id)) as [<-|Hne].
  - rewrite lookup_insert_eq, filter_cons_True by done.
    by rewrite filter_nil, last_snoc.
  - rewrite lookup_insert_ne, filter_cons_False by done.
    by rewrite filter_nil, app_nil_r.
Qed.

Lemma counts_agree_dec_stable nl nl2 :
  ¬ (length (Edges nl) ≠ length (Edges nl2)
     ∨ length (Nodes nl) ≠ length (Nodes nl2)
     ∨ length (RootElements nl) ≠ length (RootElements nl2)) →
  counts_agree nl nl2.
Proof.
  intros Hlen. unfold counts_agree.
  destruct (decide (length (Edges nl) = length (Edges nl2))); [|tauto].
  destruct (decide (length (Nodes nl) = length (Nodes nl2))); [|tauto].
  destruct (decide (length (RootElements nl) = length (RootElements nl2)));
    tauto.
Qed.

Lemma flatten_nodes_eq_iff (l l' : list Node) :
  flatten_nodes l = flatten_nodes l' ↔
  ∀ id, Node_flatString <$> last_with_id l id
        = Node_flatString <$> last_with_id l' id.
Proof. rewrite map_eq_iff. by setoid_rewrite flatten_nodes_lookup. Qed.

(** Lists that agree in what [Equal] looks at are equal to it. *)
Lemma Equal_agree_true nl nl2 :
  Equal_agree flatString nl nl2 → (Equal flatString nl (Some nl2)).1.1 = true.
Proof.
  intros ((HE & HN & HR) & Hroots & Hedges & Hnodes).
  apply sort_Strings_eq_iff in Hroots, Hedges.
  apply flatten_nodes_eq_iff in Hnodes.
  unfold Equal, flatten_edges. rewrite !flatten_strings.
  rewrite bool_decide_eq_false_2 by (intros [?|[?|?]]; done).
  rewrite bool_decide_eq_false_2 by (intros H; by apply H). simpl.
  rewrite bool_decide_eq_false_2 by (intros H; by apply H).
  by rewrite bool_decide_eq_false_2 by (intros H; by apply H).
Qed.

End Comparing.

(** ** The verdict of Equal *)

Section Verdict.
Context `{NA : NodeAPI} `{ET : EdgeTypeAPI}.
Context (flatString : Edge → string * Edge).
Implicit Types (e : Edge) (nl : NodeList) (ord : MapOrder).

Lemma NoDup_ids_filter (l : list Node) id :
  NoDup (Id <$> l) → length (filter (λ n, Id n = id) l) ≤ 1.
Proof.
  induction l as [|n l IH]; [simpl; lia|].
  rewrite fmap_cons. intros [Hn Hl]%NoDup_cons.
  destruct (decide (Id n = id)) as [<-|Hne].
  - rewrite filter_cons_True by done. simpl.
    assert (filter (λ m, Id m = Id n) l = []) as ->; [|simpl; lia].
    apply nil_iff_no_elem. intros m [Hm Hin]%list_elem_of_filter.
    apply Hn. rewrite <- Hm. apply list_elem_of_fmap. eauto.
  - rewrite filter_cons_False by done. by apply IH.
Qed.

Lemma last_with_id_Permutation (l l' : list Node) id :
  NoDup (Id <$> l) → l ≡ₚ l' → last_with_id l id = last_with_id l' id.
Proof.
  intros Hnd Hperm. unfold last_with_id.
  pose proof (NoDup_ids_filter l id Hnd) as Hlen.
  assert (filter (λ n, Id n = id) l ≡ₚ filter (λ n, Id n = id) l') as Hf
    by (by rewrite Hperm).
  destruct (filter (λ n, Id n = id) l) as [|x [|y k]]; simpl in Hlen; [| |lia].
  - apply Permutation_nil_l in Hf. by rewrite <- Hf.
  - apply Permutation_singleton_l in Hf. by rewrite <- Hf.
Qed.

(** X17.  When [Equal] answers true, the two lists have the same counts,
    the same root ids up to order and the same flattened edges up to order,
    and for every id the last node carrying it flattens to the same string
    in both lists (a node shadowed by a later node of the same id is not
    compared). *)
Theorem Equal_true_only_if nl nl2 :
  (Equal flatString nl (Some nl2)).1.1 = true →
  counts_agree nl nl2 ∧
  RootElements nl ≡ₚ RootElements nl2 ∧
  ((λ e, (flatString e).1) <$> Edges nl) ≡ₚ ((λ e, (flatString e).1) <$> Edges nl2) ∧
  ∀ id, Node_flatString <$> last_with_id (Nodes nl) id
        = Node_flatString <$> last_with_id (Nodes nl2) id.
Proof.
  unfold Equal, flatten_edges. rewrite !flatten_strings.
  case_bool_decide as Hlen; [done|].
  case_bool_decide as Hr; [done|]. simpl.
  case_bool_decide as He; [done|].
  case_bool_decide as Hn; [done|]. intros _.
  split_and!.
  - by apply counts_agree_dec_stable.
  - apply sort_Strings_eq_iff.
    by destruct (decide (sort_Strings (RootElements nl)
                         = sort_Strings (RootElements nl2))).
  - apply sort_Strings_eq_iff.
    by destruct (decide (sort_Strings ((λ e, (flatString e).1) <$> Edges nl)
                         = sort_Strings ((λ e, (flatString e).1) <$> Edges nl2))).
  - apply flatten_nodes_eq_iff.
    by destruct (decide (flatten_nodes (Nodes nl) = flatten_nodes (Nodes nl2))).
Qed.

(** X18.  [Equal] does not see the order of nodes, edges and root ids:
    it answers true on two lists whose nodes, edges and root ids are the
    same up to order, when no node id is repeated.  The root ids are taken
    to be present, as [reflect.DeepEqual] tells a nil slice from an empty
    one. *)
Theorem Equal_ignores_order nl nl2 :
  RootElements nl ≠ [] →
  NoDup (Id <$> Nodes nl) →
  Nodes nl ≡ₚ Nodes nl2 → Edges nl ≡ₚ Edges nl2 →
  RootElements nl ≡ₚ RootElements nl2 →
  (Equal flatString nl (Some nl2)).1.1 = true.
Proof.
  intros _ Hnd HN HE HR. apply Equal_agree_true. split_and!.
  - unfold counts_agree. by rewrite HN, HE, HR.
  - done.
  - by rewrite HE.
  - intros id. by rewrite (last_with_id_Permutation _ _ id Hnd HN).
Qed.

End Verdict.

(** ** Laws of Union and Intersect *)

Section Laws.
Context `{NA : NodeAPI} `{ET : EdgeTypeAPI}.
Implicit Types (e : Edge) (nl a b c : NodeList) (ord : MapOrder).

Lemma has_dest_has_edge (E : list Edge) f t d : has_dest E f t d → has_edge E f t.
Proof. intros (e & ? & ? & ? & _). by exists e. Qed.

Lemma cleanEdges_has_dest ord nl f t d :
  has_dest (Edges (cleanEdges ord nl)) f t d ↔
  has_node nl f ∧ has_node nl d ∧ has_dest (Edges nl) f t d.
Proof.
  split.
  - intros (e' & He' & <- & <- & Hd).
    destruct (proj1 (cleanEdges_has_edge ord nl (From e') (Type_ e'))) as [Hf _];
      [by exists e'|].
    apply (cleanEdges_dests _ _ _ _ He') in Hd as [? ?]. done.
  - intros (Hf & Hd & Hdest).
    destruct (proj2 (cleanEdges_has_edge ord nl f t)) as (e' & He' & <- & <-).
    { split; [done|]. by eapply has_dest_has_edge. }
    exists e'. split_and!; [done..|]. by apply (cleanEdges_dests _ _ _ _ He').
Qed.

Lemma Intersect_commutes_edges ord ord' nl nl2
    (Hid : ∀ n m : Node, Id m = Id n → Id (Update (Node_Copy n) m) = Id n) :
  edge_set (Intersect ord nl nl2) = edge_set (Intersect ord' nl2 nl).
Proof.
  assert (∀ o a b x, has_node (Intersect_merged o a b) x ↔ has_node a x ∧ has_node b x)
    as Hn.
  { intros o a b x. rewrite <- (Intersect_has_node o a b x Hid).
    unfold has_node, Intersect. by rewrite cleanEdges_Nodes. }
  unfold Intersect. apply cleanEdges_edge_set_ext.
  - intros x. rewrite !Hn. tauto.
  - intros f t. rewrite !Intersect_merged_has_edge. tauto.
  - intros f t d. rewrite !Intersect_merged_has_dest. tauto.
Qed.

Section UnionLaws.
Context (HCopy : ∀ n : Node, Id (Node_Copy n) = Id n).
Context (HUpdate : ∀ n m : Node, Id m = Id n → Id (Update n m) = Id n).

Lemma Union_merged_has_node nl nl2 x :
  has_node (Union_merged nl nl2) x ↔ has_node nl x ∨ has_node nl2 x.
Proof using HCopy HUpdate.
  rewrite <- (Union_has_node HCopy HUpdate idOrder). unfold has_node, Union. simpl.
  by rewrite cleanEdges_Nodes.
Qed.

Lemma Union_edge_set ord nl nl2 :
  edge_set (Union ord nl nl2) = edge_set (cleanEdges ord (Union_merged nl nl2)).
Proof. done. Qed.

Lemma Union_has_edge ord nl nl2 f t :
  has_edge (Edges (Union ord nl nl2)) f t ↔
  (has_node nl f ∨ has_node nl2 f) ∧
  (has_edge (Edges nl) f t ∨ has_edge (Edges nl2) f t).
Proof using HCopy HUpdate.
  unfold Union. simpl.
  by rewrite cleanEdges_has_edge, Union_merged_has_node, Union_merged_has_edge.
Qed.

Lemma Union_has_dest ord nl nl2 f t d :
  has_dest (Edges (Union ord nl nl2)) f t d ↔
  (has_node nl f ∨ has_node nl2 f) ∧ (has_node nl d ∨ has_node nl2 d) ∧
  (has_dest (Edges nl) f t d ∨ has_dest (Edges nl2) f t d).
Proof using HCopy HUpdate.
  unfold Union. simpl.
  by rewrite cleanEdges_has_dest, !Union_merged_has_node, Union_merged_has_dest.
Qed.

Lemma Union_roots_elem ord nl nl2 x :
  x ∈ RootElements (Union ord nl nl2) ↔ x ∈ RootElements nl ∨ x ∈ RootElements nl2.
Proof.
  rewrite Union_RootElements, elem_of_app, list_elem_of_filter.
  destruct (decide (x ∈ RootElements nl)); tauto.
Qed.

(** X19.  With a clone and an overlay that keep the id of a node,
    [Union] commutes up to the contents of the nodes and to order: both ways
    round the result has the same node ids, the same root ids and the same
    set of (origin, type, destination-set) triples, whatever the iteration
    orders. *)
Theorem Union_commutes ord ord' nl nl2 :
  (∀ x, has_node (Union ord nl nl2) x ↔ has_node (Union ord' nl2 nl) x) ∧
  (∀ x, x ∈ RootElements (Union ord nl nl2) ↔ x ∈ RootElements (Union ord' nl2 nl)) ∧
  edge_set (Union ord nl nl2) = edge_set (Union ord' nl2 nl).
Proof using HCopy HUpdate.
  split_and!.
  - intros x. rewrite !(Union_has_node HCopy HUpdate). tauto.
  - intros x. rewrite !Union_roots_elem. tauto.
  - rewrite !Union_edge_set. apply cleanEdges_edge_set_ext.
    + intros x. rewrite !Union_merged_has_node. tauto.
    + intros f t. rewrite !Union_merged_has_edge. tauto.
    + intros f t d. rewrite !Union_merged_has_dest. tauto.
Qed.

(** X20.  With a clone and an overlay that keep the id of a node,
    [Union] associates on lists without dangling edges: both bracketings of
    three such lists have the same node ids, the same root ids in the same
    order and the same set of (origin, type, destination-set) triples.  (An
    edge whose origin is no node of its own list is dropped by the inner
    Union, so the bracketing shows for other lists.) *)
Theorem Union_associates ord1 ord2 ord3 ord4 a b c :
  edges_backed a → edges_backed b → edges_backed c →
  (∀ x, has_node (Union ord1 (Union ord2 a b) c) x ↔
        has_node (Union ord3 a (Union ord4 b c)) x) ∧
  RootElements (Union ord1 (Union ord2 a b) c)
  = RootElements (Union ord3 a (Union ord4 b c)) ∧
  edge_set (Union ord1 (Union ord2 a b) c)
  = edge_set (Union ord3 a (Union ord4 b c)).
Proof using HCopy HUpdate.
  intros Ha Hb Hc.
  assert (∀ nl f t, edges_backed nl → has_edge (Edges nl) f t → has_node nl f) as Hbe.
  { intros nl f t Hnl (e & He & <- & _). by apply Hnl. }
  assert (∀ nl f t d, edges_backed nl → has_dest (Edges nl) f t d →
                      has_node nl f ∧ has_node nl d) as Hbd.
  { intros nl f t d Hnl (e & He & <- & _ & Hd). destruct (Hnl e He) as [? Hto].
    split; [done|by apply Hto]. }
  split_and!.
  - intros x. rewrite !(Union_has_node HCopy HUpdate). tauto.
  - rewrite !Union_RootElements.
    rewrite <- app_assoc. f_equal. rewrite filter_app. f_equal.
    rewrite list_filter_filter. apply list_filter_iff. intros x.
    rewrite elem_of_app, list_elem_of_filter. tauto.
  - rewrite !Union_edge_set. apply cleanEdges_edge_set_ext.
    + intros x. rewrite !Union_merged_has_node, !(Union_has_node HCopy HUpdate). tauto.
    + intros f t. rewrite !Union_merged_has_edge, !Union_has_edge.
      pose proof (Hbe a f t Ha). pose proof (Hbe b f t Hb).
      pose proof (Hbe c f t Hc). tauto.
    + intros f t d. rewrite !Union_merged_has_dest, !Union_has_dest.
      pose proof (Hbd a f t d Ha). pose proof (Hbd b f t d Hb).
      pose proof (Hbd c f t d Hc). tauto.
Qed.

(** X21.  With a clone and an overlay that keep the id of a node, the
    Union of a list with itself has the ids and the root ids of the list, in
    order, and the Intersect of a list with itself has the node ids of the
    list and those of its root ids that are nodes; both have the edges of
    the list as sanitation leaves them. *)
Theorem merging_with_itself ord ord' nl :
  Id <$> Nodes (Union ord nl nl) = Id <$> Nodes nl ∧
  RootElements (Union ord nl nl) = RootElements nl ∧
  edge_set (Union ord nl nl) = edge_set (cleanEdges ord' nl) ∧
  (∀ x, has_node (Intersect ord nl nl) x ↔ has_node nl x) ∧
  (∀ x, x ∈ RootElements (Intersect ord nl nl) ↔
        x ∈ RootElements nl ∧ has_node nl x) ∧
  edge_set (Intersect ord nl nl) = edge_set (cleanEdges ord' nl).
Proof using HCopy HUpdate.
  assert (∀ n m : Node, Id m = Id n → Id (Update (Node_Copy n) m) = Id n) as Hid.
  { intros n m Hm. rewrite HUpdate; rewrite HCopy; done. }
  assert (∀ x, has_node (Intersect ord nl nl) x ↔ has_node nl x) as Hn.
  { intros x. rewrite (Intersect_has_node ord nl nl x Hid). tauto. }
  split_and!.
  - rewrite (Union_ids HCopy HUpdate).
    assert (filter (λ m, ¬ has_node nl (Id m)) (Nodes nl) = []) as ->;
      [|by rewrite app_nil_r].
    apply nil_iff_no_elem. intros m [Hm Hin]%list_elem_of_filter.
    apply Hm. apply list_elem_of_fmap. eauto.
  - rewrite Union_RootElements.
    assert (filter (λ id, id ∉ RootElements nl) (RootElements nl) = []) as ->;
      [|by rewrite app_nil_r].
    apply nil_iff_no_elem. intros x [Hx Hin]%list_elem_of_filter. done.
  - rewrite Union_edge_set. apply cleanEdges_edge_set_ext.
    + intros x. rewrite Union_merged_has_node. tauto.
    + intros f t. rewrite Union_merged_has_edge. tauto.
    + intros f t d. rewrite Union_merged_has_dest. tauto.
  - done.
  - intros x. rewrite Intersect_roots, list_elem_of_filter, elem_of_range.
    rewrite indexNodes_is_Some. tauto.
  - unfold Intersect. apply cleanEdges_edge_set_ext.
    + intros x. rewrite <- Hn. unfold has_node, Intersect.
      by rewrite cleanEdges_Nodes.
    + intros f t. rewrite Intersect_merged_has_edge. tauto.
    + intros f t d. rewrite Intersect_merged_has_dest. tauto.
Qed.

End UnionLaws.

Section IntersectLaws.
Context (Hid : ∀ n m : Node, Id m = Id n → Id (Update (Node_Copy n) m) = Id n).

(** X22.  With a clone followed by an overlay that keep the id of a
    node, [Intersect] commutes up to the contents of the nodes and to order:
    both ways round the result has the same node ids and the same root ids,
    up to order, and the same set of (origin, type, destination-set)
    triples. *)
Theorem Intersect_commutes ord ord' nl nl2 :
  Id <$> Nodes (Intersect ord nl nl2) ≡ₚ Id <$> Nodes (Intersect ord' nl2 nl) ∧
  RootElements (Intersect ord nl nl2) ≡ₚ RootElements (Intersect ord' nl2 nl) ∧
  edge_set (Intersect ord nl nl2) = edge_set (Intersect ord' nl2 nl).
Proof using Hid.
  assert (∀ o a x, x ∈ range o range_ni1 (indexNodes a) ↔ has_node a x) as Hin.
  { intros o a x. rewrite elem_of_range. apply indexNodes_is_Some. }
  split_and!.
  - rewrite !(Intersect_ids Hid).
    apply NoDup_Permutation; [apply NoDup_filter, NoDup_range..|].
    intros x. rewrite !list_elem_of_filter, !Hin. tauto.
  - rewrite !Intersect_roots.
    apply NoDup_Permutation; [apply NoDup_filter, NoDup_range..|].
    intros x. rewrite !list_elem_of_filter, !Hin. tauto.
  - by apply Intersect_commutes_edges.
Qed.

End IntersectLaws.

End Laws.

(** ** The reader options *)

Section ReaderOptionsProperties.
Context {V U S : Type}.
Implicit Types (o : Options V U) (r : Reader V U S) (key : Key)
  (opts : option V) (calls : list (OptionCall V U S)).

Lemma GetFormatOptions_stored o key key' opts :
  argToOptsKeyVal key ≠ "" →
  GetFormatOptions (SetFormatOptions o key opts) key'
  = if decide (argToOptsKeyVal key' = argToOptsKeyVal key) then opts
    else GetFormatOptions o key'.
Proof.
  intros Hne. unfold SetFormatOptions, GetFormatOptions.
  rewrite decide_False by done. simpl. case_decide as Hk.
  - by rewrite Hk, lookup_insert_eq.
  - rewrite lookup_insert_ne by done. by destruct (formatOptions o).
Qed.

Lemma GetFormatOptions_ignored o key key' opts :
  argToOptsKeyVal key = "" →
  GetFormatOptions (SetFormatOptions o key opts) key' = GetFormatOptions o key'.
Proof.
  intros He. unfold SetFormatOptions, GetFormatOptions.
  rewrite decide_True by done. simpl. by destruct (formatOptions o).
Qed.

(** X23.  [SetFormatOptions] followed by [GetFormatOptions].  A key
    whose string is empty stores nothing; any other key stores the value
    under its string (the string itself, or the type name of a key that is
    not a string), so that a later lookup with a key of the same string
    returns it and a lookup with another key returns what it returned
    before.  The call always leaves a dictionary allocated, leaves the
    format and the unserialize options alone, and a key that is not a string
    shares its slot with the string that spells its type name. *)
Theorem SetFormatOptions_then_Get o key opts key' :
  GetFormatOptions (SetFormatOptions o key opts) key'
  = (if decide (argToOptsKeyVal key = "") then GetFormatOptions o key'
     else if decide (argToOptsKeyVal key' = argToOptsKeyVal key) then opts
     else GetFormatOptions o key') ∧
  is_Some (formatOptions (SetFormatOptions o key opts)) ∧
  Format (SetFormatOptions o key opts) = Format o ∧
  UnserializeOptions (SetFormatOptions o key opts) = UnserializeOptions o ∧
  (∀ name, GetFormatOptions (SetFormatOptions o (KOther name) opts) (KString name)
           = GetFormatOptions (SetFormatOptions o (KString name) opts) (KString name)).
Proof.
  split_and!.
  - case_decide; [by apply GetFormatOptions_ignored|by apply GetFormatOptions_stored].
  - unfold SetFormatOptions. case_decide; simpl; eauto.
  - unfold SetFormatOptions. by case_decide.
  - unfold SetFormatOptions. by case_decide.
  - done.
Qed.

Lemma apply_options_snoc r calls c :
  apply_options r (calls ++ [c]) = option_of c (apply_options r calls).
Proof. unfold apply_options. by rewrite foldl_app. Qed.

Lemma omap_snoc {A B} (f : A → option B) (l : list A) x :
  omap f (l ++ [x]) = omap f l ++ match f x with Some y => [y] | None => [] end.
Proof.
  rewrite omap_app. simpl. by destruct (f x).
Qed.

(** X24.  A reader after a list of reader options.  Its sniffer is the
    last sniffer given that is not nil, and its unserialize options are the
    last ones given that are not nil; when none is given they are what they
    were, so a nil argument never clears a field.  Its format is unchanged.
    The format options under a driver key are the last ones given for that
    key if it is not empty, and what they were otherwise. *)
Theorem apply_options_result r calls :
  let r' := apply_options r calls in
  sniffer r' = match last (sniffers_of calls) with
               | Some s => Some s
               | None => sniffer r
               end ∧
  UnserializeOptions (Reader_Options r')
  = match last (unserialize_options_of calls) with
    | Some uo => Some uo
    | None => UnserializeOptions (Reader_Options r)
    end ∧
  Format (Reader_Options r') = Format (Reader_Options r) ∧
  (∀ driverKey,
     GetFormatOptions (Reader_Options r') (KString driverKey)
     = match last (format_options_of calls driverKey) with
       | Some opts => opts
       | None => GetFormatOptions (Reader_Options r) (KString driverKey)
       end).
Proof.
  induction calls as [|c calls IH] using rev_ind; [done|].
  destruct IH as (IHs & IHu & IHf & IHo).
  rewrite apply_options_snoc. cbv zeta.
  unfold sniffers_of, unserialize_options_of, format_options_of.
  setoid_rewrite omap_snoc.
  fold (sniffers_of calls) (unserialize_options_of calls).
  destruct c as [k opts|[uo|]|[s|]]; simpl.
  - rewrite !app_nil_r. split_and!; [done|..].
    + rewrite <- IHu. unfold SetFormatOptions. by case_decide.
    + rewrite <- IHf. unfold SetFormatOptions. by case_decide.
    + intros driverKey. fold (format_options_of calls driverKey).
      destruct (decide (k = "")) as [->|Hk].
      * rewrite GetFormatOptions_ignored by done.
        rewrite decide_False by (intros [_ ?]; done).
        rewrite app_nil_r. apply IHo.
      * rewrite GetFormatOptions_stored by done. simpl.
        destruct (decide (driverKey = k)) as [->|Hne].
        -- rewrite decide_True by done. by rewrite last_snoc.
        -- rewrite decide_False by (intros [? _]; done).
           rewrite app_nil_r. apply IHo.
  - rewrite last_snoc, !app_nil_r. split_and!; try done.
    intros driverKey. rewrite app_nil_r. apply IHo.
  - rewrite !app_nil_r. split_and!; try done.
    intros driverKey. rewrite app_nil_r. apply IHo.
  - rewrite last_snoc, !app_nil_r. split_and!; try done.
    intros driverKey. rewrite app_nil_r. apply IHo.
  - rewrite !app_nil_r. split_and!; try done.
    intros driverKey. rewrite app_nil_r. apply IHo.
Qed.

End ReaderOptionsProperties.

(** ** Instances over the concrete nodes *)

Section ConcreteProperties.
#[local] Existing Instance SNode_API.
#[local] Existing Instance EdgeKind_API.

(** The self gap-fill of the concrete node keeps its id. *)
Lemma SNode_Augment_keeps_Id (n : SNode) : sn_id (SNode_Augment n n) = sn_id n.
Proof. simpl. unfold overlay_string. by case_decide. Qed.

(** An instance of X6: the node ids of the scenario's Union. *)
Lemma Union_node_ids_witness :
  Id <$> Nodes (Union idOrder bare_A bare_B)
  = (Id <$> Nodes bare_A)
    ++ (Id <$> filter (λ m, ¬ has_node bare_A (Id m)) (Nodes bare_B)).
Proof.
  exact (proj1 (Union_node_ids (NA := SNode_API) (λ n, eq_refl)
                 SNode_Update_keeps_Id idOrder bare_A bare_B)).
Defined.

(** An instance of X7: the scenario's Union has the edge from b. *)
Lemma Union_edges_witness :
  has_edge (Edges (Union idOrder bare_A bare_B)) "b" dependsOn.
Proof.
  apply (proj1 (Union_edges (NA := SNode_API) (λ n, eq_refl)
                  SNode_Update_keeps_Id idOrder bare_A bare_B)).
  split.
  - left. apply elem_of_cons. right. by left.
  - right. exists (depends "b" ["c"]). split; [by left|done].
Defined.

(** An instance of X8: Add and Union on the scenario, under two iteration
    orders. *)
Lemma Add_agrees_with_Union_witness :
  edge_set (Add idOrder bare_A bare_B) = edge_set (Union revOrder bare_A bare_B).
Proof.
  exact (proj2 (proj2 (Add_agrees_with_Union (NA := SNode_API) (λ n, eq_refl)
                         SNode_Update_keeps_Id SNode_Augment_keeps_Id
                         idOrder revOrder bare_A bare_B))).
Defined.

(** An instance of X9: the scenario's Intersect repeats no id. *)
Lemma Intersect_nodes_and_roots_witness :
  NoDup (Id <$> Nodes (Intersect idOrder bare_A bare_B)).
Proof.
  exact (proj1 (proj2 (Intersect_nodes_and_roots (NA := SNode_API)
                         SNode_Update_keeps_Id idOrder bare_A bare_B))).
Defined.

(** An instance of X15: relating the scenario's B at the node a of a list
    that has the edge a→b already. *)
Lemma RelateNodeListAtID_result_witness :
  RelateNodeListAtID ab_one_edge bare_B "a" dependsOn
  = (None, {| Nodes := [bare "a"; bare "b"; bare "c"];
              Edges := [depends "a" ["b"; "b"]];
              RootElements := [] |}).
Proof.
  rewrite (RelateNodeListAtID_result ab_one_edge bare_B "a" dependsOn).
  - vm_compute. reflexivity.
  - by left.
Defined.

(** An instance of X17: two lists that differ in the order of nodes and
    root ids. *)
Lemma Equal_true_only_if_witness :
  RootElements ab_rooted ≡ₚ RootElements ba_rooted.
Proof.
  assert ((Equal pure_flatString ab_rooted (Some ba_rooted)).1.1 = true) as H
    by (vm_compute; reflexivity).
  exact (proj1 (proj2 (Equal_true_only_if pure_flatString ab_rooted ba_rooted H))).
Defined.

(** An instance of X18. *)
Lemma Equal_ignores_order_witness :
  (Equal pure_flatString ab_rooted (Some ba_rooted)).1.1 = true.
Proof.
  apply Equal_ignores_order.
  - discriminate.
  - apply NoDup_cons. split; [|apply NoDup_singleton].
    intros H%list_elem_of_singleton. discriminate H.
  - apply perm_swap.
  - reflexivity.
  - apply perm_swap.
Defined.

(** An instance of X19: the scenario's Union, both ways round. *)
Lemma Union_commutes_witness :
  edge_set (Union idOrder bare_A bare_B) = edge_set (Union revOrder bare_B bare_A).
Proof.
  exact (proj2 (proj2 (Union_commutes (NA := SNode_API) (λ n, eq_refl)
                         SNode_Update_keeps_Id idOrder revOrder bare_A bare_B))).
Defined.

(** An instance of X20: three lists without dangling edges. *)
Lemma Union_associates_witness :
  edge_set (Union idOrder (Union idOrder bare_A bare_B) ab_one_edge)
  = edge_set (Union idOrder bare_A (Union idOrder bare_B ab_one_edge)).
Proof.
  assert (∀ (na nb : SNode) f d,
    sn_id na = f → sn_id nb = d →
    edges_backed {| Nodes := [na; nb]; Edges := [depends f [d]];
                    RootElements := [] |}) as Hb.
  { intros na nb f d Hf Hd e ->%list_elem_of_singleton. split.
    - rewrite <- Hf. by left.
    - intros x ->%list_elem_of_singleton. rewrite <- Hd. right. by left. }
  assert (∀ nl r, edges_backed {| Nodes := Nodes nl; Edges := Edges nl;
                                  RootElements := r |} → edges_backed nl) as Hr.
  { intros nl r H. exact H. }
  refine (proj2 (proj2 (Union_associates (NA := SNode_API) (λ n, eq_refl)
                          SNode_Update_keeps_Id idOrder idOrder idOrder idOrder
                          bare_A bare_B ab_one_edge _ _ _))).
  - apply (Hr bare_A []), (Hb (bare "a") (bare "b") "a" "b"); reflexivity.
  - apply (Hr bare_B []), (Hb (bare "b") (bare "c") "b" "c"); reflexivity.
  - apply (Hb (bare "a") (bare "b") "a" "b"); reflexivity.
Defined.

(** Without the hypothesis of X20 the bracketing shows: the edge a→b of a
    list without nodes is dropped by an inner Union with the empty list, and
    kept when the nodes a and b are merged in first. *)
Lemma Union_bracketing_with_dangling_edge :
  let dangling := {| Nodes := []; Edges := [depends "a" ["b"]];
                     RootElements := [] |} : NodeList in
  Edges (Union idOrder (Union idOrder dangling empty_NodeList) ab_no_edges) = [] ∧
  Edges (Union idOrder dangling (Union idOrder empty_NodeList ab_no_edges))
  = [depends "a" ["b"]].
Proof. split; vm_compute; reflexivity. Qed.

(** An instance of X21: the scenario's first list merged with itself. *)
Lemma merging_with_itself_witness :
  Id <$> Nodes (Union idOrder bare_A bare_A) = Id <$> Nodes bare_A.
Proof.
  exact (proj1 (merging_with_itself (NA := SNode_API) (λ n, eq_refl)
                  SNode_Update_keeps_Id idOrder idOrder bare_A)).
Defined.

(** An instance of X22: the scenario's Intersect, both ways round. *)
Lemma Intersect_commutes_witness :
  edge_set (Intersect idOrder bare_A bare_B)
  = edge_set (Intersect revOrder bare_B bare_A).
Proof.
  exact (proj2 (proj2 (Intersect_commutes (NA := SNode_API)
                         SNode_Update_keeps_Id idOrder revOrder bare_A bare_B))).
Defined.

End ConcreteProperties.
